(** * INDRA: statement grouping, ranking and the assemble-corpus filters

    A shallow embedding of [indra/util/statement_presentation.py] and of the
    filters of [indra/tools/assemble_corpus.py], with the properties of the
    grouping/ranking engine and of the transformation pipeline stated and
    settled against the code.

    Conventions.  Python [int]s are [Z]; [str]s are [string]s compared
    byte-wise (the code-point order of Python on UTF-8 text); [float]s that are
    only compared or built from one division (beliefs, grounding scores, the
    member sort key) are exact rationals [Q]; a [dict] is a [gmap], except
    where its insertion order is observed, where it is an association list; a
    raised exception is the [Raise] branch of [result]. *)

From Stdlib Require Import QArith OrdersEx.
From stdpp Require Import functions gmap strings list fin_maps sorting.


(** ** Python basics *)

Module Py.

(** Exceptions the modelled code can raise. *)
Inductive exn := AttributeError | TypeError | IndexError | KeyError.

Inductive result (A : Type) : Type :=
  | Ok (a : A)
  | Raise (e : exn).
Arguments Ok {A} a.
Arguments Raise {A} e.

#[global] Instance result_ret : MRet result := λ A a, Ok a.
#[global] Instance result_bind : MBind result := λ A B f m,
  match m with Ok a => f a | Raise e => Raise e end.
#[global] Instance result_fmap : FMap result := λ A B f m,
  match m with Ok a => Ok (f a) | Raise e => Raise e end.

(** [for x in l: acc = f(acc, x)] where the body may raise. *)
Fixpoint foldM {A S : Type} (f : S → A → result S) (s : S) (l : list A)
  : result S :=
  match l with
  | [] => Ok s
  | x :: l' => s' ← f s x; foldM f s' l'
  end.

(** [out = []; for x in l: if keep(x): out.append(x)] where the test may
    raise. *)
Fixpoint filterM {A : Type} (keep : A → result bool) (l : list A)
  : result (list A) :=
  match l with
  | [] => Ok []
  | x :: l' =>
      b ← keep x; out ← filterM keep l'; Ok (if (b : bool) then x :: out else out)
  end.

(** [[f(x) for x in l]] where [f] may raise. *)
Fixpoint forM {A B : Type} (f : A → result B) (l : list A) : result (list B) :=
  match l with
  | [] => Ok []
  | x :: l' => y ← f x; ys ← forM f l'; Ok (y :: ys)
  end.

(** The values that occur inside grouping keys: a name or an activity
    ([str]), a sorted tuple of names (Conversion), a flag ([bool]). *)
Inductive val :=
  | VStr (s : string)
  | VTuple (t : list string)
  | VBool (b : bool).

#[global] Instance val_eq_dec : EqDecision val.
Proof. solve_decision. Defined.

#[global] Instance val_countable : Countable val.
Proof.
  refine (inj_countable'
    (λ v, match v with
          | VStr s => inl s
          | VTuple t => inr (inl t)
          | VBool b => inr (inr b)
          end)
    (λ x, match x with
          | inl s => VStr s
          | inr (inl t) => VTuple t
          | inr (inr b) => VBool b
          end) _).
  by intros [].
Defined.

(** *** Ordering ([<]) on the values above *)

(** [str < str]. *)
Definition str_lt (s t : string) : bool := String.ltb s t.

Definition str_lt_r (s t : string) : result bool := Ok (str_lt s t).

(** [int < int]. *)
Definition int_lt_r (a b : Z) : result bool := Ok (a <? b)%Z.

(** [bool < bool]: [False < True]. *)
Definition bool_lt (a b : bool) : bool := negb a && b.

(** [tuple < tuple]: items are compared with [==] until the first
    difference, and only that pair is compared with [<], which may raise; a
    proper prefix is smaller. *)
Fixpoint lex_lt {A : Type} `{EqDecision A} (item_lt : A → A → result bool)
    (a b : list A) : result bool :=
  match a, b with
  | [], [] => Ok false
  | [], _ :: _ => Ok true
  | _ :: _, [] => Ok false
  | x :: a', y :: b' =>
      if decide (x = y) then lex_lt item_lt a' b' else item_lt x y
  end.

(** [x < y] on two key items; Python 3 refuses to order values of
    different types. *)
Definition val_lt (x y : val) : result bool :=
  match x, y with
  | VStr s, VStr t => str_lt_r s t
  | VTuple a, VTuple b => lex_lt str_lt_r a b
  | VBool a, VBool b => Ok (bool_lt a b)
  | _, _ => Raise TypeError
  end.

(** [<] on two role tuples. *)
Definition tuple_lt (a b : list val) : result bool := lex_lt val_lt a b.

(** What the sort needs of a fallible [<]: where it answers, it answers
    as a strict weak order. *)
Record weak_order {A : Type} (lt : A → A → result bool) : Prop := {
  wo_asym x y : lt x y = Ok true → lt y x = Ok false;
  wo_negtrans x y z :
    lt x y = Ok false → lt y z = Ok false → lt x z = Ok false }.

(** A fallible [<] that, on distinct items, orders them linearly where it
    answers. *)
Record linear_order {A : Type} (lt : A → A → result bool) : Prop := {
  lo_weak :> weak_order lt;
  lo_antisym x y : lt x y = Ok false → lt y x = Ok false → x = y }.

(** Two components compared like a 2-tuple. *)
Definition pair_lt {A B : Type} `{EqDecision A}
    (ltA : A → A → result bool) (ltB : B → B → result bool)
    (p q : A * B) : result bool :=
  if decide (p.1 ≠ q.1) then ltA p.1 q.1 else ltB p.2 q.2.

(** *** [sorted] *)

Section sorted.
Context {A : Type} (lt : A → A → result bool).

(** Insertion of [x] in front of a list already in descending order: [x]
    moves right only past items strictly greater than it, so that it stays
    in front of the items it ties with. *)
Fixpoint insert_desc (x : A) (l : list A) : result (list A) :=
  match l with
  | [] => Ok [x]
  | y :: l' =>
      b ← lt x y;
      if (b : bool) then l'' ← insert_desc x l'; Ok (y :: l'')
      else Ok (x :: y :: l')
  end.

(** [sorted(l, key=..., reverse=True)]: the stable descending sort, which
    uses [<] only and raises what a comparison raises.  CPython runs a
    different schedule of comparisons (binary insertion, merges); the
    result is the same whenever no comparison raises, and on two items the
    single comparison is the same. *)
Fixpoint sorted_desc (l : list A) : result (list A) :=
  match l with
  | [] => Ok []
  | x :: l' => s ← sorted_desc l'; insert_desc x s
  end.

(** [not_below a b]: the comparison [a < b] answers no. *)
Definition not_below (a b : A) : Prop := lt a b = Ok false.
End sorted.

(** [sorted(names)] on strings, ascending.  No comparison raises. *)
Fixpoint insert_str (x : string) (l : list string) : list string :=
  match l with
  | [] => [x]
  | y :: l' => if str_lt y x then y :: insert_str x l' else x :: y :: l'
  end.

Definition sorted_strs (l : list string) : list string :=
  foldr insert_str [] l.

(** The order that [sorted] puts names in. *)
Definition str_le (s t : string) : Prop := str_lt t s = false.

(** [itertools.permutations(pool, 2)]: ordered pairs of items at distinct
    positions, in position order. *)
Definition permutations2 {A : Type} (pool : list A) : list (A * A) :=
  i_x ← imap (λ i x, (i, x)) pool;
  j_y ← imap (λ j y, (j, y)) pool;
  if decide (i_x.1 = j_y.1 :> nat) then [] else [(i_x.2, j_y.2)].

End Py.
Import Py.

(** ** Data model

    Modelled from the spec: the classes of [indra.statements] are imported
    by the two modules but not defined in them; they are modelled through the
    attributes that the two modules read and write (spec, section 3). *)

(** Modelled from the spec: a [db_refs] entry is [None], an identifier, or
    a list of scored candidates. *)
Inductive DbVal :=
| DbNone
| DbStr (s : string)
| DbList (l : list (string * Q)).

(** Modelled from the spec: [ModCondition], with the attributes read by
    the filters. *)
Record ModCondition := MkModCondition {
  mod_type : string;
  mc_residue : option string;
  mc_position : option string;
  is_modified : bool }.

(** Modelled from the spec: [ActivityCondition]. *)
Record ActivityCondition := MkActivityCondition {
  activity_type : string;
  ac_is_active : bool }.

(** Modelled from the spec: a role filler and its bound conditions.
    [is_Agent] is [isinstance(a, Agent)]: it is [false] for a plain
    [Concept], whose qualifier fields are then empty. *)
Inductive Agent := MkAgent {
  a_name : string;
  a_db_refs : gmap string DbVal;
  a_mods : list ModCondition;
  a_activity : option ActivityCondition;
  a_bound_conditions : list BoundCondition;
  is_Agent : bool }
with BoundCondition := MkBoundCondition {
  bc_agent : Agent;
  bc_is_bound : bool }.

(** Modelled from the spec: the qualifier attributes, which a plain
    [Concept] does not have. *)
Definition get_bound_conditions (a : Agent) : result (list BoundCondition) :=
  if is_Agent a then Ok (a_bound_conditions a) else Raise AttributeError.

Definition get_mods (a : Agent) : result (list ModCondition) :=
  if is_Agent a then Ok (a_mods a) else Raise AttributeError.

Definition get_agent_activity (a : Agent) : result (option ActivityCondition) :=
  if is_Agent a then Ok (a_activity a) else Raise AttributeError.

(** [ag.name] on a role that may be absent. *)
Definition agent_name (ag : option Agent) : result string :=
  match ag with
  | Some a => Ok (a_name a)
  | None => Raise AttributeError
  end.

(** Modelled from the spec: [Agent(name)], every qualifier empty. *)
Definition Agent_ (n : string) : Agent := MkAgent n ∅ [] None [] true.

Definition set_bound_conditions (a : Agent) (bcs : list BoundCondition)
  : Agent :=
  MkAgent (a_name a) (a_db_refs a) (a_mods a) (a_activity a) bcs (is_Agent a).

(** Modelled from the spec: [Evidence], with its [epistemics] dict. *)
Record Evidence := MkEvidence {
  source_api : string;
  epistemics : gmap string bool }.

(** Modelled from the spec: the shape of a statement, as the four classes
    that [statement_presentation] singles out by name, and every other
    class as its name and the roles its [agent_list()] returns in declared
    order ([Phosphorylation(enz, sub)], [Activation(subj, obj)], ...). *)
Inductive StmtBody :=
| Complex (members : list (option Agent))
| Conversion (subj : option Agent) (obj_from obj_to : list (option Agent))
| ActiveForm (agent : option Agent) (activity : string) (is_active : bool)
| HasActivity (agent : option Agent) (activity : string) (has_activity : bool)
| FixedRole (cls : string) (roles : list (option Agent)).

(** Modelled from the spec: a statement.  [residue], [position] are
    attributes of the Modification classes and [obj_activity] of the
    RegulateActivity classes; [supports] and [supported_by] hold references
    (addresses in a [Store]). *)
Record Statement := MkStatement {
  body : StmtBody;
  residue : option string;
  position : option string;
  obj_activity : option string;
  evidence : list Evidence;
  belief : Q;
  supports : list nat;
  supported_by : list nat }.

(** [s.__class__.__name__] *)
Definition class_name (s : Statement) : string :=
  match body s with
  | Complex _ => "Complex"
  | Conversion _ _ _ => "Conversion"
  | ActiveForm _ _ _ => "ActiveForm"
  | HasActivity _ _ _ => "HasActivity"
  | FixedRole cls _ => cls
  end.

(** Modelled from the spec: [s.agent_list()], the roles in declared
    order. *)
Definition body_agent_list (b : StmtBody) : list (option Agent) :=
  match b with
  | Complex members => members
  | Conversion subj obj_from obj_to => subj :: obj_from ++ obj_to
  | ActiveForm agent _ _ => [agent]
  | HasActivity agent _ _ => [agent]
  | FixedRole _ roles => roles
  end.

Definition agent_list (s : Statement) : list (option Agent) :=
  body_agent_list (body s).

(** Modelled from the spec: the roles written back after agents were
    updated in place; [ags] has the length of [body_agent_list b]. *)
Definition body_set_agent_list (b : StmtBody) (ags : list (option Agent))
  : StmtBody :=
  match b with
  | Complex _ => Complex ags
  | Conversion _ obj_from _ =>
      Conversion (default None (head ags))
                 (take (length obj_from) (tail ags))
                 (drop (length obj_from) (tail ags))
  | ActiveForm _ act f => ActiveForm (default None (head ags)) act f
  | HasActivity _ act f => HasActivity (default None (head ags)) act f
  | FixedRole cls _ => FixedRole cls ags
  end.

Definition set_agent_list (s : Statement) (ags : list (option Agent))
  : Statement :=
  MkStatement (body_set_agent_list (body s) ags) (residue s) (position s)
    (obj_activity s) (evidence s) (belief s) (supports s) (supported_by s).

(** Modelled from the spec: attribute reads that exist on some classes
    only. *)
Definition get_subj (s : Statement) : result (option Agent) :=
  match body s with
  | Conversion subj _ _ => Ok subj
  | _ => Raise AttributeError
  end.

Definition get_obj_from (s : Statement) : result (list (option Agent)) :=
  match body s with
  | Conversion _ obj_from _ => Ok obj_from
  | _ => Raise AttributeError
  end.

Definition get_obj_to (s : Statement) : result (list (option Agent)) :=
  match body s with
  | Conversion _ _ obj_to => Ok obj_to
  | _ => Raise AttributeError
  end.

Definition get_activity (s : Statement) : result string :=
  match body s with
  | ActiveForm _ act _ | HasActivity _ act _ => Ok act
  | _ => Raise AttributeError
  end.

Definition get_is_active (s : Statement) : result bool :=
  match body s with
  | ActiveForm _ _ f => Ok f
  | _ => Raise AttributeError
  end.

Definition get_has_activity (s : Statement) : result bool :=
  match body s with
  | HasActivity _ _ f => Ok f
  | _ => Raise AttributeError
  end.

(** Modelled from the spec: [stmt.sub] of a Modification and [stmt.obj] of
    a RegulateActivity, the second role. *)
Definition get_sub (s : Statement) : result (option Agent) :=
  match body s with
  | FixedRole _ (_ :: sub :: _) => Ok sub
  | _ => Raise AttributeError
  end.

Definition get_obj (s : Statement) : result (option Agent) :=
  match body s with
  | FixedRole _ (_ :: obj :: _) => Ok obj
  | _ => Raise AttributeError
  end.

(** Modelled from the spec: [Statement(...)] with the constructor's
    defaults, that is no evidence, belief 1, no links. *)
Definition new_stmt (b : StmtBody) : Statement :=
  MkStatement b None None None [] 1%Q [] [].

(** A statement with [n] pieces of evidence, for examples. *)
Definition stmt_ev (b : StmtBody) (n : nat) : Statement :=
  MkStatement b None None None (replicate n (MkEvidence "reach" ∅)) 1%Q [] [].

(** ** [indra/util/statement_presentation.py] *)

Module Presentation.

(** A grouping key [(verb, *inps)], kept as the verb and the rest. *)
Definition Key : Type := string * list val.

(** The sort key [(arg_count, inps, sub_count, verb)] of a group. *)
Definition SortKey : Type := Z * list val * Z * string.

(** One row of the result: [(new_key, verb, stmts)]. *)
Definition Group : Type := SortKey * string * list Statement.

Definition sk_arg_count (k : SortKey) : Z := k.1.1.1.
Definition sk_inps (k : SortKey) : list val := k.1.1.2.
Definition sk_sub_count (k : SortKey) : Z := k.1.2.
Definition sk_verb (k : SortKey) : string := k.2.

Definition group_key (g : Group) : SortKey := g.1.1.
Definition group_verb (g : Group) : string := g.1.2.
Definition group_stmts (g : Group) : list Statement := g.2.

(** The identity of a group: its verb and role tuple. *)
Definition group_id (g : Group) : Key := (group_verb g, sk_inps (group_key g)).

(** [<] on two sort keys: the first component that differs decides. *)
Definition sortkey_lt (a b : SortKey) : result bool :=
  if decide (sk_arg_count a ≠ sk_arg_count b)
  then Ok (sk_arg_count a <? sk_arg_count b)%Z
  else if decide (sk_inps a ≠ sk_inps b)
  then tuple_lt (sk_inps a) (sk_inps b)
  else if decide (sk_sub_count a ≠ sk_sub_count b)
  then Ok (sk_sub_count a <? sk_sub_count b)%Z
  else Ok (str_lt (sk_verb a) (sk_verb b)).

(** [<] on two floats that are exact rationals here. *)
Definition Qlt_bool (a b : Q) : bool := negb (Qle_bool b a).

(** The accumulators of [group_and_sort_statements]. *)
Record Acc := MkAcc {
  stmt_rows : list (Key * list Statement);
  stmt_counts : gmap Key Z;
  arg_counts : gmap (list val) Z }.

(** [d[k].append(s)] on a [defaultdict(list)]; a new key goes last. *)
Fixpoint rows_append (k : Key) (s : Statement)
    (rows : list (Key * list Statement)) : list (Key * list Statement) :=
  match rows with
  | [] => [(k, [s])]
  | (k', ss) :: rows' =>
      if decide (k' = k) then (k', ss ++ [s]) :: rows'
      else (k', ss) :: rows_append k s rows'
  end.

(** [d[k]] on a [defaultdict(list)]. *)
Fixpoint rows_get (rows : list (Key * list Statement)) (k : Key)
  : list Statement :=
  match rows with
  | [] => []
  | (k', ss) :: rows' => if decide (k' = k) then ss else rows_get rows' k
  end.

(** [d[k]] and [d[k] += c] on a [defaultdict(lambda: 0)]. *)
Definition counts_get `{Countable K} (m : gmap K Z) (k : K) : Z :=
  default 0%Z (m !! k).

Definition counts_add `{Countable K} (k : K) (c : Z) (m : gmap K Z)
  : gmap K Z :=
  <[k := (counts_get m k + c)%Z]> m.

Definition name (agent : option Agent) : string :=
  match agent with
  | None => "None"
  | Some a => a_name a
  end.

Section presentation.
(** The iteration order of the [set] built from the given names (in the
    order they were added); Python leaves it unspecified. *)
Context (set_iter : list string → list string).
(** [stmt.get_hash()], the shallow hash. *)
Context (get_hash : Statement → Z).
(** [ev_totals], when supplied. *)
Context (ev_totals : option (gmap Z Z)).

(** The keys of a Complex whose set of participant names iterates as
    [ag_ns]: the ordered pairs when there are 2 to 5 names, then the full
    key unless there are exactly 2 names. *)
Definition complex_keys (ag_ns : list string) (verb : string)
    (s : Statement) : list (Key * Statement) :=
  let pairs :=
    if bool_decide (1 < length ag_ns < 6)%nat
    then (λ pair, ((verb, [VStr pair.1; VStr pair.2]), s))
           <$> permutations2 ag_ns
    else [] in
  if decide (length ag_ns = 2%nat) then pairs
  else pairs ++ [((verb, VStr <$> sorted_strs ag_ns), s)].

(** The keys yielded for one statement of the loop of
    [_get_keyed_stmts]. *)
Definition keys_of_stmt (s : Statement) : result (list (Key * Statement)) :=
  let verb := class_name s in
  let ags := agent_list s in
  if decide (verb = "Complex") then
    Ok (complex_keys (set_iter (name <$> ags)) verb s)
  else if decide (verb = "Conversion") then
    subj_ag ← get_subj s;
    obj_from ← get_obj_from s;
    obj_to ← get_obj_to s;
    let subj := name subj_ag in
    let objs_from := set_iter (name <$> obj_from) in
    let objs_to := set_iter (name <$> obj_to) in
    Ok [((verb, [VStr subj; VTuple (sorted_strs objs_from);
                 VTuple (sorted_strs objs_to)]), s)]
  else if decide (verb = "ActiveForm") then
    match ags with
    | [] => Raise IndexError
    | ag0 :: _ =>
        act ← get_activity s;
        flag ← get_is_active s;
        Ok [((verb, [VStr (name ag0); VStr act; VBool flag]), s)]
    end
  else if decide (verb = "HasActivity") then
    match ags with
    | [] => Raise IndexError
    | ag0 :: _ =>
        act ← get_activity s;
        flag ← get_has_activity s;
        Ok [((verb, [VStr (name ag0); VStr act; VBool flag]), s)]
    end
  else Ok [((verb, (λ ag, VStr (name ag)) <$> ags), s)].

Definition _get_keyed_stmts (stmt_list : list Statement)
  : result (list (Key * Statement)) :=
  keyed ← forM keys_of_stmt stmt_list;
  Ok (concat keyed).

Definition _count (stmt : Statement) : Z :=
  let sh := get_hash stmt in
  match ev_totals with
  | None => Z.of_nat (length (evidence stmt))
  | Some totals =>
      match totals !! sh with
      | None => Z.of_nat (length (evidence stmt))
      | Some n => n
      end
  end.

(** The body of the accumulation loop.  A key whose verb is
    ['Conversion'] has the shape [(verb, subj, froms, tos)]; on any other
    shape [key[2] + key[3]] does not give names to iterate over. *)
Definition accumulate (acc : Acc) (ks : Key * Statement) : result Acc :=
  let '(key, s) := ks in
  let rows := rows_append key s (stmt_rows acc) in
  let counts := counts_add key (_count s) (stmt_counts acc) in
  if decide (key.1 = "Conversion") then
    match key.2 with
    | subj :: VTuple froms :: VTuple tos :: _ =>
        Ok (MkAcc rows counts
              (foldl (λ ac obj, counts_add [subj; VStr obj] (_count s) ac)
                     (arg_counts acc) (froms ++ tos)))
    | _ => Raise TypeError
    end
  else Ok (MkAcc rows counts (counts_add key.2 (_count s) (arg_counts acc))).

(** The total weight of a list of statements. *)
Definition sum_counts (ss : list Statement) : Z :=
  foldr (λ s n, (_count s + n)%Z) 0%Z ss.

(** The member sort key [_count(s) + 1/(1+len(s.agent_list()))]. *)
Definition member_key (s : Statement) : Q :=
  (inject_Z (_count s)
   + 1 / (1 + inject_Z (Z.of_nat (length (agent_list s)))))%Q.

Definition member_lt (a b : Statement) : result bool :=
  Ok (Qlt_bool (member_key a) (member_key b)).

(** [len(set(ag.name for ag in s.agent_list()))] *)
Definition distinct_names (s : Statement) : result nat :=
  names ← forM agent_name (agent_list s);
  Ok (length (remove_dups names)).

(** One iteration of [process_rows]: [None] is the [continue]. *)
Definition process_row (acc : Acc) (row : Key * list Statement)
  : result (option Group) :=
  let '((verb, inps), stmts) := row in
  let sub_count := counts_get (stmt_counts acc) (verb, inps) in
  let arg_count := counts_get (arg_counts acc) inps in
  skip ←
    (if bool_decide (verb = "Complex") && (sub_count =? arg_count)%Z
        && bool_decide (length inps ≤ 2)%nat
     then sizes ← forM distinct_names stmts;
          Ok (forallb (λ n, bool_decide (2 < n)%nat) sizes)
     else Ok false);
  if (skip : bool) then Ok None
  else
    let new_key : SortKey := (arg_count, inps, sub_count, verb) in
    stmts' ← sorted_desc member_lt stmts;
    Ok (Some (new_key, verb, stmts')).

Definition process_rows (acc : Acc) : result (list Group) :=
  rows ← forM (process_row acc) (stmt_rows acc);
  Ok (omap id (rows : list (option Group))).

Definition group_lt (g1 g2 : Group) : result bool :=
  sortkey_lt (group_key g1) (group_key g2).

Definition accumulate_all (stmt_list : list Statement) : result Acc :=
  keyed ← _get_keyed_stmts stmt_list;
  foldM accumulate (MkAcc [] ∅ ∅) keyed.

(** The size of the set of participant names of a statement, with the
    ['None'] sentinel for an absent role. *)
Definition name_set_size (s : Statement) : nat :=
  length (remove_dups (name <$> agent_list s)).

(** What the accumulation loop maintains: a row per key, and the group
    weight of a key is the total weight of its row. *)
Record acc_inv (acc : Acc) : Prop := MkAccInv {
  inv_nodup : NoDup (stmt_rows acc).*1;
  inv_counts k :
    counts_get (stmt_counts acc) k = sum_counts (rows_get (stmt_rows acc) k) }.

Definition group_and_sort_statements (stmt_list : list Statement)
  : result (list Group) :=
  acc ← accumulate_all stmt_list;
  groups ← process_rows acc;
  sorted_desc group_lt groups.
End presentation.

(** Characters of a string, as [for c in s] yields them. *)
Fixpoint chars (s : string) : list string :=
  match s with
  | EmptyString => []
  | String c s' => String c EmptyString :: chars s'
  end.

(** [for name in v] on a key item. *)
Definition iter_val (v : val) : result (list val) :=
  match v with
  | VTuple t => Ok (VStr <$> t)
  | VStr s => Ok (VStr <$> chars s)
  | VBool _ => Raise TypeError
  end.

(** [make_agent]: names are strings; an item of another type would become
    the name of the new [Agent], which the data model does not hold. *)
Definition make_agent (n : val) : result (option Agent) :=
  match n with
  | VStr n => if decide (n = "None") then Ok None else Ok (Some (Agent_ n))
  | _ => Raise TypeError
  end.

(** The role fillers that [make_agent] makes of a list of names. *)
Definition agents_of (names : list string) : list (option Agent) :=
  (λ n, if decide (n = "None") then None else Some (Agent_ n)) <$> names.

Definition index (inps : list val) (i : nat) : result val :=
  match inps !! i with
  | Some v => Ok v
  | None => Raise IndexError
  end.

(** [make_stmt_from_sort_key(key, verb)]; [get_statement_by_name] picks the
    class called [verb], here one of the four named shapes or a fixed-role
    class built from its roles in order. *)
Definition make_stmt_from_sort_key (key : SortKey) (verb : string)
  : result Statement :=
  let inps := sk_inps key in
  if decide (verb = "Complex") then
    ags ← forM make_agent inps;
    Ok (new_stmt (Complex ags))
  else if decide (verb = "Conversion") then
    i0 ← index inps 0;
    subj ← make_agent i0;
    i1 ← index inps 1;
    names_from ← iter_val i1;
    obj_from ← forM make_agent names_from;
    i2 ← index inps 2;
    names_to ← iter_val i2;
    obj_to ← forM make_agent names_to;
    Ok (new_stmt (Conversion subj obj_from obj_to))
  else if decide (verb = "ActiveForm" ∨ verb = "HasActivity") then
    i0 ← index inps 0;
    ag ← make_agent i0;
    i1 ← index inps 1;
    i2 ← index inps 2;
    match i1, i2 with
    | VStr act, VBool flag =>
        if decide (verb = "ActiveForm")
        then Ok (new_stmt (ActiveForm ag act flag))
        else Ok (new_stmt (HasActivity ag act flag))
    | _, _ => Raise TypeError
    end
  else
    ags ← forM make_agent inps;
    Ok (new_stmt (FixedRole verb ags)).

End Presentation.
Import Presentation.

(** ** [indra/tools/assemble_corpus.py]

    The filters that mutate statements take and return a store of
    statements, with the lists [stmts_in] and [stmts_out] holding addresses;
    the others work on the statements themselves.  An agent belongs to the
    one role that holds it.  Log records are kept for the policy-taking
    filters, as the level of each record; writing the result to a pickle file
    ([save]) is left out. *)

Module AssembleCorpus.

(** The statements in memory, by address. *)
Abbreviation Store := (nat → Statement).

Inductive log_level := INFO | WARNING | ERROR.

(** A value together with the records logged on the way. *)
Definition Logged (A : Type) : Type := list log_level * A.

(** *** Grounding *)

(** Truth value of a [db_refs] entry. *)
Definition db_truthy (v : DbVal) : bool :=
  match v with
  | DbNone => false
  | DbStr s => negb (bool_decide (s = ""))
  | DbList l => negb (bool_decide (l = []))
  end.

(** [sorted(val, key=lambda x: x[1], reverse=True)[0][1]] on a non-empty
    list: the highest score. *)
Definition high_score (first : string * Q) (rest : list (string * Q)) : Q :=
  foldl (λ m x, if Qlt_bool m x.2 then x.2 else m) first.2 rest.

(** [if score_threshold:] *)
Definition threshold_set (score_threshold : option Q) : option Q :=
  match score_threshold with
  | Some t => if Qeq_bool t 0 then None else Some t
  | None => None
  end.

Definition _agent_is_grounded (agent : Agent) (score_threshold : option Q)
  : bool :=
  let db_names := (map_to_list (delete "TEXT" (a_db_refs agent))).*1 in
  let vals := (map_to_list (delete "TEXT" (a_db_refs agent))).*2 in
  let grounded := true in
  let grounded := if bool_decide (db_names = []) then false else grounded in
  let grounded := if negb (existsb db_truthy vals) then false else grounded in
  match threshold_set score_threshold with
  | Some t =>
      let any_passing :=
        existsb (λ val, match val with
                        | DbList (first :: rest) =>
                            Qlt_bool t (high_score first rest)
                        | _ => false
                        end) vals in
      if negb any_passing then false else grounded
  | None => grounded
  end.

Definition _remove_bound_conditions (agent : Agent)
    (keep_criterion : Agent → bool) : result Agent :=
  bcs ← get_bound_conditions agent;
  let new_bc :=
    filter (λ bc, keep_criterion (bc_agent bc)) (bcs : list BoundCondition) in
  Ok (set_bound_conditions agent new_bc).

Definition _any_bound_condition_fails_criterion (agent : Agent)
    (criterion : Agent → bool) : result bool :=
  bcs ← get_bound_conditions agent;
  let bc_agents := bc_agent <$> (bcs : list BoundCondition) in
  Ok (existsb (λ b, negb (criterion b)) bc_agents).

(** An agent, and a statement, once its bound conditions are pruned to
    the partners that meet the criterion. *)
Definition pruned_agent (keep_criterion : Agent → bool) (a : Agent) : Agent :=
  set_bound_conditions a
    (filter (λ bc, keep_criterion (bc_agent bc)) (a_bound_conditions a)).

Definition pruned_stmt (keep_criterion : Agent → bool) (s : Statement)
  : Statement :=
  set_agent_list s
    ((λ ag : option Agent, pruned_agent keep_criterion <$> ag)
       <$> agent_list s).

(** The same for a role filler: a plain [Concept] has no bound
    conditions to prune. *)
Definition pruned_role (criterion : Agent → bool) (ag : option Agent)
  : option Agent :=
  (λ a, if is_Agent a then pruned_agent criterion a else a) <$> ag.

(** A role filler as it was, or pruned. *)
Definition maybe_pruned (criterion : Agent → bool) (ag' ag : option Agent)
  : Prop :=
  ag' = ag ∨ ag' = pruned_role criterion ag.

(** Every present role filler meets the criterion itself. *)
Definition role_ok (criterion : Agent → bool) (ag : option Agent) : bool :=
  match ag with
  | Some a => criterion a
  | None => true
  end.

Definition top_level_ok (criterion : Agent → bool)
    (ags : list (option Agent)) : bool :=
  forallb (role_ok criterion) ags.

(** The loop over [st.agent_list()] in [filter_grounded_only]: whether the
    statement is grounded, and the agents as the loop leaves them. *)
Fixpoint grounded_agents (criterion : Agent → bool) (remove_bound : bool)
    (ags : list (option Agent)) : result (bool * list (option Agent)) :=
  match ags with
  | [] => Ok (true, [])
  | None :: ags' =>
      '(grounded, rest) ← grounded_agents criterion remove_bound ags';
      Ok (grounded, None :: rest)
  | Some agent :: ags' =>
      if negb (criterion agent) then Ok (false, Some agent :: ags')
      else if negb (is_Agent agent) then
        '(grounded, rest) ← grounded_agents criterion remove_bound ags';
        Ok (grounded, Some agent :: rest)
      else if remove_bound then
        agent' ← _remove_bound_conditions agent criterion;
        '(grounded, rest) ← grounded_agents criterion remove_bound ags';
        Ok (grounded, Some agent' :: rest)
      else
        fails ← _any_bound_condition_fails_criterion agent criterion;
        if (fails : bool) then Ok (false, Some agent :: ags')
        else
          '(grounded, rest) ← grounded_agents criterion remove_bound ags';
          Ok (grounded, Some agent :: rest)
  end.

(** The body of the loop over [stmts_in]. *)
Definition grounded_step (score_threshold : option Q) (remove_bound : bool)
    (acc : Store * list nat) (st : nat) : result (Store * list nat) :=
  let σ : Store := acc.1 in
  let stmts_out := acc.2 in
  let criterion := λ x, _agent_is_grounded x score_threshold in
  '(grounded, ags) ← grounded_agents criterion remove_bound
                        (agent_list (σ st));
  let σ' : Store := <[st := set_agent_list (σ st) ags]> σ in
  Ok (σ', if (grounded : bool) then stmts_out ++ [st] else stmts_out).

Definition filter_grounded_only (σ : Store) (stmts_in : list nat)
    (score_threshold : option Q) (remove_bound : bool)
  : result (Store * list nat) :=
  foldM (grounded_step score_threshold remove_bound) (σ, []) stmts_in.

Section grounded_inv.
Context (score_threshold : option Q) (σ0 : Store).

(** What the loop over [stmts_in] maintains, against the store [σ0]
    it started from. *)
Record grounded_inv (acc : Store * list nat) : Prop := {
  gi_frame i : acc.1 i = set_agent_list (σ0 i) (agent_list (acc.1 i));
  gi_agents i :
    Forall2 (maybe_pruned (λ x, _agent_is_grounded x score_threshold))
            (agent_list (acc.1 i)) (agent_list (σ0 i));
  gi_kept i : i ∈ acc.2 →
    agent_list (acc.1 i)
    = pruned_role (λ x, _agent_is_grounded x score_threshold)
        <$> agent_list (σ0 i) }.
End grounded_inv.

(** *** Belief *)

Definition set_links (s : Statement) (supp supp_by : list nat) : Statement :=
  MkStatement (body s) (residue s) (position s) (obj_activity s) (evidence s)
    (belief s) supp supp_by.

(** [stmt.belief >= belief_cutoff] *)
Definition believed (belief_cutoff : Q) (σ : Store) (st : nat) : bool :=
  Qle_bool belief_cutoff (belief (σ st)).

(** The body of the loop over [stmts_in]. *)
Definition belief_step (belief_cutoff : Q) (acc : Store * list nat)
    (stmt : nat) : Store * list nat :=
  let σ : Store := acc.1 in
  let stmts_out := acc.2 in
  if Qlt_bool (belief (σ stmt)) belief_cutoff then (σ, stmts_out)
  else
    let supp := filter (believed belief_cutoff σ) (supports (σ stmt)) in
    let supp_by := filter (believed belief_cutoff σ) (supported_by (σ stmt)) in
    (<[stmt := set_links (σ stmt) supp supp_by]> σ, stmts_out ++ [stmt]).

Definition filter_belief (σ : Store) (stmts_in : list nat) (belief_cutoff : Q)
  : Store * list nat :=
  foldl (belief_step belief_cutoff) (σ, []) stmts_in.

Section belief_inv.
Context (σ0 : Store) (belief_cutoff : Q).

(** What the loop of [filter_belief] maintains, against the store [σ0]
    it started from. *)
Record belief_inv (acc : Store * list nat) : Prop := {
  bi_frame i : set_links (acc.1 i) [] [] = set_links (σ0 i) [] [];
  bi_dropped i : i ∉ acc.2 → acc.1 i = σ0 i;
  bi_kept i : i ∈ acc.2 →
    supports (acc.1 i)
    = filter (believed belief_cutoff σ0) (supports (σ0 i)) ∧
    supported_by (acc.1 i)
    = filter (believed belief_cutoff σ0) (supported_by (σ0 i)) }.
End belief_inv.

(** *** Names *)

(** [(found and not invert) or (not found and invert)] *)
Definition keep_if (found invert : bool) : bool :=
  (found && negb invert) || (negb found && invert).

(** Modelled from the spec: [agent_list_with_bound_condition_agents] is a
    method of [Statement]; it returns the role fillers followed by the
    bound partners of each present one (spec 4.5, "optionally including
    nested bound partners"). *)
Definition bound_agents (ag : option Agent) : result (list (option Agent)) :=
  match ag with
  | None => Ok []
  | Some a =>
      bcs ← get_bound_conditions a;
      Ok ((λ bc, Some (bc_agent bc)) <$> (bcs : list BoundCondition))
  end.

Definition agent_list_with_bound_condition_agents (s : Statement)
  : result (list (option Agent)) :=
  bc_agents ← forM bound_agents (agent_list s);
  Ok (agent_list s ++ concat (bc_agents : list (list (option Agent)))).

(** Some present agent has its name in the list. *)
Definition some_name_in (names : list string) (ags : list (option Agent))
  : bool :=
  existsb (λ ag, match ag with
                 | Some a => bool_decide (a_name a ∈ names)
                 | None => false
                 end) ags.

(** No present agent has its name outside the list. *)
Definition all_names_in (names : list string) (ags : list (option Agent))
  : bool :=
  forallb (λ ag, match ag with
                 | Some a => bool_decide (a_name a ∈ names)
                 | None => true
                 end) ags.

Section gene_list.
(** Modelled from the spec: the FamPlex identifiers of the families that
    hold a gene, which the code looks up through [hgnc_client] and
    [hierarchies]; the warning logged for a gene without an identifier is
    left out of the log. *)
Context (family_ids : string → list string).

(** [_remove_bound_conditions] on every agent of a statement; an absent
    role has no [bound_conditions]. *)
Definition prune_agent (keep_criterion : Agent → bool) (ag : option Agent)
  : result (option Agent) :=
  match ag with
  | None => Raise AttributeError
  | Some a => a' ← _remove_bound_conditions a keep_criterion; Ok (Some a')
  end.

Definition prune_bound (keep_criterion : Agent → bool) (s : Statement)
  : result Statement :=
  ags ← forM (prune_agent keep_criterion) (agent_list s);
  Ok (set_agent_list s ags).

(** The first loop over [stmts_in], run when [remove_bound] is set. *)
Definition prune_all (keep_criterion : Agent → bool) (σ : Store)
    (stmts_in : list nat) : result Store :=
  foldM (λ (σ : Store) st,
           s' ← prune_bound keep_criterion (σ st);
           Ok (<[st := s']> σ)) σ stmts_in.

(** The loop of one policy: [test] is the inner loop over the agents. *)
Definition select (σ : Store) (remove_bound invert : bool)
    (test : list (option Agent) → bool) (stmts_in : list nat)
  : result (list nat) :=
  filterM (λ st,
             agent_list ←
               (if negb remove_bound
                then agent_list_with_bound_condition_agents (σ st)
                else Ok (agent_list (σ st)));
             Ok (keep_if (test agent_list) invert))
          stmts_in.

(** [filter_list]: the genes, and with [allow_families] the families
    that hold them. *)
Definition gene_filter_list (gene_list : list string)
    (allow_families : bool) : list string :=
  gene_list ++ (if allow_families then gene_list ≫= family_ids else []).

(** [keep_criterion] *)
Definition name_criterion (filter_list : list string) (invert : bool)
    (a : Agent) : bool :=
  if invert then negb (bool_decide (a_name a ∈ filter_list))
  else bool_decide (a_name a ∈ filter_list).

Definition filter_gene_list (σ : Store) (stmts_in : list nat)
    (gene_list : list string) (policy : string)
    (allow_families remove_bound invert : bool)
  : Logged (result (Store * list nat)) :=
  let log := if bool_decide (policy ∉ ["one"; "all"]) then [ERROR]
             else [INFO] in
  let filter_list := gene_filter_list gene_list allow_families in
  let keep_criterion := name_criterion filter_list invert in
  let selected : result (Store * list nat) :=
    σ ← (if remove_bound then prune_all keep_criterion σ stmts_in
         else Ok σ);
    if decide (policy = "one") then
      stmts_out ← select σ remove_bound invert (some_name_in filter_list)
                    stmts_in;
      Ok (σ, stmts_out)
    else if decide (policy = "all") then
      stmts_out ← select σ remove_bound invert (all_names_in filter_list)
                    stmts_in;
      Ok (σ, stmts_out)
    else Ok (σ, stmts_in) in
  (log ++ match selected with Ok _ => [INFO] | Raise _ => [] end, selected).
End gene_list.

Definition filter_concept_names (stmts_in : list Statement)
    (name_list : list string) (policy : string) (invert : bool)
  : Logged (list Statement) :=
  let log := if bool_decide (policy ∉ ["one"; "all"]) then [ERROR]
             else [INFO] in
  let stmts_out :=
    if decide (policy = "one") then
      filter (λ st, keep_if (some_name_in name_list (agent_list st)) invert)
             stmts_in
    else if decide (policy = "all") then
      filter (λ st, keep_if (all_names_in name_list (agent_list st)) invert)
             stmts_in
    else stmts_in in
  (log ++ [INFO], stmts_out).

(** *** [db_refs] *)

(** [entry.endswith(e)] *)
Definition endswith (entry e : string) : bool :=
  String.prefix (String.rev e) (String.rev entry).

(** [meets_criterion] of [filter_by_db_refs]. *)
Definition meets_criterion (namespace : string) (values : list string)
    (invert match_suffix : bool) (agent : Agent) : result bool :=
  match a_db_refs agent !! namespace with
  | None => Ok false
  | Some entry =>
      entry ← match entry with
              | DbList [] => Raise IndexError
              | DbList (first :: _) => Ok (Some first.1)
              | DbStr s => Ok (Some s)
              | DbNone => Ok None
              end;
      ret ← (if match_suffix then
               match entry with
               | Some entry => Ok (existsb (endswith entry) values)
               | None => match values with
                         | [] => Ok false
                         | _ :: _ => Raise AttributeError
                         end
               end
             else
               match entry with
               | Some entry => Ok (bool_decide (entry ∈ values))
               | None => Ok false
               end);
      Ok (if invert then negb ret else ret)
  end.

(** The result is [None] where the function returns no value. *)
Definition filter_by_db_refs (stmts_in : list Statement) (namespace : string)
    (values : list string) (policy : string) (invert match_suffix : bool)
  : Logged (result (option (list Statement))) :=
  if bool_decide (policy ∉ ["one"; "all"]) then ([ERROR], Ok None)
  else
    let enough : list bool → bool :=
      if decide (policy = "all") then forallb id else existsb id in
    let stmts_out :=
      filterM (λ s,
                 flags ← forM (meets_criterion namespace values invert
                                 match_suffix)
                              (omap id (agent_list s));
                 Ok (enough flags))
              stmts_in in
    match stmts_out with
    | Ok out => ([INFO; INFO], Ok (Some out))
    | Raise e => ([INFO], Raise e)
    end.

(** *** Epistemics *)

(** [ev.epistemics.get(flag, False)] *)
Definition epistemic (ev : Evidence) (flag : string) : bool :=
  default false (epistemics ev !! flag).

(** The loop over the evidence with its [break]: the value of the
    all-flagged variable and the last [ev] the loop bound, starting from
    [ev]. *)
Fixpoint scan_evidence (flag : string) (evs : list Evidence)
    (ev : option Evidence) : bool * option Evidence :=
  match evs with
  | [] => (true, ev)
  | e :: evs' =>
      if negb (epistemic e flag) then (false, Some e)
      else scan_evidence flag evs' (Some e)
  end.

Definition all_flagged (flag : string) (st : Statement) : bool :=
  let '(all, ev) := scan_evidence flag (evidence st) None in
  match ev with
  | None => false
  | Some _ => all
  end.

Definition filter_no_hypothesis (stmts_in : list Statement)
  : list Statement :=
  filter (λ st, negb (all_flagged "hypothesis" st)) stmts_in.

Definition filter_no_negated (stmts_in : list Statement) : list Statement :=
  filter (λ st, negb (all_flagged "negated" st)) stmts_in.

Definition filter_top_level (stmts_in : list Statement) : list Statement :=
  filter (λ st, bool_decide (supports st = [])) stmts_in.

(** *** Inconsequential modifications and activities *)

(** A modification [(mod_type, residue, position)]. *)
Definition Mod : Type := string * option string * option string.

(** [d[k]] *)
Definition getitem (d : gmap string string) (k : string) : result string :=
  match d !! k with
  | Some v => Ok v
  | None => Raise KeyError
  end.

(** [try: d[k].append(x) except KeyError: d[k] = [x]] *)
Definition append_at {V : Type} (d : gmap string (list V)) (k : string)
    (x : V) : gmap string (list V) :=
  match d !! k with
  | Some l => <[k := l ++ [x]]> d
  | None => <[k := [x]]> d
  end.

Section inconsequential.
(** The class tables of [indra.statements], by class name:
    [isinstance(stmt, Modification)] and the like, [modclass_to_modtype]
    and [modtype_to_inverse]. *)
Context (isinstance_Modification : string → bool).
Context (isinstance_RemoveModification : string → bool).
Context (isinstance_RegulateActivity : string → bool).
Context (modclass_to_modtype : gmap string string).
Context (modtype_to_inverse : gmap string string).

(** No agent of the statement carries a modification condition. *)
Definition no_mods (s : Statement) : Prop :=
  ∀ a, Some a ∈ agent_list s → a_mods a = [].

(** No agent of the statement carries an activity condition. *)
Definition no_acts (s : Statement) : Prop :=
  ∀ a, Some a ∈ agent_list s → a_activity a = None.

(** The body of the indexing loop for one agent. *)
Definition add_mods (states_used : gmap string (list Mod))
    (agent : option Agent) : result (gmap string (list Mod)) :=
  match agent with
  | None => Ok states_used
  | Some a =>
      mods ← get_mods a;
      Ok (foldl (λ su mc,
                   append_at su (a_name a)
                     (mod_type mc, mc_residue mc, mc_position mc))
                states_used (mods : list ModCondition))
  end.

(** The index of the modifications seen on agents, on top of the
    whitelist; [list(set(v))] keeps one copy of each, in an order that
    only membership tests see. *)
Definition mods_used (whitelist : gmap string (list Mod))
    (stmts_in : list Statement) : result (gmap string (list Mod)) :=
  states_used ← foldM (λ su stmt, foldM add_mods su (agent_list stmt))
                      whitelist stmts_in;
  Ok (remove_dups <$> (states_used : gmap string (list Mod))).

(** The test of the second loop: [not skip]. *)
Definition mod_is_used (states_used : gmap string (list Mod))
    (stmt : Statement) : result bool :=
  if isinstance_Modification (class_name stmt) then
    mod_type ← getitem modclass_to_modtype (class_name stmt);
    mod_type ← (if isinstance_RemoveModification (class_name stmt)
                then getitem modtype_to_inverse mod_type
                else Ok mod_type);
    let mod' : Mod := (mod_type, residue stmt, position stmt) in
    sub ← get_sub stmt;
    sub_name ← agent_name sub;
    let used := default [] (states_used !! sub_name) in
    Ok (bool_decide (mod' ∈ used))
  else Ok true.

(** The result, and [states_used], which is the caller's whitelist
    object when one was passed. *)
Definition filter_inconsequential_mods (stmts_in : list Statement)
    (whitelist : option (gmap string (list Mod)))
  : result (list Statement * gmap string (list Mod)) :=
  let whitelist := default ∅ whitelist in
  states_used ← mods_used whitelist stmts_in;
  stmts_out ← filterM (mod_is_used states_used) stmts_in;
  Ok (stmts_out, states_used).

Definition add_acts (states_used : gmap string (list string))
    (agent : option Agent) : result (gmap string (list string)) :=
  match agent with
  | None => Ok states_used
  | Some a =>
      activity ← get_agent_activity a;
      match activity with
      | Some ac => Ok (append_at states_used (a_name a) (activity_type ac))
      | None => Ok states_used
      end
  end.

Definition acts_used (whitelist : gmap string (list string))
    (stmts_in : list Statement) : result (gmap string (list string)) :=
  states_used ← foldM (λ su stmt, foldM add_acts su (agent_list stmt))
                      whitelist stmts_in;
  Ok (remove_dups <$> (states_used : gmap string (list string))).

Definition act_is_used (states_used : gmap string (list string))
    (stmt : Statement) : result bool :=
  if isinstance_RegulateActivity (class_name stmt) then
    obj ← get_obj stmt;
    obj_name ← agent_name obj;
    let used := default [] (states_used !! obj_name) in
    Ok (match obj_activity stmt with
        | Some act => bool_decide (act ∈ used)
        | None => false
        end)
  else Ok true.

Definition filter_inconsequential_acts (stmts_in : list Statement)
    (whitelist : option (gmap string (list string)))
  : result (list Statement * gmap string (list string)) :=
  let whitelist := default ∅ whitelist in
  states_used ← acts_used whitelist stmts_in;
  stmts_out ← filterM (act_is_used states_used) stmts_in;
  Ok (stmts_out, states_used).
End inconsequential.

End AssembleCorpus.
Import AssembleCorpus.

(** ** [indra/util/statement_presentation.py], the simplified statements *)

Module PresentationMore.

(** The agents that [make_agent] makes of the characters of a name. *)
Definition spell (n : string) : list (option Agent) :=
  (λ c, Some (Agent_ c)) <$> chars n.

(** The body of the loop of [get_simplified_stmts]: the key passed on is
    the grouping key [(verb, *inps)], so that the [key[1]] that
    [make_stmt_from_sort_key] makes a list of is the first item of
    [inps].  It reads nothing else of the key, whose other components are
    filled with what the grouping key holds or with 0. *)
Definition simplified (ks : Key * Statement) : result Statement :=
  key1 ← index ks.1.2 0;
  inps ← iter_val key1;
  make_stmt_from_sort_key (0%Z, inps, 0%Z, ks.1.1) (class_name ks.2).

Definition get_simplified_stmts (set_iter : list string → list string)
    (stmts : list Statement) : result (list Statement) :=
  keyed ← _get_keyed_stmts set_iter stmts;
  forM simplified keyed.

End PresentationMore.
Import PresentationMore.

(** ** [indra/tools/assemble_corpus.py], the other transformations

    The same conventions as above.  [deepcopy] gives a statement of the
    same value; the filters that leave the statements alone work on the
    statements themselves. *)

Module AssembleCorpusMore.

(** *** Evidence *)

(** [set([ev.source_api for ev in st.evidence])] *)
Definition evidence_sources (st : Statement) : gset string :=
  list_to_set (source_api <$> evidence st).

(** The body of the loop of [filter_evidence_source]: three tests in a
    row, each of which may append the statement. *)
Definition evidence_source_step (source_apis : list string)
    (policy : string) (stmts_out : list Statement) (st : Statement)
  : list Statement :=
  let sources := evidence_sources st in
  let common : gset string := sources ∩ list_to_set source_apis in
  let stmts_out :=
    if decide (policy = "one") then
      if decide (common ≠ ∅) then stmts_out ++ [st] else stmts_out
    else stmts_out in
  let stmts_out :=
    if decide (policy = "all") then
      if decide (common = list_to_set source_apis) then stmts_out ++ [st]
      else stmts_out
    else stmts_out in
  let stmts_out :=
    if decide (policy = "none") then
      if decide (common = ∅) then stmts_out ++ [st] else stmts_out
    else stmts_out in
  stmts_out.

Definition filter_evidence_source (stmts_in : list Statement)
    (source_apis : list string) (policy : string) : list Statement :=
  foldl (evidence_source_step source_apis policy) [] stmts_in.

(** The loop of [get_is_direct], from the value that [any_indirect] has
    so far. *)
Fixpoint get_is_direct_from (any_indirect : bool) (evs : list Evidence)
  : bool :=
  match evs with
  | [] => if any_indirect then false else true
  | ev :: evs' =>
      match epistemics ev !! "direct" with
      | Some true => true
      | Some false => get_is_direct_from true evs'
      | None => get_is_direct_from any_indirect evs'
      end
  end.

Definition get_is_direct (stmt : Statement) : bool :=
  get_is_direct_from false (evidence stmt).

Definition filter_direct (stmts_in : list Statement) : list Statement :=
  filter (λ st, get_is_direct st) stmts_in.

(** *** Grounding, without pruning *)

(** A role filler passes [filter_grounded_only] without [remove_bound]:
    it meets the criterion and, when it is an [Agent], so do its bound
    partners. *)
Definition role_grounded (criterion : Agent → bool) (ag : option Agent)
  : bool :=
  match ag with
  | None => true
  | Some a =>
      criterion a
      && (negb (is_Agent a)
          || forallb (λ bc, criterion (bc_agent bc)) (a_bound_conditions a))
  end.

(** *** [db_refs] *)

(** The entries on which [meets_criterion] fails: an empty list of
    candidates, whose first item is read; and [None], whose suffix is
    tested when there are values to test it against. *)
Definition bad_entry (namespace : string) (values : list string)
    (match_suffix : bool) (a : Agent) : Prop :=
  a_db_refs a !! namespace = Some (DbList []) ∨
  (match_suffix = true ∧ values ≠ [] ∧
   a_db_refs a !! namespace = Some DbNone).

(** *** Genes *)

(** [agent.db_refs.get(ns)], as a truth value. *)
Definition db_get (agent : Agent) (ns : string) : bool :=
  match a_db_refs agent !! ns with
  | Some v => db_truthy v
  | None => false
  end.

Definition _agent_is_gene (agent : Agent) (specific_only : bool) : bool :=
  if negb specific_only then
    if negb (db_get agent "HGNC" || db_get agent "UP" || db_get agent "FPLX")
    then false else true
  else
    if negb (db_get agent "HGNC" || db_get agent "UP")
    then false else true.

(** The loop over [st.agent_list()] of [filter_genes_only] and of
    [filter_human_only], which is the same in both: whether the statement
    passes, and the agents as the loop leaves them. *)
Fixpoint criterion_agents (criterion : Agent → bool) (remove_bound : bool)
    (ags : list (option Agent)) : result (bool * list (option Agent)) :=
  match ags with
  | [] => Ok (true, [])
  | None :: ags' =>
      '(passes, rest) ← criterion_agents criterion remove_bound ags';
      Ok (passes, None :: rest)
  | Some agent :: ags' =>
      if negb (criterion agent) then Ok (false, Some agent :: ags')
      else if remove_bound then
        agent' ← _remove_bound_conditions agent criterion;
        '(passes, rest) ← criterion_agents criterion remove_bound ags';
        Ok (passes, Some agent' :: rest)
      else
        fails ← _any_bound_condition_fails_criterion agent criterion;
        if (fails : bool) then Ok (false, Some agent :: ags')
        else
          '(passes, rest) ← criterion_agents criterion remove_bound ags';
          Ok (passes, Some agent :: rest)
  end.

(** The body of the loop over [stmts_in] in both. *)
Definition criterion_step (criterion : Agent → bool) (remove_bound : bool)
    (acc : Store * list nat) (st : nat) : result (Store * list nat) :=
  let σ : Store := acc.1 in
  let stmts_out := acc.2 in
  '(passes, ags) ← criterion_agents criterion remove_bound
                      (agent_list (σ st));
  let σ' : Store := <[st := set_agent_list (σ st) ags]> σ in
  Ok (σ', if (passes : bool) then stmts_out ++ [st] else stmts_out).

Definition filter_genes_only (σ : Store) (stmts_in : list nat)
    (specific_only remove_bound : bool) : result (Store * list nat) :=
  foldM (criterion_step (λ a, _agent_is_gene a specific_only) remove_bound)
        (σ, []) stmts_in.

Section human_only.
(** Modelled from the spec: [uniprot_client.is_human], on the value
    held for the [UP] namespace. *)
Context (is_human : DbVal → bool).

(** [criterion] of [filter_human_only]. *)
Definition human_criterion (agent : Agent) : bool :=
  match a_db_refs agent !! "UP" with
  | Some upid => if db_truthy upid && negb (is_human upid) then false else true
  | None => true
  end.

Definition filter_human_only (σ : Store) (stmts_in : list nat)
    (remove_bound : bool) : result (Store * list nat) :=
  foldM (criterion_step human_criterion remove_bound) (σ, []) stmts_in.
End human_only.

(** A role filler passes [criterion_agents] without [remove_bound]. *)
Definition role_passes (criterion : Agent → bool) (ag : option Agent)
  : bool :=
  match ag with
  | None => true
  | Some a =>
      criterion a
      && forallb (λ bc, criterion (bc_agent bc)) (a_bound_conditions a)
  end.

(** *** Mutation status *)

(** A mutation [(residue_from, position, residue_to)]. *)
Definition Mutation : Type := option string * option string * option string.

Section mutation_status.
(** Modelled from the spec: [agent.mutations], as the tuples that
    [criterion] makes of them; the record of a role filler does not hold
    them, and they do not depend on its bound conditions. *)
Context (agent_mutations : Agent → list Mutation).
Context (mutations : gmap string (list Mutation)) (deletions : list string).

(** [criterion] of [filter_mutation_status]; a plain [Concept] has no
    [mutations]. *)
Definition mutation_criterion (agent : option Agent) : result bool :=
  match agent with
  | None => Ok true
  | Some a =>
      if bool_decide (a_name a ∈ deletions) then Ok false
      else if negb (is_Agent a) then Raise AttributeError
      else
        let muts := default [] (mutations !! a_name a) in
        Ok (forallb (λ mut_tup, bool_decide (mut_tup ∈ muts))
                    (agent_mutations a))
  end.

(** [_remove_bound_conditions(agent, criterion)] on a role that may be
    absent, with a criterion that may raise. *)
Definition remove_bound_conditions_of (agent : option Agent)
    (keep_criterion : option Agent → result bool) : result (option Agent) :=
  match agent with
  | None => Raise AttributeError
  | Some a =>
      bcs ← get_bound_conditions a;
      new_bc ← filterM (λ bc, keep_criterion (Some (bc_agent bc)))
                       (bcs : list BoundCondition);
      Ok (Some (set_bound_conditions a new_bc))
  end.

(** The loop of [_any_bound_condition_fails_criterion], which returns at
    the first partner that fails. *)
Fixpoint any_fails (criterion : option Agent → result bool)
    (bc_agents : list Agent) : result bool :=
  match bc_agents with
  | [] => Ok false
  | b :: bc_agents' =>
      meets ← criterion (Some b);
      if (meets : bool) then any_fails criterion bc_agents' else Ok true
  end.

(** [_any_bound_condition_fails_criterion(agent, criterion)], likewise. *)
Definition any_bound_condition_fails_of (agent : option Agent)
    (criterion : option Agent → result bool) : result bool :=
  match agent with
  | None => Raise AttributeError
  | Some a =>
      bcs ← get_bound_conditions a;
      any_fails criterion (bc_agent <$> (bcs : list BoundCondition))
  end.

(** The loop over [stmt.agent_list()]: the value of [skip], and the
    agents as the loop leaves them. *)
Fixpoint mutation_agents (remove_bound : bool) (ags : list (option Agent))
  : result (bool * list (option Agent)) :=
  match ags with
  | [] => Ok (false, [])
  | agent :: ags' =>
      meets ← mutation_criterion agent;
      if negb meets then Ok (true, agent :: ags')
      else if remove_bound then
        agent' ← remove_bound_conditions_of agent mutation_criterion;
        '(skip, rest) ← mutation_agents remove_bound ags';
        Ok (skip, agent' :: rest)
      else
        fails ← any_bound_condition_fails_of agent mutation_criterion;
        if (fails : bool) then Ok (true, agent :: ags')
        else
          '(skip, rest) ← mutation_agents remove_bound ags';
          Ok (skip, agent :: rest)
  end.

(** The body of the loop over [stmts_in]. *)
Definition mutation_step (remove_bound : bool) (acc : Store * list nat)
    (stmt : nat) : result (Store * list nat) :=
  let σ : Store := acc.1 in
  let stmts_out := acc.2 in
  '(skip, ags) ← mutation_agents remove_bound (agent_list (σ stmt));
  let σ' : Store := <[stmt := set_agent_list (σ stmt) ags]> σ in
  Ok (σ', if (skip : bool) then stmts_out else stmts_out ++ [stmt]).

Definition filter_mutation_status (σ : Store) (stmts_in : list nat)
    (remove_bound : bool) : result (Store * list nat) :=
  foldM (mutation_step remove_bound) (σ, []) stmts_in.
End mutation_status.

(** *** Modifications that are produced, and that are carried *)

(** The modification condition [mc] as the tuple the loops compare. *)
Definition mod_of_condition (mc : ModCondition) : Mod :=
  (mod_type mc, mc_residue mc, mc_position mc).

(** Some agent called [n] in some statement of the list carries the
    modification [m] as a condition. *)
Definition carried (stmts : list Statement) (n : string) (m : Mod) : Prop :=
  ∃ st a mc, st ∈ stmts ∧ Some a ∈ agent_list st ∧ a_name a = n ∧
             mc ∈ a_mods a ∧ m = mod_of_condition mc.

(** What an index of lists, and of sets, holds for a name. *)
Definition listed {V : Type} (d : gmap string (list V)) (n : string) (m : V)
  : Prop :=
  m ∈ default [] (d !! n).

Definition held (d : gmap string (gset Mod)) (n : string) (m : Mod) : Prop :=
  m ∈ default ∅ (d !! n).

(** [d[k] = set([x])] when [k] is not in [d], [d[k].add(x)] when it
    is. *)
Definition add_at (d : gmap string (gset Mod)) (k : string) (x : Mod)
  : gmap string (gset Mod) :=
  match d !! k with
  | None => <[k := {[x]}]> d
  | Some s => <[k := s ∪ {[x]}]> d
  end.

Section unreachable.
(** The class tables of [indra.statements], as for the filters of
    inconsequential modifications. *)
Context (isinstance_Modification : string → bool).
Context (isinstance_RemoveModification : string → bool).
Context (modclass_to_modtype : gmap string string).
Context (modtype_to_inverse : gmap string string).

(** The modification that a Modification statement makes:
    [(mod_type, stmt.residue, stmt.position)], with the inverse type for a
    RemoveModification. *)
Definition modification_of (stmt : Statement) : result Mod :=
  mod_type ← getitem modclass_to_modtype (class_name stmt);
  mod_type ← (if isinstance_RemoveModification (class_name stmt)
              then getitem modtype_to_inverse mod_type
              else Ok mod_type);
  Ok (mod_type, residue stmt, position stmt).

(** Some Modification statement of the list makes the modification [m]
    on a substrate called [n]. *)
Definition produced (stmts : list Statement) (n : string) (m : Mod) : Prop :=
  ∃ st sub, st ∈ stmts ∧ isinstance_Modification (class_name st) = true ∧
            modification_of st = Ok m ∧ get_sub st = Ok (Some sub) ∧
            a_name sub = n.

(** The body of the first loop of [get_unreachable_mods]. *)
Definition mods_set_step (mods_set : gmap string (gset Mod))
    (stmt : Statement) : result (gmap string (gset Mod)) :=
  if isinstance_Modification (class_name stmt) then
    mod' ← modification_of stmt;
    sub ← get_sub stmt;
    sub_name ← agent_name sub;
    Ok (add_at mods_set sub_name mod')
  else Ok mods_set.

(** The body of the second loop for one agent; the warning logged for
    each modification found is left out. *)
Definition unreachable_agent
    (mods_set unreachable_mods : gmap string (gset Mod))
    (agent : option Agent) : result (gmap string (gset Mod)) :=
  match agent with
  | None => Ok unreachable_mods
  | Some a =>
      mods ← get_mods a;
      Ok (foldl (λ um mc,
                   let mod' := mod_of_condition mc in
                   if bool_decide (mod' ∈ default ∅ (mods_set !! a_name a))
                   then um
                   else add_at um (a_name a) mod')
                unreachable_mods (mods : list ModCondition))
  end.

Definition get_unreachable_mods (stmts_in : list Statement)
  : result (gmap string (gset Mod)) :=
  mods_set ← foldM mods_set_step ∅ stmts_in;
  foldM (λ um stmt, foldM (unreachable_agent mods_set) um (agent_list stmt))
        ∅ stmts_in.
End unreachable.

(** *** Renaming a namespace *)

Definition set_db_refs (a : Agent) (db_refs : gmap string DbVal) : Agent :=
  MkAgent (a_name a) db_refs (a_mods a) (a_activity a)
    (a_bound_conditions a) (is_Agent a).

(** The body of the loop over [stmt.agent_list()];
    [d[ns_to] = d.pop(ns_from)] removes the old entry, then writes. *)
Definition rename_agent (ns_from ns_to : string) (agent : option Agent)
  : option Agent :=
  match agent with
  | Some a =>
      match a_db_refs a !! ns_from with
      | Some v =>
          Some (set_db_refs a (<[ns_to := v]> (delete ns_from (a_db_refs a))))
      | None => Some a
      end
  | None => None
  end.

Definition rename_db_ref (stmts_in : list Statement) (ns_from ns_to : string)
  : list Statement :=
  (λ stmt, set_agent_list stmt
             (rename_agent ns_from ns_to <$> agent_list stmt)) <$> stmts_in.

(** What the renaming of [ns_from] to [ns_to] makes of a role filler
    [ag]: the entry moves, and nothing else changes. *)
Definition renamed (ns_from ns_to : string) (ag' ag : option Agent) : Prop :=
  match ag', ag with
  | None, None => True
  | Some a', Some a =>
      set_db_refs a' ∅ = set_db_refs a ∅ ∧
      ∀ k, a_db_refs a' !! k
           = if decide (k = ns_to) then
               match a_db_refs a !! ns_from with
               | Some v => Some v
               | None => a_db_refs a !! ns_to
               end
             else if decide (k = ns_from) then None
             else a_db_refs a !! k
  | _, _ => False
  end.

(** *** Alignment *)

(** The default key of [align_statements]: the names of the role
    fillers, [None] for an absent one. *)
Definition name_keyfun (stmt : Statement) : list (option string) :=
  (λ a : option Agent, a_name <$> a) <$> agent_list stmt.

(** [keys.index(key)]: the first position that holds [key], [None] for
    the [ValueError]. *)
Definition list_index {K : Type} `{EqDecision K} (keys : list K) (key : K)
  : option nat :=
  fst <$> list_find (λ k, k = key) keys.

(** [l[i]] *)
Definition list_getitem {A : Type} (l : list A) (i : nat) : result A :=
  match l !! i with
  | Some x => Ok x
  | None => Raise IndexError
  end.

Section align.
Context {K : Type} `{EqDecision K} (keyfun : Statement → K).

(** The body of the first loop. *)
Definition match_first (stmts2 : list Statement) (keys2 : list K)
    (sk : Statement * K) : result (option Statement * option Statement) :=
  match list_index keys2 sk.2 with
  | Some match_idx =>
      match_stmt ← list_getitem stmts2 match_idx;
      Ok (Some sk.1, Some match_stmt)
  | None => Ok (Some sk.1, None)
  end.

(** The body of the second loop, which appends only when the key is
    not found. *)
Definition match_second (keys1 : list K) (sk : Statement * K)
  : option (option Statement * option Statement) :=
  match list_index keys1 sk.2 with
  | Some _ => None
  | None => Some (None, Some sk.1)
  end.

(** The first statement of [stmts2] that has the key of [a]. *)
Definition first_match (stmts2 : list Statement) (a : Statement)
  : option Statement :=
  snd <$> list_find (λ s, keyfun s = keyfun a) stmts2.

(** [align_statements(stmts1, stmts2, keyfun)] with a key function. *)
Definition align_statements (stmts1 stmts2 : list Statement)
  : result (list (option Statement * option Statement)) :=
  let keys1 := keyfun <$> stmts1 in
  let keys2 := keyfun <$> stmts2 in
  matches ← forM (match_first stmts2 keys2) (zip stmts1 keys1);
  Ok (matches ++ omap (match_second keys1) (zip stmts2 keys2)).
End align.

(** [align_statements(stmts1, stmts2)], where [keyfun] is [None]. *)
Definition align_statements_by_name (stmts1 stmts2 : list Statement)
  : result (list (option Statement * option Statement)) :=
  align_statements name_keyfun stmts1 stmts2.

End AssembleCorpusMore.
Import AssembleCorpusMore.

(** ** Concrete inputs used in the examples below *)

Module Examples.
Definition agA : option Agent := Some (Agent_ "A").
Definition agB : option Agent := Some (Agent_ "B").
Definition agC : option Agent := Some (Agent_ "C").
Definition agD : option Agent := Some (Agent_ "D").

(** A set that iterates in first-insertion order, a hash that is not
    looked up, and no [ev_totals]. *)
Definition run : list Statement → result (list Group) :=
  group_and_sort_statements remove_dups (λ _, 0%Z) None.

(** The accumulators after the loop, empty when it raised. *)
Definition acc_of (stmts : list Statement) : Acc :=
  match accumulate_all remove_dups (λ _, 0%Z) None stmts with
  | Ok acc => acc
  | Raise _ => MkAcc [] ∅ ∅
  end.

Definition complex_ABC_5 : Statement := stmt_ev (Complex [agA; agB; agC]) 5.
Definition complex_AB_1 : Statement := stmt_ev (Complex [agA; agB]) 1.
Definition complex_AB_2 : Statement := stmt_ev (Complex [agA; agB]) 2.
Definition activation_AB_1 : Statement :=
  stmt_ev (FixedRole "Activation" [agA; agB]) 1.
Definition phosphorylation_AB_1 : Statement :=
  stmt_ev (FixedRole "Phosphorylation" [agA; agB]) 1.
Definition conversion_A_CB_None : Statement :=
  stmt_ev (Conversion agA [agC; agB] [None]) 1.
Definition conversion_A_B_C_1 : Statement :=
  stmt_ev (Conversion agA [agB] [agC]) 1.
Definition phosphorylation_AD_0 : Statement :=
  stmt_ev (FixedRole "Phosphorylation" [agA; agD]) 0.
Definition activeform_A_1 : Statement :=
  stmt_ev (ActiveForm agA "activity" true) 1.
Definition complex_A_activity_b_1 : Statement :=
  stmt_ev (Complex [agA; Some (Agent_ "activity"); Some (Agent_ "b")]) 1.

(** Agents with and without a grounding besides [TEXT]. *)
Definition grounded (n : string) : Agent :=
  MkAgent n {[ "HGNC" := DbStr "1" ]} [] None [] true.
Definition ungrounded (n : string) : Agent :=
  MkAgent n {[ "TEXT" := DbStr n ]} [] None [] true.
Definition with_bound (a b : Agent) : Agent :=
  set_bound_conditions a [MkBoundCondition b true].

Definition phos (enz sub : Agent) : Statement :=
  new_stmt (FixedRole "Phosphorylation" [Some enz; Some sub]).

(** The class tables, for the classes used here. *)
Definition is_Modification (c : string) : bool :=
  bool_decide (c ∈ ["Phosphorylation"; "Dephosphorylation"]).
Definition is_RemoveModification (c : string) : bool :=
  bool_decide (c = "Dephosphorylation").
Definition is_RegulateActivity (c : string) : bool :=
  bool_decide (c ∈ ["Activation"; "Inhibition"]).
Definition modtypes : gmap string string :=
  {[ "Phosphorylation" := "phosphorylation";
     "Dephosphorylation" := "dephosphorylation" ]}.
Definition inverses : gmap string string :=
  {[ "phosphorylation" := "dephosphorylation";
     "dephosphorylation" := "phosphorylation" ]}.

Definition inconsequential_mods :=
  filter_inconsequential_mods is_Modification is_RemoveModification
    modtypes inverses.
Definition inconsequential_acts :=
  filter_inconsequential_acts is_RegulateActivity.

(** [Phosphorylation(enz, sub, residue, position)] *)
Definition phos_at (enz sub : Agent) (res pos : string) : Statement :=
  MkStatement (FixedRole "Phosphorylation" [Some enz; Some sub])
    (Some res) (Some pos) None [] 1%Q [] [].

(** [Activation(subj, obj, obj_activity)] *)
Definition activation (subj obj : Agent) (act : string) : Statement :=
  MkStatement (FixedRole "Activation" [Some subj; Some obj])
    None None (Some act) [] 1%Q [] [].

(** [B] phosphorylated on S100, and [B] with kinase activity. *)
Definition B_pS100 : Agent :=
  MkAgent "B" ∅ [MkModCondition "phosphorylation" (Some "S") (Some "100") true]
    None [] true.
Definition B_kinase : Agent :=
  MkAgent "B" ∅ [] (Some (MkActivityCondition "kinase" true)) [] true.

(** [A] phosphorylates [B] on S100; phosphorylated [B] phosphorylates
    [C] on T5.  The second statement is the only mention of S100 on [B],
    and nothing mentions T5 on [C]. *)
Definition mods_chain : list Statement :=
  [phos_at (Agent_ "A") (Agent_ "B") "S" "100";
   phos_at B_pS100 (Agent_ "C") "T" "5"].

(** The same with activities. *)
Definition acts_chain : list Statement :=
  [activation (Agent_ "A") (Agent_ "B") "kinase";
   activation B_kinase (Agent_ "C") "kinase"].

(** Here the statement that is dropped carries no qualifier. *)
Definition mods_flat : list Statement :=
  [phos_at (Agent_ "A") (Agent_ "B") "S" "100";
   activation B_pS100 (Agent_ "C") "kinase";
   phos_at (Agent_ "A") (Agent_ "C") "T" "5"].
Definition acts_flat : list Statement :=
  [activation (Agent_ "A") (Agent_ "B") "kinase";
   phos_at B_kinase (Agent_ "C") "T" "5";
   activation (Agent_ "A") (Agent_ "C") "kinase"].

(** Two linked statements, the second of low belief. *)
Definition with_belief (s : Statement) (b : Q) (supp supp_by : list nat)
  : Statement :=
  MkStatement (body s) None None None [] b supp supp_by.
Definition linked : Store := λ i,
  match i with
  | 0%nat => with_belief (phos (grounded "A") (grounded "B")) (9 # 10) [1%nat] []
  | _ => with_belief (phos (grounded "A") (grounded "B")) (1 # 10) [] [0%nat]
  end.

(** A statement over [A] bound to [X] and [B], and one over [C] bound to
    [X] and [D]; [X] and [C] are not grounded. *)
Definition bound : Store := λ i,
  match i with
  | 0%nat => phos (with_bound (grounded "A") (ungrounded "X")) (grounded "B")
  | _ => phos (with_bound (ungrounded "C") (ungrounded "X")) (grounded "D")
  end.

(** A statement without evidence. *)
Definition no_evidence : Statement := phos (grounded "A") (grounded "B").
End Examples.

(** ** More concrete inputs *)

Module MoreExamples.
(** A phosphorylation of [B] without enzyme, at every address. *)
Definition no_enzyme : Store := λ _,
  new_stmt (FixedRole "Phosphorylation" [None; Some (Agent_ "B")]).

(** Two statements over grounded genes. *)
Definition genes : Store := λ i,
  match i with
  | 0%nat => Examples.phos (Examples.grounded "A") (Examples.grounded "B")
  | _ => Examples.phos (Examples.grounded "C") (Examples.grounded "D")
  end.

(** A concept with one scored candidate. *)
Definition scored : Agent :=
  MkAgent "food" {[ "WM" := DbList [("wm/concept/food", 7 # 10)] ]} [] None []
    false.

(** A Complex of [MEK] and [ERK]. *)
Definition complex_MEK_ERK : Statement :=
  new_stmt (Complex [Some (Agent_ "MEK"); Some (Agent_ "ERK")]).
End MoreExamples.

(** * Properties *)

(** ** The error monad *)

Lemma bind_Ok {A B : Type} (m : result A) (f : A → result B) (b : B) :
  m ≫= f = Ok b → ∃ a, m = Ok a ∧ f a = Ok b.
Proof. destruct m as [a|e]; simpl; [eauto | discriminate]. Qed.

Lemma bind_Ok_l {A B : Type} (f : A → result B) (a : A) :
  Ok a ≫= f = f a.
Proof. reflexivity. Qed.

(** Splits a hypothesis [m ≫= f = Ok b] into its two steps. *)
Tactic Notation "inv_bind" hyp(H) "as" ident(a) ident(Ha) :=
  apply bind_Ok in H as (a & Ha & H).

Tactic Notation "inv_bind" hyp(H) :=
  let a := fresh "r" in
  let Ha := fresh "Hr" in
  apply bind_Ok in H as (a & Ha & H).

Lemma forM_Ok_Forall2 {A B : Type} (f : A → result B) l l' :
  forM f l = Ok l' → Forall2 (λ x y, f x = Ok y) l l'.
Proof.
  revert l'; induction l as [|x l IH]; intros l' H; simpl in H.
  - injection H as <-. constructor.
  - inv_bind H as y Hy. inv_bind H as ys Hys. injection H as <-.
    constructor; auto.
Qed.

Lemma forM_total {A B : Type} (f : A → result B) l :
  Forall (λ x, ∃ y, f x = Ok y) l → ∃ l', forM f l = Ok l'.
Proof.
  induction 1 as [|x l [y Hy] _ [l' IH]]; simpl; [eauto|].
  rewrite Hy; simpl. rewrite IH; simpl. eauto.
Qed.

Lemma forM_ext {A B : Type} (f g : A → result B) l :
  Forall (λ x, f x = g x) l → forM f l = forM g l.
Proof.
  induction 1 as [|x l Hx _ IH]; simpl; [done|]. by rewrite Hx, IH.
Qed.

Lemma foldM_invariant {A S : Type} (P : S → Prop) (f : S → A → result S) l :
  (∀ s x s', P s → f s x = Ok s' → P s') →
  ∀ s s', P s → foldM f s l = Ok s' → P s'.
Proof.
  intros Hstep. induction l as [|x l IH]; intros s s' Hs H; simpl in H.
  - by injection H as <-.
  - inv_bind H. eauto.
Qed.

(** ** Orders *)

Section lex.
Context {A : Type} `{EqDecision A} (item_lt : A → A → result bool).
Hypothesis item_order : linear_order item_lt.

Lemma lex_lt_asym a b :
  lex_lt item_lt a b = Ok true → lex_lt item_lt b a = Ok false.
Proof.
  revert b; induction a as [|x a IH]; intros [|y b]; simpl; try done.
  destruct (decide (x = y)) as [->|Hne].
  - rewrite decide_True by done. apply IH.
  - rewrite decide_False by done. apply (wo_asym _ item_order).
Qed.

Lemma lex_lt_antisym a b :
  lex_lt item_lt a b = Ok false → lex_lt item_lt b a = Ok false → a = b.
Proof.
  revert b; induction a as [|x a IH]; intros [|y b]; simpl; try done.
  destruct (decide (x = y)) as [->|Hne].
  - rewrite decide_True by done. intros. f_equal; auto.
  - rewrite decide_False by done. intros H1 H2.
    destruct Hne. by apply (lo_antisym _ item_order).
Qed.

Lemma lex_lt_negtrans a b c :
  lex_lt item_lt a b = Ok false → lex_lt item_lt b c = Ok false →
  lex_lt item_lt a c = Ok false.
Proof.
  revert b c; induction a as [|x a IH]; intros [|y b] [|z c]; simpl;
    try done.
  destruct (decide (x = y)) as [->|Hxy].
  - destruct (decide (y = z)) as [->|Hyz]; [apply IH | done].
  - destruct (decide (y = z)) as [->|Hyz].
    + rewrite decide_False by done. done.
    + intros H1 H2. destruct (decide (x = z)) as [->|Hxz].
      * destruct Hxy. by apply (lo_antisym _ item_order).
      * by apply (wo_negtrans _ item_order x y z).
Qed.

Lemma lex_lt_order : linear_order (lex_lt item_lt).
Proof.
  split; [split|].
  - apply lex_lt_asym.
  - apply lex_lt_negtrans.
  - apply lex_lt_antisym.
Qed.
End lex.

Section pair.
Context {A B : Type} `{EqDecision A}.
Context (ltA : A → A → result bool) (ltB : B → B → result bool).
Hypothesis orderA : linear_order ltA.
Hypothesis orderB : linear_order ltB.

Lemma pair_lt_order : linear_order (pair_lt ltA ltB).
Proof.
  split; [split|].
  - intros [a b] [a' b']; unfold pair_lt; simpl.
    destruct (decide (a ≠ a')) as [Hne|Heq].
    + rewrite decide_True by done. apply (wo_asym _ orderA).
    + apply dec_stable in Heq as ->. rewrite decide_False by tauto.
      apply (wo_asym _ orderB).
  - intros [a b] [a' b'] [a'' b'']; unfold pair_lt; simpl.
    destruct (decide (a ≠ a')) as [Hne|Heq],
             (decide (a' ≠ a'')) as [Hne'|Heq'];
      try apply dec_stable in Heq as ->;
      try apply dec_stable in Heq' as ->.
    + intros H1 H2. destruct (decide (a ≠ a'')) as [Hne''|Heq''].
      * by apply (wo_negtrans _ orderA a a' a'').
      * apply dec_stable in Heq'' as ->. destruct Hne.
        by apply (lo_antisym _ orderA).
    + rewrite decide_True by done. done.
    + rewrite decide_True by done. done.
    + rewrite decide_False by tauto. apply (wo_negtrans _ orderB).
  - intros [a b] [a' b']; unfold pair_lt; simpl.
    destruct (decide (a ≠ a')) as [Hne|Heq].
    + rewrite decide_True by done. intros H1 H2. destruct Hne.
      by apply (lo_antisym _ orderA).
    + apply dec_stable in Heq as ->. rewrite decide_False by tauto.
      intros H1 H2. f_equal. by apply (lo_antisym _ orderB).
Qed.
End pair.

(** *** Strings *)

Lemma string_compare_OT s t : String.compare s t = String_as_OT.compare s t.
Proof.
  revert t; induction s as [|c s IH]; intros [|d t]; simpl; by rewrite ?IH.
Qed.

Lemma str_lt_spec s t : str_lt s t = true ↔ String_as_OT.lt s t.
Proof.
  unfold str_lt, String.ltb, String_as_OT.lt.
  rewrite string_compare_OT.
  destruct (String_as_OT.compare s t); split; congruence.
Qed.

Lemma str_lt_irrefl s : str_lt s s = false.
Proof.
  apply not_true_is_false. rewrite str_lt_spec.
  apply (StrictOrder_Irreflexive (R := String_as_OT.lt)).
Qed.

Lemma str_lt_trans a b c :
  str_lt a b = true → str_lt b c = true → str_lt a c = true.
Proof.
  rewrite !str_lt_spec. apply (StrictOrder_Transitive (R := String_as_OT.lt)).
Qed.

Lemma str_lt_trichotomy s t :
  str_lt s t = true ∨ s = t ∨ str_lt t s = true.
Proof.
  rewrite !str_lt_spec.
  destruct (String_as_OT.compare_spec s t); auto.
Qed.

Lemma str_lt_asym s t : str_lt s t = true → str_lt t s = false.
Proof.
  intros H. apply not_true_is_false. intros H'.
  pose proof (str_lt_trans _ _ _ H H') as Hss.
  by rewrite str_lt_irrefl in Hss.
Qed.

Lemma str_lt_false s t : str_lt s t = false ↔ s = t ∨ str_lt t s = true.
Proof.
  split.
  - intros H. destruct (str_lt_trichotomy s t) as [?|[?|?]]; auto. congruence.
  - intros [->|H]; [apply str_lt_irrefl | by apply str_lt_asym].
Qed.

Lemma str_lt_r_order : linear_order str_lt_r.
Proof.
  unfold str_lt_r. split; [split|].
  - intros x y [= H]. f_equal. by apply str_lt_asym.
  - intros x y z [= H1] [= H2]. f_equal.
    apply str_lt_false in H1 as [->|H1]; [done|].
    apply str_lt_false in H2 as [->|H2]; [by apply str_lt_asym|].
    apply str_lt_asym. eapply str_lt_trans; eauto.
  - intros x y [= H1] [= H2].
    apply str_lt_false in H1 as [->|H1]; [done|]. congruence.
Qed.

Lemma int_lt_r_order : linear_order int_lt_r.
Proof.
  unfold int_lt_r. split; [split|].
  - intros x y [= H]. f_equal. lia.
  - intros x y z [= H1] [= H2]. f_equal. lia.
  - intros x y [= H1] [= H2]. lia.
Qed.

Lemma val_lt_order : linear_order val_lt.
Proof.
  pose proof str_lt_r_order as Hs.
  pose proof (lex_lt_order _ Hs) as Hl.
  split; [split|].
  - intros [s|a|b] [t|a'|b']; simpl; try done.
    + apply (wo_asym _ Hs).
    + apply (wo_asym _ Hl).
    + destruct b, b'; done.
  - intros [s|a|b] [t|a'|b'] [u|a''|b'']; simpl; try done.
    + apply (wo_negtrans _ Hs).
    + apply (wo_negtrans _ Hl).
    + destruct b, b', b''; done.
  - intros [s|a|b] [t|a'|b']; simpl; try done.
    + intros. f_equal. by apply (lo_antisym _ Hs).
    + intros. f_equal. by apply (lo_antisym _ Hl).
    + destruct b, b'; done.
Qed.

Lemma tuple_lt_order : linear_order tuple_lt.
Proof. apply lex_lt_order, val_lt_order. Qed.

(** ** [sorted] *)

Section sorted_facts.
Context {A : Type} (lt : A → A → result bool).

Lemma insert_desc_perm x l l' :
  insert_desc lt x l = Ok l' → l' ≡ₚ x :: l.
Proof.
  revert l'; induction l as [|y l IH]; intros l' H; simpl in H.
  - by injection H as <-.
  - inv_bind H as b Hb. destruct b.
    + inv_bind H as l'' Hl''. injection H as <-.
      rewrite (IH _ Hl''). apply Permutation_swap.
    + by injection H as <-.
Qed.

Lemma sorted_desc_perm l l' : sorted_desc lt l = Ok l' → l' ≡ₚ l.
Proof.
  revert l'; induction l as [|x l IH]; intros l' H; simpl in H.
  - by injection H as <-.
  - inv_bind H as s Hs. rewrite (insert_desc_perm _ _ _ H).
    by rewrite (IH _ Hs).
Qed.

Lemma insert_desc_total x l :
  Forall (λ y, ∃ b, lt x y = Ok b) l → ∃ l', insert_desc lt x l = Ok l'.
Proof.
  induction 1 as [|y l [b Hb] _ [l' IH]]; simpl; [eauto|].
  rewrite Hb; simpl. destruct b; [|eauto]. rewrite IH; simpl; eauto.
Qed.

Lemma sorted_desc_total l :
  (∀ x y, x ∈ l → y ∈ l → ∃ b, lt x y = Ok b) →
  ∃ l', sorted_desc lt l = Ok l'.
Proof.
  induction l as [|x l IH]; intros Hl; simpl; [eauto|].
  destruct IH as [s Hs].
  { intros y z Hy Hz. apply Hl; by right. }
  rewrite Hs; simpl. apply insert_desc_total.
  apply Forall_forall. intros y Hy. apply Hl; [by left|right].
  by rewrite <- (sorted_desc_perm _ _ Hs).
Qed.

Section ordered.
Hypothesis order : weak_order lt.

Lemma insert_desc_sorted x l l' :
  StronglySorted (not_below lt) l → insert_desc lt x l = Ok l' →
  StronglySorted (not_below lt) l'.
Proof.
  revert l'; induction l as [|y l IH]; intros l' Hl H; simpl in H.
  - injection H as <-. repeat constructor.
  - apply StronglySorted_inv in Hl as [Hl Hy].
    inv_bind H as b Hb. destruct b.
    + inv_bind H as l'' Hl''. injection H as <-.
      constructor; [by eapply IH|].
      rewrite (insert_desc_perm _ _ _ Hl''). constructor; [|done].
      by apply (wo_asym _ order).
    + injection H as <-. constructor; [by constructor|].
      constructor; [done|].
      eapply Forall_impl; [exact Hy|]. intros z Hz.
      by apply (wo_negtrans _ order x y z).
Qed.

Lemma sorted_desc_sorted l l' :
  sorted_desc lt l = Ok l' → StronglySorted (not_below lt) l'.
Proof.
  revert l'; induction l as [|x l IH]; intros l' H; simpl in H.
  - injection H as <-. constructor.
  - inv_bind H. eapply insert_desc_sorted; eauto.
Qed.
End ordered.
End sorted_facts.

(** ** The accumulators *)

Lemma counts_get_add `{Countable K} (m : gmap K Z) (k k' : K) (c : Z) :
  counts_get (counts_add k c m) k' =
  if decide (k = k') then (counts_get m k + c)%Z else counts_get m k'.
Proof.
  unfold counts_add, counts_get at 1.
  destruct (decide (k = k')) as [->|Hne].
  - by rewrite lookup_insert_eq.
  - by rewrite lookup_insert_ne.
Qed.

Lemma rows_append_keys k s rows :
  (rows_append k s rows).*1 =
  if decide (k ∈ rows.*1) then rows.*1 else rows.*1 ++ [k].
Proof.
  induction rows as [|[k' ss] rows IH].
  - destruct (decide (k ∈ ([] : list (Key * list Statement)).*1))
      as [Hin|_]; [|done].
    by apply elem_of_nil in Hin.
  - cbn [rows_append]. destruct (decide (k' = k)) as [->|Hne].
    + rewrite decide_True; [done|]. rewrite fmap_cons. by left.
    + rewrite !fmap_cons, IH. cbn [fst].
      destruct (decide (k ∈ rows.*1)) as [Hin|Hnin].
      * rewrite decide_True; [done|]. by right.
      * rewrite decide_False; [done|].
        intros [?|?]%elem_of_cons; congruence.
Qed.

Lemma rows_append_NoDup k s rows :
  NoDup rows.*1 → NoDup (rows_append k s rows).*1.
Proof.
  intros Hnd. rewrite rows_append_keys. case_decide; [done|].
  apply NoDup_app. split; [done|]. split.
  - intros x Hx ->%list_elem_of_singleton. done.
  - apply NoDup_singleton.
Qed.

Lemma rows_get_append k s rows k' :
  rows_get (rows_append k s rows) k' =
  if decide (k = k') then rows_get rows k ++ [s] else rows_get rows k'.
Proof.
  induction rows as [|[k0 ss] rows IH]; simpl.
  - destruct (decide (k = k')); done.
  - destruct (decide (k0 = k)) as [->|Hne]; simpl.
    + destruct (decide (k = k')); done.
    + rewrite IH. destruct (decide (k0 = k')) as [->|Hne'].
      * by rewrite decide_False by done.
      * done.
Qed.

Lemma rows_get_elem rows k ss :
  NoDup rows.*1 → (k, ss) ∈ rows → rows_get rows k = ss.
Proof.
  induction rows as [|[k' ss'] rows IH]; intros Hnd Hin.
  - by apply elem_of_nil in Hin.
  - apply NoDup_cons in Hnd as [Hk' Hnd]. simpl.
    apply elem_of_cons in Hin as [[= -> ->]|Hin].
    + by rewrite decide_True.
    + rewrite decide_False; [auto|]. intros ->. apply Hk'.
      apply list_elem_of_fmap. by exists (k, ss).
Qed.

(** ** Grouping *)

Lemma forM_agent_name ags names :
  forM agent_name ags = Ok names → names = name <$> ags.
Proof.
  intros H%forM_Ok_Forall2. induction H as [|[a|] n ags names Hn _ IH];
    simplify_eq/=; by f_equal.
Qed.

Section presentation_facts.
Context (set_iter : list string → list string).
Context (get_hash : Statement → Z).
Context (ev_totals : option (gmap Z Z)).

Abbreviation _count := (_count get_hash ev_totals).
Abbreviation sum_counts := (sum_counts get_hash ev_totals).
Abbreviation accumulate := (accumulate get_hash ev_totals).
Abbreviation accumulate_all := (accumulate_all set_iter get_hash ev_totals).
Abbreviation acc_inv := (acc_inv get_hash ev_totals).
Abbreviation process_row := (process_row get_hash ev_totals).
Abbreviation process_rows := (process_rows get_hash ev_totals).
Abbreviation member_lt := (member_lt get_hash ev_totals).
Abbreviation group_and_sort_statements :=
  (group_and_sort_statements set_iter get_hash ev_totals).

Lemma sum_counts_snoc ss s :
  sum_counts (ss ++ [s]) = (sum_counts ss + _count s)%Z.
Proof.
  induction ss as [|s' ss IH]; simpl; [lia|]. rewrite IH. lia.
Qed.

Lemma accumulate_rows_counts acc key s acc' :
  accumulate acc (key, s) = Ok acc' →
  stmt_rows acc' = rows_append key s (stmt_rows acc) ∧
  stmt_counts acc' = counts_add key (_count s) (stmt_counts acc).
Proof.
  unfold Presentation.accumulate. intros H.
  destruct (decide (key.1 = "Conversion")).
  - destruct key.2 as [|subj [|[|froms|] [|[|tos|] ?]]]; simplify_eq/=; done.
  - by simplify_eq/=.
Qed.

Lemma accumulate_inv acc ks acc' :
  acc_inv acc → accumulate acc ks = Ok acc' → acc_inv acc'.
Proof.
  destruct ks as [key s]. intros [Hnd Hc] [Hr Hs]%accumulate_rows_counts.
  split.
  - rewrite Hr. by apply rows_append_NoDup.
  - intros k. rewrite Hr, Hs, counts_get_add, rows_get_append.
    destruct (decide (key = k)) as [->|]; [|done].
    by rewrite sum_counts_snoc, Hc.
Qed.

Lemma accumulate_all_inv stmts acc :
  accumulate_all stmts = Ok acc → acc_inv acc.
Proof.
  unfold Presentation.accumulate_all. intros H. inv_bind H.
  eapply (foldM_invariant acc_inv); [|  |exact H].
  - intros. by eapply accumulate_inv.
  - split; [constructor|done].
Qed.

(** *** One row *)

Lemma sorted_members_perm ss ss' :
  sorted_desc member_lt ss = Ok ss' → ss' ≡ₚ ss.
Proof. apply sorted_desc_perm. Qed.

Lemma sorted_members_total ss : ∃ ss', sorted_desc member_lt ss = Ok ss'.
Proof. apply sorted_desc_total. intros; eexists; reflexivity. Qed.

Lemma process_row_Some acc verb inps ss g :
  process_row acc ((verb, inps), ss) = Ok (Some g) →
  group_key g = (counts_get (arg_counts acc) inps, inps,
                 counts_get (stmt_counts acc) (verb, inps), verb) ∧
  group_verb g = verb ∧ group_stmts g ≡ₚ ss.
Proof.
  unfold Presentation.process_row. intros H. inv_bind H as skip Hskip.
  destruct skip; [done|]. inv_bind H as ss' Hss'. simplify_eq/=.
  split_and!; [done..|]. by eapply sorted_members_perm.
Qed.

Lemma distinct_names_size s n :
  distinct_names s = Ok n → n = name_set_size s.
Proof.
  unfold distinct_names, name_set_size. intros H. inv_bind H as names Hn.
  apply forM_agent_name in Hn as ->. by simplify_eq/=.
Qed.

Lemma forM_distinct_names ss sizes :
  forM distinct_names ss = Ok sizes → sizes = name_set_size <$> ss.
Proof.
  intros H%forM_Ok_Forall2. induction H as [|s n ss sizes Hn _ IH];
    [done|]. rewrite fmap_cons. f_equal; [|done].
  by apply distinct_names_size.
Qed.

(** The suppression test of [process_rows]. *)
Lemma process_row_suppressed acc a b ss g :
  counts_get (stmt_counts acc) ("Complex", [VStr a; VStr b])
  = counts_get (arg_counts acc) [VStr a; VStr b] →
  Forall (λ s, 2 < name_set_size s)%nat ss →
  process_row acc (("Complex", [VStr a; VStr b]), ss) ≠ Ok (Some g).
Proof.
  intros Heq Hall H. unfold Presentation.process_row in H.
  rewrite Heq, Z.eqb_refl in H. simpl in H. inv_bind H as skip Hskip0.
  inv_bind Hskip0 as sizes Hsizes. apply forM_distinct_names in Hsizes as ->.
  simplify_eq/=.
  assert (forallb (λ n, bool_decide (2 < n)%nat) (name_set_size <$> ss)
          = true) as Hskip.
  { apply forallb_forall. intros n [s [-> Hs]]%list_elem_of_In%list_elem_of_fmap.
    apply bool_decide_eq_true. rewrite Forall_forall in Hall. by apply Hall. }
  rewrite Hskip in H. done.
Qed.

Lemma process_row_kept acc key ss og :
  process_row acc (key, ss) = Ok og →
  Exists (λ s, name_set_size s ≤ 2)%nat ss →
  ∃ g, og = Some g.
Proof.
  destruct key as [verb inps]. unfold Presentation.process_row. intros H Hex.
  inv_bind H as skip Hskip. destruct skip.
  - exfalso. case_match; [|done]. inv_bind Hskip as sizes Hsizes.
    apply forM_distinct_names in Hsizes as ->. simplify_eq/=.
    apply Exists_exists in Hex as (s & Hs & Hle).
    assert (forallb (λ n, bool_decide (2 < n)%nat) (name_set_size <$> ss)
            = true) as Hall by done.
    rewrite forallb_forall in Hall.
    specialize (Hall (name_set_size s)).
    rewrite bool_decide_eq_true in Hall.
    assert (2 < name_set_size s)%nat; [|lia].
    apply Hall, list_elem_of_In, list_elem_of_fmap. eauto.
  - inv_bind H. simplify_eq/=. eauto.
Qed.

(** *** All rows *)

Lemma process_rows_elem acc groups g :
  process_rows acc = Ok groups →
  g ∈ groups ↔
  ∃ row, row ∈ stmt_rows acc ∧ process_row acc row = Ok (Some g).
Proof.
  unfold Presentation.process_rows. intros H. inv_bind H as r Hr.
  simplify_eq/=. apply forM_Ok_Forall2 in Hr.
  rewrite list_elem_of_omap. split.
  - intros (og & [i Hi]%list_elem_of_lookup & Hid).
    unfold id in Hid; subst og.
    destruct (Forall2_lookup_r _ _ _ _ _ Hr Hi) as (row & Hrow & Hp).
    exists row. split; [|done]. by eapply list_elem_of_lookup_2.
  - intros (row & [i Hi]%list_elem_of_lookup & Hp).
    destruct (Forall2_lookup_l _ _ _ _ _ Hr Hi) as (og & Hog & Hp').
    exists og. split; [by eapply list_elem_of_lookup_2|].
    unfold id. congruence.
Qed.

Lemma process_rows_defined acc groups row :
  process_rows acc = Ok groups → row ∈ stmt_rows acc →
  ∃ og, process_row acc row = Ok og.
Proof.
  unfold Presentation.process_rows. intros H. inv_bind H as r Hr.
  apply forM_Ok_Forall2 in Hr. intros [i Hi]%list_elem_of_lookup.
  destruct (Forall2_lookup_l _ _ _ _ _ Hr Hi) as (og & _ & Hp). eauto.
Qed.

Lemma group_and_sort_inv stmts out :
  group_and_sort_statements stmts = Ok out →
  ∃ acc groups,
    accumulate_all stmts = Ok acc ∧ process_rows acc = Ok groups ∧
    sorted_desc group_lt groups = Ok out.
Proof.
  unfold Presentation.group_and_sort_statements. intros H.
  inv_bind H as acc Hacc. inv_bind H as groups Hgroups. eauto.
Qed.

(** A group of the result comes from the one row of its key. *)
Lemma group_row stmts acc out g :
  accumulate_all stmts = Ok acc →
  group_and_sort_statements stmts = Ok out →
  g ∈ out →
  ∃ ss, ((group_verb g, sk_inps (group_key g)), ss) ∈ stmt_rows acc ∧
        process_row acc ((group_verb g, sk_inps (group_key g)), ss)
        = Ok (Some g).
Proof.
  intros Hacc (acc' & groups & Hacc' & Hrows & Hsort)%group_and_sort_inv Hg.
  rewrite Hacc in Hacc'. injection Hacc' as <-.
  rewrite (sorted_desc_perm _ _ _ Hsort) in Hg.
  apply (process_rows_elem _ _ _ Hrows) in Hg as ([[verb inps] ss] & Hin & Hp).
  destruct (process_row_Some _ _ _ _ _ Hp) as (Hk & Hv & _).
  rewrite Hv, Hk. unfold sk_inps. cbn [fst snd]. eauto.
Qed.

(** C1.  The suppression rule.  For a two-name Complex key [(a, b)] with
    its row of member statements: the group weight is the total weight of
    the members; if it equals the argument weight of [(a, b)] and every
    member has more than two distinct participant names, the result holds
    no Complex group for [(a, b)]; and if some member has at most two
    distinct participant names (a direct pairwise statement), the result
    holds the group of [(a, b)] with the combined weight and all the
    members. *)
Theorem suppression_rule stmts acc out a b members :
  accumulate_all stmts = Ok acc →
  group_and_sort_statements stmts = Ok out →
  (("Complex", [VStr a; VStr b]), members) ∈ stmt_rows acc →
  let w := counts_get (stmt_counts acc) ("Complex", [VStr a; VStr b]) in
  let aw := counts_get (arg_counts acc) [VStr a; VStr b] in
  w = sum_counts members ∧
  (w = aw → Forall (λ s, 2 < name_set_size s)%nat members →
   ∀ g, g ∈ out →
        ¬ (group_verb g = "Complex" ∧
           sk_inps (group_key g) = [VStr a; VStr b])) ∧
  (Exists (λ s, name_set_size s ≤ 2)%nat members →
   ∃ g, g ∈ out ∧
        group_key g = (aw, [VStr a; VStr b], w, "Complex") ∧
        group_verb g = "Complex" ∧ group_stmts g ≡ₚ members).
Proof.
  intros Hacc Hout Hrow w aw.
  pose proof (accumulate_all_inv _ _ Hacc) as [Hnd Hc].
  split_and!.
  - unfold w. by rewrite Hc, (rows_get_elem _ _ _ Hnd Hrow).
  - intros Heq Hall g Hg [Hv Hk].
    destruct (group_row _ _ _ _ Hacc Hout Hg) as (ss & Hin & Hp).
    rewrite Hv, Hk in Hin, Hp.
    assert (ss = members) as ->.
    { rewrite <- (rows_get_elem _ _ _ Hnd Hin).
      by apply rows_get_elem. }
    by eapply process_row_suppressed.
  - intros Hex.
    apply group_and_sort_inv in Hout
      as (acc' & groups & Hacc' & Hrows & Hsort).
    rewrite Hacc in Hacc'. injection Hacc' as <-.
    destruct (process_rows_defined _ _ _ Hrows Hrow) as [og Hog].
    destruct (process_row_kept _ _ _ _ Hog Hex) as [g ->].
    exists g. split.
    + rewrite (sorted_desc_perm _ _ _ Hsort).
      apply (process_rows_elem _ _ _ Hrows). eauto.
    + by apply process_row_Some in Hog.
Qed.
End presentation_facts.

(** The two scenarios of the suppression rule: [{A,B,C}] with weight 5
    alone gives no group for [(A, B)]; with a direct [(A, B)] statement of
    weight 1 the group [(A, B)] has weight 6. *)
Lemma suppression_rule_witness :
  (∃ out, Examples.run [Examples.complex_ABC_5] = Ok out ∧
     ∀ g, g ∈ out →
       ¬ (group_verb g = "Complex" ∧
          sk_inps (group_key g) = [VStr "A"; VStr "B"])) ∧
  (∃ out, Examples.run [Examples.complex_ABC_5; Examples.complex_AB_1]
          = Ok out ∧
     ∃ g, g ∈ out ∧
       group_key g = (6%Z, [VStr "A"; VStr "B"], 6%Z, "Complex") ∧
       group_verb g = "Complex" ∧
       group_stmts g ≡ₚ [Examples.complex_ABC_5; Examples.complex_AB_1]).
Proof.
  split.
  - eexists. split; [vm_compute; reflexivity|].
    refine (proj1 (proj2 (suppression_rule remove_dups (λ _, 0%Z) None
      [Examples.complex_ABC_5] (Examples.acc_of [Examples.complex_ABC_5])
      _ "A" "B" [Examples.complex_ABC_5] _ _ _)) _ _).
    + vm_compute; reflexivity.
    + vm_compute; reflexivity.
    + vm_compute. apply list_elem_of_here.
    + vm_compute; reflexivity.
    + repeat constructor.
  - eexists. split; [vm_compute; reflexivity|].
    refine (proj2 (proj2 (suppression_rule remove_dups (λ _, 0%Z) None
      [Examples.complex_ABC_5; Examples.complex_AB_1]
      (Examples.acc_of [Examples.complex_ABC_5; Examples.complex_AB_1])
      _ "A" "B" [Examples.complex_ABC_5; Examples.complex_AB_1] _ _ _)) _).
    + vm_compute; reflexivity.
    + vm_compute; reflexivity.
    + vm_compute. apply list_elem_of_here.
    + apply Exists_cons_tl, Exists_cons_hd. vm_compute. lia.
Defined.

(** ** Ranking *)

Lemma sortkey_lt_pair a b :
  sortkey_lt a b =
  pair_lt (pair_lt (pair_lt int_lt_r tuple_lt) int_lt_r) str_lt_r a b.
Proof.
  destruct a as [[[ac inps] sc] v], b as [[[ac' inps'] sc'] v'].
  unfold sortkey_lt, pair_lt, sk_arg_count, sk_inps, sk_sub_count, sk_verb,
    int_lt_r; cbn [fst snd].
  repeat case_decide; simplify_eq; try done.
Qed.

Lemma sortkey_lt_order : linear_order sortkey_lt.
Proof.
  assert (linear_order
    (pair_lt (pair_lt (pair_lt int_lt_r tuple_lt) int_lt_r) str_lt_r))
    as [[Hasym Hnt] Hanti].
  { repeat apply pair_lt_order;
      auto using int_lt_r_order, tuple_lt_order, str_lt_r_order. }
  split; [split|]; intros *; rewrite !sortkey_lt_pair; eauto.
Qed.

Lemma group_lt_order : weak_order group_lt.
Proof.
  destruct sortkey_lt_order as [[Hasym Hnt] _].
  split; unfold group_lt; eauto.
Qed.

Lemma StronglySorted_lookup {A : Type} (R : relation A) l i j x y :
  StronglySorted R l → (i < j)%nat → l !! i = Some x → l !! j = Some y →
  R x y.
Proof.
  intros Hl. revert i j. induction Hl as [|z l Hl IH Hz]; intros i j Hij Hi Hj.
  - done.
  - destruct j as [|j]; [lia|]. simpl in Hj. destruct i as [|i].
    + simplify_eq/=. rewrite Forall_forall in Hz. apply Hz.
      by eapply list_elem_of_lookup_2.
    + simpl in Hi. apply (IH i j); [lia|done..].
Qed.

Section ranking.
Context (set_iter : list string → list string).
Context (get_hash : Statement → Z).
Context (ev_totals : option (gmap Z Z)).

Abbreviation accumulate_all := (accumulate_all set_iter get_hash ev_totals).
Abbreviation process_row := (process_row get_hash ev_totals).
Abbreviation process_rows := (process_rows get_hash ev_totals).
Abbreviation group_and_sort_statements :=
  (group_and_sort_statements set_iter get_hash ev_totals).

Lemma process_rows_ids acc groups :
  process_rows acc = Ok groups →
  group_id <$> groups `sublist_of` (stmt_rows acc).*1.
Proof.
  unfold Presentation.process_rows. intros H. inv_bind H as r Hr.
  simplify_eq/=. apply forM_Ok_Forall2 in Hr.
  induction Hr as [|[[verb inps] ss] og rows r Hp _ IH]; [done|].
  rewrite fmap_cons. destruct og as [g|]; simpl.
  - apply process_row_Some in Hp as (Hk & Hv & _).
    unfold group_id at 1. rewrite Hv, Hk. by apply sublist_skip.
  - by apply sublist_cons.
Qed.

Lemma groups_NoDup stmts out :
  group_and_sort_statements stmts = Ok out → NoDup (group_id <$> out).
Proof.
  intros (acc & groups & Hacc & Hrows & Hsort)%group_and_sort_inv.
  rewrite (sorted_desc_perm _ _ _ Hsort).
  eapply sublist_NoDup; [|by eapply process_rows_ids].
  by apply (accumulate_all_inv _ _ _ _ _ Hacc).
Qed.

Lemma groups_sorted stmts out :
  group_and_sort_statements stmts = Ok out →
  StronglySorted (not_below group_lt) out.
Proof.
  intros (acc & groups & Hacc & Hrows & Hsort)%group_and_sort_inv.
  eapply sorted_desc_sorted; [apply group_lt_order|done].
Qed.

Lemma group_key_verb stmts out g :
  group_and_sort_statements stmts = Ok out → g ∈ out →
  sk_verb (group_key g) = group_verb g.
Proof.
  intros Hout Hg.
  pose proof Hout as (acc & groups & Hacc & _)%group_and_sort_inv.
  destruct (group_row _ _ _ _ _ _ _ Hacc Hout Hg) as (ss & _ & Hp).
  apply process_row_Some in Hp as (Hk & Hv & _). by rewrite Hk.
Qed.

(** C3 (as the code has it).  The groups come out in descending order of
    the tuple [(arg_count, inps, sub_count, verb)], compared like Python
    tuples: a group is never below a later one.  For a group [g1] placed
    before a group [g2]: the argument weight of [g1] is at least that of
    [g2]; with equal argument weights and equal role tuples, the group
    weight of [g1] is at least that of [g2]; and with equal group weights
    too, the type name of [g1] comes strictly after that of [g2] in
    alphabetical order (descending, not ascending). *)
Theorem group_order stmts out :
  group_and_sort_statements stmts = Ok out →
  StronglySorted
    (λ g1 g2, sortkey_lt (group_key g1) (group_key g2) = Ok false) out ∧
  ∀ i j g1 g2,
    (i < j)%nat → out !! i = Some g1 → out !! j = Some g2 →
    let k1 := group_key g1 in
    let k2 := group_key g2 in
    (sk_arg_count k2 ≤ sk_arg_count k1)%Z ∧
    (sk_arg_count k1 = sk_arg_count k2 → sk_inps k1 = sk_inps k2 →
     (sk_sub_count k2 ≤ sk_sub_count k1)%Z ∧
     (sk_sub_count k1 = sk_sub_count k2 →
      str_lt (sk_verb k2) (sk_verb k1) = true)).
Proof.
  intros Hout. pose proof (groups_sorted _ _ Hout) as Hsorted.
  split; [exact Hsorted|].
  intros i j g1 g2 Hij Hi Hj k1 k2.
  pose proof (StronglySorted_lookup _ _ _ _ _ _ Hsorted Hij Hi Hj) as Hnb.
  unfold not_below, group_lt, sortkey_lt in Hnb. fold k1 k2 in Hnb.
  split.
  - case_decide; [|lia]. injection Hnb as Hnb. lia.
  - intros Hac Hin. rewrite decide_False in Hnb by tauto.
    rewrite decide_False in Hnb by tauto. split.
    + case_decide; [|lia]. injection Hnb as Hnb. lia.
    + intros Hsc. rewrite decide_False in Hnb by tauto.
      injection Hnb as Hnb. apply str_lt_false in Hnb as [Hv|Hv]; [|done].
      exfalso.
      pose proof (groups_NoDup _ _ Hout) as Hnd.
      assert (group_id g1 = group_id g2) as Hid.
      { unfold group_id. fold k1 k2. rewrite Hin. f_equal.
        rewrite <- (group_key_verb _ _ g1 Hout),
                <- (group_key_verb _ _ g2 Hout);
          [done|by eapply list_elem_of_lookup_2..]. }
      assert (i = j); [|lia].
      eapply NoDup_lookup; [exact Hnd|..];
        rewrite list_lookup_fmap; [by rewrite Hi|by rewrite Hj, Hid].
Qed.
End ranking.

(** One statement of each of two types over the same roles: the groups
    tie on everything but the type name, and come out in descending order
    of the type name. *)
Lemma group_order_witness :
  ∃ g1 g2,
    Examples.run [Examples.activation_AB_1; Examples.phosphorylation_AB_1]
    = Ok [g1; g2] ∧
    str_lt (sk_verb (group_key g2)) (sk_verb (group_key g1)) = true.
Proof.
  eexists _, _. split; [vm_compute; reflexivity|].
  refine (proj2 (proj2 (proj2 (group_order remove_dups (λ _, 0%Z) None
    [Examples.activation_AB_1; Examples.phosphorylation_AB_1] _ _)
    0%nat 1%nat _ _ _ _ _) _ _) _).
  - vm_compute; reflexivity.
  - lia.
  - reflexivity.
  - reflexivity.
  - reflexivity.
  - reflexivity.
  - reflexivity.
Defined.

(** The claim as written (ascending type names among full ties) fails:
    ['Phosphorylation'] is placed before ['Activation'], although all of
    argument weight, role tuple and group weight are equal. *)
Lemma type_name_order_counterexample :
  ∃ g1 g2,
    Examples.run [Examples.activation_AB_1; Examples.phosphorylation_AB_1]
    = Ok [g1; g2] ∧
    sk_arg_count (group_key g1) = sk_arg_count (group_key g2) ∧
    sk_inps (group_key g1) = sk_inps (group_key g2) ∧
    sk_sub_count (group_key g1) = sk_sub_count (group_key g2) ∧
    group_verb g1 = "Phosphorylation" ∧ group_verb g2 = "Activation" ∧
    ¬ (str_lt (group_verb g1) (group_verb g2) = true).
Proof.
  eexists _, _. split; [vm_compute; reflexivity|]. by vm_compute.
Qed.

(** ** The end-to-end scenario *)

Lemma keys_of_complex set_iter members s :
  body s = Complex members →
  keys_of_stmt set_iter s
  = Ok (complex_keys (set_iter (name <$> members)) "Complex" s).
Proof.
  intros Hb. unfold keys_of_stmt, class_name, agent_list. by rewrite Hb.
Qed.

(** Every iteration order of the set of the names in [l], where [l] has
    no duplicates. *)
Lemma set_iter_cases (set_iter : list string → list string) l :
  (∀ l, set_iter l ≡ₚ remove_dups l) → remove_dups l = l →
  set_iter l ∈ permutations l.
Proof.
  intros Hperm Hl. apply permutations_Permutation.
  rewrite <- Hl at 1. symmetry. apply Hperm.
Qed.

(** C2 (as the code has it).  One direct Complex over [(A, B)] of weight 2
    and one Complex over [{A, B, C}] of weight 5, whatever the iteration
    order of the name sets: the result is the group [(B, A)] and the group
    [(A, B)], each once with weight 7 and both statements, followed by the
    full group [(A, B, C)] of weight 5.  The derived pairs with [C] have no
    direct evidence and are suppressed. *)
Theorem end_to_end_scenario (set_iter : list string → list string)
    (get_hash : Statement → Z) :
  (∀ l, set_iter l ≡ₚ remove_dups l) →
  group_and_sort_statements set_iter get_hash None
    [Examples.complex_AB_2; Examples.complex_ABC_5]
  = Ok [((7%Z, [VStr "B"; VStr "A"], 7%Z, "Complex"), "Complex",
         [Examples.complex_ABC_5; Examples.complex_AB_2]);
        ((7%Z, [VStr "A"; VStr "B"], 7%Z, "Complex"), "Complex",
         [Examples.complex_ABC_5; Examples.complex_AB_2]);
        ((5%Z, [VStr "A"; VStr "B"; VStr "C"], 5%Z, "Complex"), "Complex",
         [Examples.complex_ABC_5])].
Proof.
  intros Hperm.
  pose proof (set_iter_cases set_iter ["A"; "B"] Hperm eq_refl) as H2.
  pose proof (set_iter_cases set_iter ["A"; "B"; "C"] Hperm eq_refl) as H3.
  unfold group_and_sort_statements, accumulate_all, _get_keyed_stmts.
  cbn [forM].
  rewrite (keys_of_complex set_iter [Examples.agA; Examples.agB]
             Examples.complex_AB_2 eq_refl).
  rewrite (keys_of_complex set_iter [Examples.agA; Examples.agB; Examples.agC]
             Examples.complex_ABC_5 eq_refl).
  change (name <$> [Examples.agA; Examples.agB]) with ["A"; "B"].
  change (name <$> [Examples.agA; Examples.agB; Examples.agC])
    with ["A"; "B"; "C"].
  change (permutations ["A"; "B"])
    with [["A"; "B"]; ["B"; "A"]] in H2.
  change (permutations ["A"; "B"; "C"])
    with [["A"; "B"; "C"]; ["B"; "A"; "C"]; ["B"; "C"; "A"];
          ["A"; "C"; "B"]; ["C"; "A"; "B"]; ["C"; "B"; "A"]] in H3.
  repeat (apply elem_of_cons in H2 as [H2|H2]);
    [| |by apply elem_of_nil in H2];
    (repeat (apply elem_of_cons in H3 as [H3|H3]);
       [| | | | | |by apply elem_of_nil in H3]);
    rewrite H2, H3; vm_compute; reflexivity.
Qed.

(** The scenario with sets that iterate in first-insertion order. *)
Lemma end_to_end_scenario_witness :
  Examples.run [Examples.complex_AB_2; Examples.complex_ABC_5]
  = Ok [((7%Z, [VStr "B"; VStr "A"], 7%Z, "Complex"), "Complex",
         [Examples.complex_ABC_5; Examples.complex_AB_2]);
        ((7%Z, [VStr "A"; VStr "B"], 7%Z, "Complex"), "Complex",
         [Examples.complex_ABC_5; Examples.complex_AB_2]);
        ((5%Z, [VStr "A"; VStr "B"; VStr "C"], 5%Z, "Complex"), "Complex",
         [Examples.complex_ABC_5])].
Proof.
  apply (end_to_end_scenario remove_dups (λ _, 0%Z)). intros l. reflexivity.
Defined.

(** The claim as written fails: the result holds no group for [(A, C)]
    (nor for [(B, C)]); both are suppressed. *)
Lemma end_to_end_counterexample :
  ∃ out,
    Examples.run [Examples.complex_AB_2; Examples.complex_ABC_5] = Ok out ∧
    ¬ (∃ g, g ∈ out ∧
            (sk_inps (group_key g) = [VStr "A"; VStr "C"] ∨
             sk_inps (group_key g) = [VStr "B"; VStr "C"])).
Proof.
  eexists. split; [vm_compute; reflexivity|].
  intros (g & Hg & Hk).
  repeat (apply elem_of_cons in Hg as [->|Hg]);
    [..|by apply elem_of_nil in Hg]; by destruct Hk.
Qed.

(** ** Key synthesis *)

Lemma str_le_trans a b c : str_le a b → str_le b c → str_le a c.
Proof.
  unfold str_le. intros H1 H2.
  injection (wo_negtrans _ str_lt_r_order c b a (f_equal Ok H2) (f_equal Ok H1)).
  done.
Qed.

Lemma str_le_antisym a b : str_le a b → str_le b a → a = b.
Proof.
  unfold str_le. intros H1 H2.
  apply (lo_antisym _ str_lt_r_order); unfold str_lt_r; by f_equal.
Qed.

Lemma insert_str_perm x l : insert_str x l ≡ₚ x :: l.
Proof.
  induction l as [|y l IH]; simpl; [done|].
  destruct (str_lt y x); [|done]. rewrite IH. apply Permutation_swap.
Qed.

Lemma sorted_strs_perm l : sorted_strs l ≡ₚ l.
Proof.
  induction l as [|x l IH]; simpl; [done|].
  by rewrite insert_str_perm, IH.
Qed.

Lemma insert_str_sorted x l :
  StronglySorted str_le l → StronglySorted str_le (insert_str x l).
Proof.
  induction 1 as [|y l Hl IH Hy]; simpl; [repeat constructor|].
  destruct (str_lt y x) eqn:Hyx.
  - constructor; [done|]. rewrite insert_str_perm. constructor; [|done].
    unfold str_le. by apply str_lt_asym.
  - constructor; [by constructor|]. constructor; [done|].
    eapply Forall_impl; [exact Hy|]. intros z Hz.
    by apply (str_le_trans x y z).
Qed.

Lemma sorted_strs_sorted l : StronglySorted str_le (sorted_strs l).
Proof.
  induction l as [|x l IH]; simpl; [constructor|]. by apply insert_str_sorted.
Qed.

Lemma sorted_strs_unique l l' : l ≡ₚ l' → sorted_strs l = sorted_strs l'.
Proof.
  intros Hp. apply (StronglySorted_unique_strong str_le).
  - intros. by apply str_le_antisym.
  - apply sorted_strs_sorted.
  - apply sorted_strs_sorted.
  - by rewrite !sorted_strs_perm.
Qed.

Lemma remove_dups_NoDup {A : Type} `{EqDecision A} (l : list A) :
  NoDup l → remove_dups l = l.
Proof.
  induction 1 as [|x l Hx _ IH]; simpl; [done|].
  destruct (decide_rel (∈) x l); [done|by rewrite IH].
Qed.

Section canonical_names.
Context (set_iter : list string → list string).
Hypothesis set_iter_perm : ∀ l, set_iter l ≡ₚ remove_dups l.

(** [sorted(set(names))] of names that are already sorted and distinct
    gives them back. *)
Lemma sorted_set_canonical l :
  let names := sorted_strs (set_iter l) in
  sorted_strs (set_iter names) = names ∧
  length (set_iter names) = length names.
Proof.
  intros names.
  assert (NoDup names) as Hnd.
  { unfold names. rewrite sorted_strs_perm, set_iter_perm.
    apply NoDup_remove_dups. }
  assert (set_iter names ≡ₚ names) as Hp.
  { by rewrite set_iter_perm, remove_dups_NoDup. }
  split; [|by rewrite Hp].
  rewrite (sorted_strs_unique _ _ Hp). unfold names.
  apply sorted_strs_unique, sorted_strs_perm.
Qed.
End canonical_names.

Lemma make_agent_name n :
  ∃ ag, make_agent (VStr n) = Ok ag ∧ name ag = n.
Proof.
  unfold make_agent. destruct (decide (n = "None")) as [->|]; eauto.
Qed.

Lemma forM_make_agent names :
  forM make_agent (VStr <$> names) = Ok (agents_of names).
Proof.
  induction names as [|n names IH]; [done|].
  change (VStr <$> n :: names) with (VStr n :: (VStr <$> names)).
  cbn [forM]. rewrite IH. unfold make_agent, agents_of. rewrite fmap_cons.
  by destruct (decide (n = "None")).
Qed.

Lemma name_agents_of names : name <$> agents_of names = names.
Proof.
  unfold agents_of. rewrite <- list_fmap_compose.
  rewrite <- (list_fmap_id names) at 2. apply list_fmap_ext.
  intros _ n _. simpl. by destruct (decide (n = "None")) as [->|].
Qed.

Lemma forM_make_agent_names (ags : list (option Agent)) :
  forM make_agent ((λ ag, VStr (name ag)) <$> ags)
  = Ok (agents_of (name <$> ags)).
Proof.
  rewrite <- forM_make_agent. f_equal. by rewrite <- list_fmap_compose.
Qed.

#[local] Arguments make_agent : simpl never.

Section round_trip.
Context (set_iter : list string → list string).
Hypothesis set_iter_perm : ∀ l, set_iter l ≡ₚ remove_dups l.

Abbreviation keys_of_stmt := (keys_of_stmt set_iter).

Lemma round_trip_single s key ac sc :
  class_name s ≠ "Complex" →
  keys_of_stmt s = Ok [(key, s)] →
  ∃ s', make_stmt_from_sort_key (ac, key.2, sc, key.1) key.1 = Ok s' ∧
        keys_of_stmt s' = Ok [(key, s')].
Proof.
  intros Hcls Hkeys. unfold Presentation.keys_of_stmt in Hkeys.
  rewrite decide_False in Hkeys by done.
  unfold make_stmt_from_sort_key, sk_inps. cbn [fst snd].
  destruct (decide (class_name s = "Conversion")) as [Hconv|Hconv].
  { inv_bind Hkeys as subj Hsubj. inv_bind Hkeys as obj_from Hfrom.
    inv_bind Hkeys as obj_to Hto. simplify_eq/=. rewrite Hconv.
    rewrite decide_False by done. rewrite decide_True by done.
    destruct (make_agent_name (name subj)) as (ag & Hag & Hname).
    rewrite Hag. cbn. rewrite !forM_make_agent. cbn.
    eexists. split; [done|].
    unfold Presentation.keys_of_stmt. cbn.
    rewrite Hname, !name_agents_of.
    by rewrite !(proj1 (sorted_set_canonical set_iter set_iter_perm _)). }
  destruct (decide (class_name s = "ActiveForm")) as [Hact|Hact].
  { destruct (agent_list s) as [|ag0 ?] eqn:Hags; [done|].
    inv_bind Hkeys as act Hactiv. inv_bind Hkeys as flag Hflag.
    simplify_eq/=. rewrite Hact.
    rewrite !decide_False by done. rewrite decide_True by tauto.
    destruct (make_agent_name (name ag0)) as (ag & Hag & Hname).
    rewrite Hag. cbn. rewrite decide_True by done.
    eexists. split; [done|].
    unfold Presentation.keys_of_stmt. cbn. by rewrite Hname. }
  destruct (decide (class_name s = "HasActivity")) as [Hhas|Hhas].
  { destruct (agent_list s) as [|ag0 ?] eqn:Hags; [done|].
    inv_bind Hkeys as act Hactiv. inv_bind Hkeys as flag Hflag.
    simplify_eq/=. rewrite Hhas.
    rewrite !decide_False by done. rewrite decide_True by tauto.
    destruct (make_agent_name (name ag0)) as (ag & Hag & Hname).
    rewrite Hag. cbn. rewrite decide_False by done.
    eexists. split; [done|].
    unfold Presentation.keys_of_stmt. cbn. by rewrite Hname. }
  simplify_eq/=.
  rewrite !decide_False by tauto. rewrite forM_make_agent_names. cbn.
  eexists. split; [done|].
  unfold Presentation.keys_of_stmt, class_name, agent_list. cbn.
  rewrite !decide_False by done.
  do 4 f_equal.
  change (λ ag, VStr (name ag)) with (VStr ∘ name).
  by rewrite (list_fmap_compose name VStr), name_agents_of,
    <- list_fmap_compose.
Qed.
Lemma round_trip_complex s ac sc :
  let names := sorted_strs (set_iter (name <$> agent_list s)) in
  let key : Key := ("Complex", VStr <$> names) in
  length names ≠ 2%nat →
  ∃ s', make_stmt_from_sort_key (ac, key.2, sc, "Complex") "Complex"
        = Ok s' ∧
        keys_of_stmt s'
        = Ok ((if bool_decide (1 < length names < 6)%nat
               then (λ pair, (("Complex", [VStr pair.1; VStr pair.2]), s'))
                      <$> permutations2 (set_iter names)
               else []) ++ [(key, s')]).
Proof.
  intros names key Hlen.
  destruct (sorted_set_canonical set_iter set_iter_perm
              (name <$> agent_list s)) as [Hsorted Hlength].
  fold names in Hsorted, Hlength. subst key.
  unfold make_stmt_from_sort_key, sk_inps. cbn [fst snd].
  rewrite decide_True by done. rewrite forM_make_agent. cbn.
  eexists. split; [done|].
  unfold Presentation.keys_of_stmt. cbn.
  rewrite ?name_agents_of. unfold complex_keys.
  rewrite decide_True by done.
  rewrite Hlength, Hsorted. by rewrite decide_False by done.
Qed.

End round_trip.



(** ** Mixed sort keys *)

(** C4 (where the code fails).  A Conversion next to a statement without
    evidence over roles that start with the same name: both groups have
    argument weight 0, so the role tuples [('A', 'D')] and
    [('A', ('B',), ('C',))] are compared, and ordering the string ['D']
    against the tuple [('B',)] raises [TypeError].  The same happens, with
    evidence everywhere, between the flag of an ActiveForm key and the third
    name of a Complex key. *)
Theorem sort_raises_on_mixed_keys :
  Examples.run [Examples.conversion_A_B_C_1; Examples.phosphorylation_AD_0]
  = Raise TypeError ∧
  Examples.run [Examples.activeform_A_1; Examples.complex_A_activity_b_1]
  = Raise TypeError.
Proof. split; vm_compute; reflexivity. Qed.

(** ** The filters of [assemble_corpus] *)

(** *** Epistemics *)

(** C10.  A statement without evidence is kept by [filter_no_hypothesis]
    and by [filter_no_negated]: with no evidence the loop binds no [ev], and
    the statement is not classified as all-hypothesis or all-negated. *)
Theorem empty_evidence_kept (stmts_in : list Statement) (st : Statement) :
  st ∈ stmts_in → evidence st = [] →
  st ∈ filter_no_hypothesis stmts_in ∧ st ∈ filter_no_negated stmts_in.
Proof.
  intros Hin Hev.
  assert (∀ flag, all_flagged flag st = false) as Hflag.
  { intros flag. unfold all_flagged. by rewrite Hev. }
  unfold filter_no_hypothesis, filter_no_negated.
  split; apply list_elem_of_filter; (split; [|done]); by rewrite Hflag.
Qed.

Lemma empty_evidence_kept_witness :
  Examples.no_evidence ∈ filter_no_hypothesis [Examples.no_evidence] ∧
  Examples.no_evidence ∈ filter_no_negated [Examples.no_evidence].
Proof.
  apply empty_evidence_kept; [apply list_elem_of_here|reflexivity].
Defined.

(** *** Policies *)

(** C9 (where the code fails).  With a policy other than ['one'] and
    ['all'] (here ['any']), [filter_by_db_refs] logs an error and returns no
    value, for every input; [filter_concept_names] and [filter_gene_list]
    (without [remove_bound]), on the same policy, log an error and return
    their input. *)
Theorem filter_by_db_refs_returns_None (stmts_in : list Statement)
    (σ : Store) (addresses : list nat) (family_ids : string → list string)
    (namespace : string) (values name_list : list string)
    (invert match_suffix allow_families : bool) :
  filter_by_db_refs stmts_in namespace values "any" invert match_suffix
  = ([ERROR], Ok None) ∧
  filter_concept_names stmts_in name_list "any" invert
  = ([ERROR; INFO], stmts_in) ∧
  filter_gene_list family_ids σ addresses name_list "any" allow_families
    false invert
  = ([ERROR; INFO], Ok (σ, addresses)).
Proof. done. Qed.

(** *** Applying a filter twice *)

Lemma list_filter_idemp {A : Type} (P : A → Prop) `{∀ x, Decision (P x)}
    (l : list A) :
  filter P (filter P l) = filter P l.
Proof.
  induction l as [|x l IH]; [done|].
  rewrite filter_cons. case_decide as HP; [|done].
  rewrite filter_cons, decide_True by done. by rewrite IH.
Qed.

Lemma filterM_elem {A : Type} (keep : A → result bool) l out x :
  filterM keep l = Ok out → x ∈ out ↔ x ∈ l ∧ keep x = Ok true.
Proof.
  revert out; induction l as [|y l IH]; intros out H; simpl in H.
  - injection H as <-. split; [by intros ?%elem_of_nil|].
    by intros [?%elem_of_nil _].
  - inv_bind H as b Hb. inv_bind H as out' Hout. injection H as <-.
    specialize (IH _ Hout). destruct b; split.
    + intros [->|Hx]%elem_of_cons; [split; [by left|done]|].
      apply IH in Hx as [? ?]. split; [by right|done].
    + intros [[->|Hx]%elem_of_cons Hk]; [by left|].
      right. by apply IH.
    + intros Hx. apply IH in Hx as [? ?]. split; [by right|done].
    + intros [[->|Hx]%elem_of_cons Hk]; [congruence|]. by apply IH.
Qed.

Lemma filterM_idemp {A : Type} (keep : A → result bool) l out :
  filterM keep l = Ok out → filterM keep out = Ok out.
Proof.
  revert out; induction l as [|y l IH]; intros out H; simpl in H.
  - by injection H as <-.
  - inv_bind H as b Hb. inv_bind H as out' Hout. injection H as <-.
    specialize (IH _ Hout). destruct b; [|done].
    simpl. by rewrite Hb, IH.
Qed.

(** An index built by a loop over the statements is the same on the
    filtered list when no dropped statement contributes to it. *)
Lemma index_of_filtered {S : Type} (index_step : S → Statement → result S)
    (keep : Statement → result bool) (inert : Statement → Prop) :
  (∀ su s su', inert s → index_step su s = Ok su' → su' = su) →
  ∀ l su su' out,
    foldM index_step su l = Ok su' → filterM keep l = Ok out →
    (∀ s, s ∈ l → s ∉ out → inert s) →
    foldM index_step su out = Ok su'.
Proof.
  intros Hinert. induction l as [|x l IH]; intros su su' out Hf Hk Hdrop;
    simpl in Hf, Hk.
  - by simplify_eq.
  - inv_bind Hf as su1 Hsu1. inv_bind Hk as b Hb. inv_bind Hk as out' Hout'.
    injection Hk as <-.
    assert (∀ s, s ∈ l → s ∉ out' → inert s) as Hdrop'.
    { intros s Hs Hnot. apply Hdrop; [by right|]. destruct b; [|done].
      intros [->|?]%elem_of_cons; [|done]. apply Hnot.
      apply (filterM_elem _ _ _ _ Hout'). done. }
    destruct b.
    + simpl. rewrite Hsu1. simpl. by eapply IH.
    + assert (su1 = su) as ->.
      { eapply Hinert; [|exact Hsu1]. apply Hdrop; [by left|].
        intros [_ Hx]%(filterM_elem _ _ _ _ Hout'). congruence. }
      by eapply IH.
Qed.

Section inconsequential_facts.
Context (isinstance_Modification : string → bool).
Context (isinstance_RemoveModification : string → bool).
Context (isinstance_RegulateActivity : string → bool).
Context (modclass_to_modtype : gmap string string).
Context (modtype_to_inverse : gmap string string).

Abbreviation filter_inconsequential_mods :=
  (filter_inconsequential_mods isinstance_Modification
     isinstance_RemoveModification modclass_to_modtype modtype_to_inverse).
Abbreviation filter_inconsequential_acts :=
  (filter_inconsequential_acts isinstance_RegulateActivity).

Lemma add_mods_inert su s su' :
  no_mods s → foldM add_mods su (agent_list s) = Ok su' → su' = su.
Proof.
  unfold no_mods. revert su. induction (agent_list s) as [|ag ags IH];
    intros su Hno H; simpl in H.
  - by simplify_eq.
  - inv_bind H as su1 Hsu1. apply IH in H.
    + subst su'. destruct ag as [a|]; simpl in Hsu1; [|by simplify_eq].
      inv_bind Hsu1 as mods Hmods. unfold get_mods in Hmods.
      destruct (is_Agent a); [|done]. simplify_eq.
      rewrite (Hno a); [done|by left].
    + intros a Ha. apply Hno. by right.
Qed.

Lemma add_acts_inert su s su' :
  no_acts s → foldM add_acts su (agent_list s) = Ok su' → su' = su.
Proof.
  unfold no_acts. revert su. induction (agent_list s) as [|ag ags IH];
    intros su Hno H; simpl in H.
  - by simplify_eq.
  - inv_bind H as su1 Hsu1. apply IH in H.
    + subst su'. destruct ag as [a|]; simpl in Hsu1; [|by simplify_eq].
      inv_bind Hsu1 as act Hact. unfold get_agent_activity in Hact.
      destruct (is_Agent a); [|done]. simplify_eq.
      rewrite (Hno a) in Hsu1; [by simplify_eq|by left].
    + intros a Ha. apply Hno. by right.
Qed.

Lemma filter_inconsequential_mods_twice stmts_in out su :
  filter_inconsequential_mods stmts_in None = Ok (out, su) →
  (∀ s, s ∈ stmts_in → s ∉ out → no_mods s) →
  filter_inconsequential_mods out None = Ok (out, su).
Proof.
  unfold AssembleCorpus.filter_inconsequential_mods, mods_used.
  intros H Hdrop. inv_bind H as su' Hsu. inv_bind Hsu as su0 Hsu0.
  inv_bind H as out' Hout. simplify_eq/=.
  rewrite (index_of_filtered _ _ no_mods add_mods_inert _ _ _ _
             Hsu0 Hout Hdrop). simpl.
  by rewrite (filterM_idemp _ _ _ Hout).
Qed.

Lemma filter_inconsequential_acts_twice stmts_in out su :
  filter_inconsequential_acts stmts_in None = Ok (out, su) →
  (∀ s, s ∈ stmts_in → s ∉ out → no_acts s) →
  filter_inconsequential_acts out None = Ok (out, su).
Proof.
  unfold AssembleCorpus.filter_inconsequential_acts, acts_used.
  intros H Hdrop. inv_bind H as su' Hsu. inv_bind Hsu as su0 Hsu0.
  inv_bind H as out' Hout. simplify_eq/=.
  rewrite (index_of_filtered _ _ no_acts add_acts_inert _ _ _ _
             Hsu0 Hout Hdrop). simpl.
  by rewrite (filterM_idemp _ _ _ Hout).
Qed.

End inconsequential_facts.



(** *** [filter_belief] and the refinement links *)

Section belief.
Context (σ0 : Store) (belief_cutoff : Q).

Abbreviation belief_inv := (belief_inv σ0 belief_cutoff).

Lemma belief_inv_belief acc i :
  belief_inv acc → belief (acc.1 i) = belief (σ0 i).
Proof.
  intros [Hframe _ _]. specialize (Hframe i).
  by apply (f_equal belief) in Hframe.
Qed.

Lemma believed_inv acc (l : list nat) :
  belief_inv acc →
  filter (believed belief_cutoff acc.1) l
  = filter (believed belief_cutoff σ0) l.
Proof.
  intros Hinv. apply list_filter_iff. intros j. unfold believed.
  by rewrite (belief_inv_belief _ _ Hinv).
Qed.

Lemma belief_step_inv acc stmt :
  belief_inv acc →
  belief_step belief_cutoff acc stmt
  = (if Qlt_bool (belief (σ0 stmt)) belief_cutoff
     then acc
     else ((belief_step belief_cutoff acc stmt).1, acc.2 ++ [stmt])) ∧
  belief_inv (belief_step belief_cutoff acc stmt).
Proof.
  intros Hinv. destruct acc as [σ out]. unfold belief_step. cbn [fst snd].
  pose proof (belief_inv_belief (σ, out) stmt Hinv) as Hb.
  cbn [fst] in Hb. rewrite Hb.
  destruct (Qlt_bool (belief (σ0 stmt)) belief_cutoff); [done|].
  split; [done|].
  pose proof (λ l, believed_inv (σ, out) l Hinv) as Hf.
  cbn [fst] in Hf. rewrite !Hf.
  destruct Hinv as [Hframe Hdropped Hkept]. cbn [fst snd] in *.
  assert (supports (σ stmt) = supports (σ0 stmt) ∨ stmt ∈ out) as Hs.
  { destruct (decide (stmt ∈ out)); [by right|left].
    by rewrite Hdropped. }
  split; cbn [fst snd].
  - intros i. destruct (decide (stmt = i)) as [->|Hne].
    + rewrite fn_lookup_insert. apply Hframe.
    + rewrite fn_lookup_insert_ne by done. apply Hframe.
  - intros i Hi. rewrite fn_lookup_insert_ne; [apply Hdropped|].
    + intros Hin. apply Hi, elem_of_app. by left.
    + intros ->. apply Hi, elem_of_app. right. by left.
  - intros i Hi. destruct (decide (stmt = i)) as [->|Hne].
    + rewrite fn_lookup_insert. cbn.
      destruct (decide (i ∈ out)) as [Hin|Hnin].
      * destruct (Hkept i Hin) as [-> ->].
        by rewrite !list_filter_idemp.
      * by rewrite Hdropped.
    + rewrite fn_lookup_insert_ne by done. apply Hkept.
      apply elem_of_app in Hi as [?|?%list_elem_of_singleton]; done.
Qed.

Lemma filter_belief_fold l acc :
  belief_inv acc →
  (foldl (belief_step belief_cutoff) acc l).2
  = acc.2 ++ filter (λ i, negb (Qlt_bool (belief (σ0 i)) belief_cutoff)) l ∧
  belief_inv (foldl (belief_step belief_cutoff) acc l).
Proof.
  revert acc. induction l as [|stmt l IH]; intros acc Hinv; simpl.
  - by rewrite app_nil_r.
  - destruct (belief_step_inv acc stmt Hinv) as [Hstep Hinv'].
    destruct (IH _ Hinv') as [Hout Hinv'']. split; [|done].
    rewrite Hout, Hstep, filter_cons.
    destruct (Qlt_bool (belief (σ0 stmt)) belief_cutoff); simpl; [done|].
    by rewrite <- app_assoc.
Qed.
End belief.

(** *** Pruning bound conditions *)

Lemma agent_list_set_agent_list s ags :
  length ags = length (agent_list s) →
  agent_list (set_agent_list s ags) = ags.
Proof.
  unfold agent_list, set_agent_list. cbn [body].
  destruct (body s) as [ms|subj f t|ag act fl|ag act fl|cls roles];
    cbn [body_agent_list body_set_agent_list]; intros Hlen; try done.
  - destruct ags as [|h tl]; [done|]. cbn. by rewrite take_drop.
  - by destruct ags as [|h [|??]].
  - by destruct ags as [|h [|??]].
Qed.

Lemma set_agent_list_twice s a b :
  length a = length (agent_list s) →
  set_agent_list (set_agent_list s a) b = set_agent_list s b.
Proof.
  unfold agent_list, set_agent_list. cbn [body residue position obj_activity
    evidence belief supports supported_by].
  destruct (body s) as [ms|subj f t|ag act fl|ag act fl|cls roles];
    cbn [body_agent_list body_set_agent_list]; intros Hlen; try done.
  destruct a as [|h tl]; [done|]. cbn [tail length] in *.
  rewrite length_app in Hlen. by rewrite length_take, Nat.min_l by lia.
Qed.

Lemma set_agent_list_id s : set_agent_list s (agent_list s) = s.
Proof.
  unfold agent_list, set_agent_list. destruct s as [b ? ? ? ? ? ? ?].
  cbn. f_equal.
  destruct b as [ms|subj f t|ag act fl|ag act fl|cls roles]; cbn; try done.
  by rewrite take_app_length, drop_app_length.
Qed.

Lemma pruned_agent_idemp k a :
  pruned_agent k (pruned_agent k a) = pruned_agent k a.
Proof.
  unfold pruned_agent, set_bound_conditions. cbn.
  by rewrite list_filter_idemp.
Qed.

Lemma pruned_stmt_idemp k s : pruned_stmt k (pruned_stmt k s) = pruned_stmt k s.
Proof.
  unfold pruned_stmt.
  rewrite agent_list_set_agent_list by (by rewrite length_fmap).
  rewrite set_agent_list_twice by (by rewrite length_fmap).
  f_equal. rewrite <- list_fmap_compose. apply list_fmap_ext.
  intros _ [a|] _; [|done]. cbn. by rewrite pruned_agent_idemp.
Qed.

Lemma prune_bound_spec k s s' :
  prune_bound k s = Ok s' → s' = pruned_stmt k s.
Proof.
  unfold prune_bound, pruned_stmt. intros H. inv_bind H as ags Hags.
  injection H as <-. f_equal.
  apply forM_Ok_Forall2 in Hags.
  induction Hags as [|[a|] ag' ags ags' Hag _ IH]; [done|..].
  - rewrite fmap_cons. f_equal; [|done]. cbn in Hag.
    unfold _remove_bound_conditions, get_bound_conditions in Hag.
    destruct (is_Agent a); [|done]. by simplify_eq/=.
  - done.
Qed.

Section prune_all.
Context (k : Agent → bool) (σ0 : Store).

Lemma prune_all_spec l (σ σ' : Store) :
  (∀ i, σ i = σ0 i ∨ σ i = pruned_stmt k (σ0 i)) →
  prune_all k σ l = Ok σ' →
  (∀ i, σ' i = σ0 i ∨ σ' i = pruned_stmt k (σ0 i)) ∧
  (∀ i, i ∈ l → σ' i = pruned_stmt k (σ0 i)) ∧
  (∀ i, i ∉ l → σ' i = σ i).
Proof.
  unfold prune_all. revert σ.
  induction l as [|x l IH]; intros σ Hinv H; simpl in H.
  - injection H as <-. split_and!; [done| |done].
    by intros i ?%elem_of_nil.
  - inv_bind H as σ1 Hσ1. inv_bind Hσ1 as s' Hs'. injection Hσ1 as <-.
    apply prune_bound_spec in Hs'.
    assert (s' = pruned_stmt k (σ0 x)) as ->.
    { destruct (Hinv x) as [Hx|Hx]; rewrite Hx in Hs'; [done|].
      by rewrite pruned_stmt_idemp in Hs'. }
    destruct (IH (<[x := pruned_stmt k (σ0 x)]> σ)) as (H1 & H2 & H3);
      [|done|].
    { intros i. destruct (decide (x = i)) as [->|Hne].
      - right. apply fn_lookup_insert.
      - rewrite fn_lookup_insert_ne by done. apply Hinv. }
    split_and!; [done|..].
    + intros i Hi. destruct (decide (i ∈ l)); [by apply H2|].
      apply elem_of_cons in Hi as [->|?]; [|done].
      rewrite H3 by done. apply fn_lookup_insert.
    + intros i Hi. rewrite H3.
      * apply fn_lookup_insert_ne. intros ->. apply Hi. by left.
      * intros ?. apply Hi. by right.
Qed.
End prune_all.

Lemma select_no_store_change σ remove_bound invert test l out :
  select σ remove_bound invert test l = Ok out → out `sublist_of` l.
Proof.
  unfold select. generalize (λ st : nat,
    (if negb remove_bound
     then agent_list_with_bound_condition_agents (σ st)
     else Ok (agent_list (σ st)))
    ≫= λ agent_list0, Ok (keep_if (test agent_list0) invert)).
  intros keep. revert out. induction l as [|x l IH]; intros out H; simpl in H.
  - by injection H as <-.
  - inv_bind H as b Hb. inv_bind H as out' Hout'. injection H as <-.
    destruct b; [apply sublist_skip|apply sublist_cons]; auto.
Qed.




(** *** [filter_grounded_only] with [remove_bound] *)

Section grounded.
Context (score_threshold : option Q).

Abbreviation criterion := (λ x, _agent_is_grounded x score_threshold).

Lemma criterion_db_refs a a' :
  a_db_refs a' = a_db_refs a → criterion a' = criterion a.
Proof. unfold _agent_is_grounded. by intros ->. Qed.

Lemma role_ok_pruned ag' ag :
  maybe_pruned criterion ag' ag →
  role_ok criterion ag' = role_ok criterion ag.
Proof.
  intros [->| ->]; [done|]. destruct ag as [a|]; [|done]. cbn.
  apply criterion_db_refs. by destruct (is_Agent a).
Qed.

Lemma top_level_ok_pruned ags' ags :
  Forall2 (maybe_pruned criterion) ags' ags →
  top_level_ok criterion ags' = top_level_ok criterion ags.
Proof.
  unfold top_level_ok.
  induction 1 as [|ag' ag ags' ags Hag _ IH]; [done|].
  cbn [forallb]. by rewrite (role_ok_pruned _ _ Hag), IH.
Qed.

Lemma pruned_role_idemp ag :
  pruned_role criterion (pruned_role criterion ag)
  = pruned_role criterion ag.
Proof.
  destruct ag as [a|]; [|done]. cbn. f_equal.
  destruct (is_Agent a) eqn:Ha; cbn; rewrite Ha; [|done].
  apply pruned_agent_idemp.
Qed.

Lemma maybe_pruned_trans ag'' ag' ag :
  maybe_pruned criterion ag'' ag' → maybe_pruned criterion ag' ag →
  maybe_pruned criterion ag'' ag.
Proof.
  intros [->| ->] [->| ->]; [by left|by right|by right|].
  right. apply pruned_role_idemp.
Qed.

Lemma pruned_role_maybe_pruned ag' ag :
  maybe_pruned criterion ag' ag →
  pruned_role criterion ag' = pruned_role criterion ag.
Proof. intros [->| ->]; [done|apply pruned_role_idemp]. Qed.

Lemma pruned_stays_pruned ags' ags :
  Forall2 (maybe_pruned criterion) ags' (pruned_role criterion <$> ags) →
  ags' = pruned_role criterion <$> ags.
Proof.
  revert ags'. induction ags as [|ag ags IH]; intros ags' H.
  - by inv H.
  - rewrite fmap_cons in H. inv H as [|x ? l ? Hx Hl]. rewrite fmap_cons.
    f_equal; [|by apply IH].
    destruct Hx as [->| ->]; [done|apply pruned_role_idemp].
Qed.

Lemma pruned_of_maybe_pruned ags' ags :
  Forall2 (maybe_pruned criterion) ags' ags →
  pruned_role criterion <$> ags' = pruned_role criterion <$> ags.
Proof.
  induction 1 as [|ag' ag ags' ags Hag _ IH]; [done|].
  rewrite !fmap_cons. f_equal; [|done].
  by apply pruned_role_maybe_pruned.
Qed.

(** The loop over the agents of one statement. *)
Lemma grounded_agents_remove_bound ags :
  ∃ ags',
    grounded_agents criterion true ags
    = Ok (top_level_ok criterion ags, ags') ∧
    Forall2 (maybe_pruned criterion) ags' ags ∧
    (top_level_ok criterion ags = true →
     ags' = pruned_role criterion <$> ags).
Proof.
  induction ags as [|[a|] ags (ags' & IH & Hrel & Hall)].
  - exists []. by split_and!.
  - cbn [grounded_agents top_level_ok forallb role_ok].
    destruct (criterion a) eqn:Hc; cbn [negb andb].
    + fold (top_level_ok criterion ags).
      destruct (is_Agent a) eqn:Ha; cbn [negb].
      * unfold _remove_bound_conditions, get_bound_conditions.
        rewrite Ha. cbn. rewrite IH. cbn.
        eexists. split; [done|]. split.
        -- constructor; [|done]. right. cbn. by rewrite Ha.
        -- intros Hok. rewrite ?fmap_cons, <- Hall by done. cbn.
           by rewrite ?Ha.
      * rewrite IH. cbn. eexists. split; [done|]. split.
        -- constructor; [by left|done].
        -- intros Hok. rewrite ?fmap_cons, <- Hall by done. cbn.
           by rewrite ?Ha.
    + eexists. split; [done|]. split; [|done].
      apply Forall2_same_length_lookup. split; [done|].
      intros i x y Hx Hy. left. congruence.
  - cbn [grounded_agents top_level_ok forallb andb role_ok].
    fold (top_level_ok criterion ags). rewrite IH. cbn.
    eexists. split; [done|]. split.
    + constructor; [by left|done].
    + intros Hok. by rewrite ?fmap_cons, <- Hall.
Qed.

Section loop.
Context (σ0 : Store).

Abbreviation grounded_inv := (grounded_inv score_threshold σ0).

Lemma grounded_step_inv acc st :
  grounded_inv acc →
  ∃ σ',
    grounded_step score_threshold true acc st
    = Ok (σ', if top_level_ok criterion (agent_list (σ0 st))
              then acc.2 ++ [st] else acc.2) ∧
    grounded_inv (σ', if top_level_ok criterion (agent_list (σ0 st))
                      then acc.2 ++ [st] else acc.2) ∧
    (∀ i, i ≠ st → σ' i = acc.1 i).
Proof.
  intros [Hframe Hagents Hkept]. destruct acc as [σ out].
  cbn [fst snd] in *. unfold grounded_step. cbn [fst snd].
  destruct (grounded_agents_remove_bound (agent_list (σ st)))
    as (ags' & -> & Hrel & Hall). cbn.
  rewrite (top_level_ok_pruned _ _ (Hagents st)) in Hall |- *.
  eexists. split; [done|].
  assert (Forall2 (maybe_pruned criterion) ags' (agent_list (σ0 st)))
    as Hrel0.
  { eapply Forall2_trans; [|exact Hrel|exact (Hagents st)].
    intros x y z. apply maybe_pruned_trans. }
  assert (length ags' = length (agent_list (σ0 st))) as Hlen
    by by eapply Forall2_length.
  assert (set_agent_list (σ st) ags' = set_agent_list (σ0 st) ags') as Hset.
  { transitivity (set_agent_list
                    (set_agent_list (σ0 st) (agent_list (σ st))) ags').
    - by rewrite <- Hframe.
    - apply set_agent_list_twice.
      exact (Forall2_length _ _ _ (Hagents st)). }
  split; [|by intros i Hne; rewrite fn_lookup_insert_ne].
  split; cbn [fst snd].
  - intros i. destruct (decide (st = i)) as [->|Hne].
    + rewrite fn_lookup_insert, Hset.
      by rewrite agent_list_set_agent_list.
    + rewrite fn_lookup_insert_ne by done. apply Hframe.
  - intros i. destruct (decide (st = i)) as [->|Hne].
    + rewrite fn_lookup_insert, Hset.
      by rewrite agent_list_set_agent_list.
    + rewrite fn_lookup_insert_ne by done. apply Hagents.
  - intros i Hi. destruct (decide (st = i)) as [->|Hne].
    + rewrite fn_lookup_insert, Hset.
      rewrite agent_list_set_agent_list by done.
      destruct (top_level_ok criterion (agent_list (σ0 i))) eqn:Hok.
      * rewrite Hall by done. apply pruned_of_maybe_pruned, Hagents.
      * apply pruned_stays_pruned. by rewrite <- (Hkept i Hi).
    + rewrite fn_lookup_insert_ne by done. apply Hkept.
      destruct (top_level_ok criterion (agent_list (σ0 st))); [|done].
      apply elem_of_app in Hi as [?|?%list_elem_of_singleton]; done.
Qed.

Lemma filter_grounded_fold l acc :
  grounded_inv acc →
  ∃ σ',
    foldM (grounded_step score_threshold true) acc l
    = Ok (σ', acc.2 ++ filter (λ st, top_level_ok criterion
                                        (agent_list (σ0 st))) l) ∧
    grounded_inv (σ', acc.2 ++ filter (λ st, top_level_ok criterion
                                                (agent_list (σ0 st))) l) ∧
    (∀ i, i ∉ l → σ' i = acc.1 i).
Proof.
  revert acc. induction l as [|st l IH]; intros acc Hinv.
  - exists acc.1. cbn. rewrite app_nil_r. by destruct acc.
  - destruct (grounded_step_inv acc st Hinv) as (σ1 & Hstep & Hinv1 & Hne).
    destruct (IH _ Hinv1) as (σ' & Hfold & Hinv' & Hnotin).
    cbn [fst snd] in *. exists σ'. rewrite filter_cons.
    cbn [foldM]. rewrite Hstep, bind_Ok_l.
    destruct (top_level_ok criterion (agent_list (σ0 st))) eqn:Hok.
    + rewrite decide_True by done.
      rewrite <- !app_assoc in *. cbn [app] in *. split_and!; [done..|].
      intros i Hi. rewrite Hnotin, Hne; [done|..];
        intros ?; apply Hi; subst; by constructor.
    + rewrite decide_False by (by intros ?).
      split_and!; [done..|].
      intros i Hi. rewrite Hnotin, Hne; [done|..];
        intros ?; apply Hi; subst; by constructor.
Qed.
End loop.

End grounded.



(** ** More on loops and lists *)

Lemma foldM_app {A S : Type} (f : S → A → result S) l1 l2 s :
  foldM f s (l1 ++ l2) = (s' ← foldM f s l1; foldM f s' l2).
Proof.
  revert s. induction l1 as [|x l1 IH]; intros s; [done|].
  cbn [app foldM]. destruct (f s x) as [s1|e]; [|done]. cbn. apply IH.
Qed.

Lemma foldM_total {A S : Type} (f : S → A → result S) l s :
  (∀ s x, x ∈ l → ∃ s', f s x = Ok s') → ∃ s', foldM f s l = Ok s'.
Proof.
  revert s. induction l as [|x l IH]; intros s Hf; [by eexists|].
  cbn [foldM]. destruct (Hf s x) as [s1 ->]; [by left|].
  rewrite bind_Ok_l. apply IH. intros s2 y Hy. apply Hf. by right.
Qed.

(** A loop that only adds to an index: what the index holds afterwards is
    what it held, and what each item adds. *)
Lemma foldM_grows {A S K V : Type} (holds : S → K → V → Prop)
    (step : S → A → result S) (adds : A → K → V → Prop) :
  (∀ s x s', step s x = Ok s' →
             ∀ n m, holds s' n m ↔ holds s n m ∨ adds x n m) →
  ∀ l s s', foldM step s l = Ok s' →
            ∀ n m, holds s' n m ↔ holds s n m ∨ ∃ x, x ∈ l ∧ adds x n m.
Proof.
  intros Hstep. induction l as [|x l IH]; intros s s' H n m; simpl in H.
  - injection H as <-. split; [by left|].
    by intros [?|(x & ?%elem_of_nil & _)].
  - inv_bind H as s1 Hs1. rewrite (IH _ _ H), (Hstep _ _ _ Hs1). split.
    + intros [[?|?]|(y & ? & ?)]; [by left|right..].
      * exists x. split; [by left|done].
      * exists y. split; [by right|done].
    + intros [?|(y & [->|?]%elem_of_cons & ?)];
        [by left; left|by left; right|right; by exists y].
Qed.

Lemma foldl_grows {A S K V : Type} (holds : S → K → V → Prop)
    (step : S → A → S) (adds : A → K → V → Prop) :
  (∀ s x n m, holds (step s x) n m ↔ holds s n m ∨ adds x n m) →
  ∀ l s n m, holds (foldl step s l) n m
             ↔ holds s n m ∨ ∃ x, x ∈ l ∧ adds x n m.
Proof.
  intros Hstep. induction l as [|x l IH]; intros s n m; cbn [foldl].
  - split; [by left|]. by intros [?|(x & ?%elem_of_nil & _)].
  - rewrite IH, Hstep. split.
    + intros [[?|?]|(y & ? & ?)]; [by left|right..].
      * exists x. split; [by left|done].
      * exists y. split; [by right|done].
    + intros [?|(y & [->|?]%elem_of_cons & ?)];
        [by left; left|by left; right|right; by exists y].
Qed.

Lemma foldl_append_filter {A : Type} (P : A → Prop) `{∀ x, Decision (P x)}
    (step : list A → A → list A) :
  (∀ acc x, step acc x = if decide (P x) then acc ++ [x] else acc) →
  ∀ l acc, foldl step acc l = acc ++ filter P l.
Proof.
  intros Hstep. induction l as [|x l IH]; intros acc; simpl.
  - by rewrite app_nil_r.
  - rewrite IH, Hstep, filter_cons. case_decide; [|done].
    by rewrite <- app_assoc.
Qed.

Lemma forM_raise {A B : Type} (f : A → result B) l e :
  forM f l = Raise e → ∃ x, x ∈ l ∧ f x = Raise e.
Proof.
  induction l as [|x l IH]; [done|]. cbn [forM].
  destruct (f x) as [y|e'] eqn:Hx; cbn.
  - destruct (forM f l) as [ys|e'] eqn:Hl; cbn; [done|].
    intros [= ->]. destruct IH as (z & ? & ?); [done|].
    exists z. split; [by right|done].
  - intros [= ->]. exists x. split; [by left|done].
Qed.

Lemma forM_raises {A B : Type} (f : A → result B) l x e :
  x ∈ l → f x = Raise e → ∃ e', forM f l = Raise e'.
Proof.
  induction l as [|y l IH]; intros Hx Hk; [by apply elem_of_nil in Hx|].
  cbn [forM]. destruct (f y) as [b|e'] eqn:Hy; cbn; [|by eexists].
  apply elem_of_cons in Hx as [->|Hx]; [congruence|].
  destruct (IH Hx Hk) as [e' ->]. by eexists.
Qed.

Lemma forM_fmap {A B C : Type} (f : A → result B) (g : B → C) l :
  forM (λ x, fmap (M:=result) g (f x)) l
  = fmap (M:=result) (fmap (M:=list) g) (forM f l).
Proof.
  induction l as [|x l IH]; [done|]. cbn [forM]. rewrite IH.
  destruct (f x) as [y|e]; [|done]. cbn.
  by destruct (forM f l).
Qed.

Lemma filterM_Ok_filter {A : Type} (keep : A → result bool) (f : A → bool) l :
  (∀ x, x ∈ l → keep x = Ok (f x)) →
  filterM keep l = Ok (filter (λ x, f x) l).
Proof.
  induction l as [|x l IH]; intros Hk; [done|].
  cbn [filterM]. rewrite Hk by (by left). rewrite bind_Ok_l.
  rewrite IH by (intros y Hy; apply Hk; by right). rewrite bind_Ok_l.
  rewrite filter_cons. by destruct (f x).
Qed.

Lemma filterM_raises {A : Type} (keep : A → result bool) l x e :
  x ∈ l → keep x = Raise e → ∃ e', filterM keep l = Raise e'.
Proof.
  induction l as [|y l IH]; intros Hx Hk; [by apply elem_of_nil in Hx|].
  cbn [filterM]. destruct (keep y) as [b|e'] eqn:Hy; cbn; [|by eexists].
  apply elem_of_cons in Hx as [->|Hx]; [congruence|].
  destruct (IH Hx Hk) as [e' ->]. by eexists.
Qed.

Lemma filterM_raise {A : Type} (keep : A → result bool) l e :
  filterM keep l = Raise e → ∃ x, x ∈ l ∧ keep x = Raise e.
Proof.
  induction l as [|y l IH]; [done|]. cbn [filterM].
  destruct (keep y) as [b|e'] eqn:Hy; cbn.
  - destruct (filterM keep l) as [out|e'] eqn:Hl; cbn; [done|].
    intros [= ->]. destruct IH as (x & ? & ?); [done|].
    exists x. split; [by right|done].
  - intros [= ->]. exists y. split; [by left|done].
Qed.

Lemma filterM_Ok_all {A : Type} (keep : A → result bool) l out x :
  filterM keep l = Ok out → x ∈ l → ∃ b, keep x = Ok b.
Proof.
  intros H Hx. destruct (keep x) as [b|e] eqn:Hk; [by eexists|].
  destruct (filterM_raises keep l x e Hx Hk) as [e' He']. congruence.
Qed.

Lemma filter_partition {A : Type} (P : A → Prop) `{∀ x, Decision (P x)}
    (l : list A) :
  filter P l ++ filter (λ x, ¬ P x) l ≡ₚ l.
Proof.
  induction l as [|x l IH]; [done|].
  rewrite !filter_cons. destruct (decide (P x)) as [HP|HP].
  - rewrite decide_False by auto. cbn. by rewrite IH.
  - rewrite decide_True by done. by rewrite <- Permutation_middle, IH.
Qed.

Lemma filter_ext_elem {A : Type} (P Q : A → Prop) `{∀ x, Decision (P x)}
    `{∀ x, Decision (Q x)} (l : list A) :
  (∀ x, x ∈ l → P x ↔ Q x) → filter P l = filter Q l.
Proof.
  induction l as [|x l IH]; intros Hext; [done|].
  rewrite !filter_cons, IH by (intros y Hy; apply Hext; by right).
  destruct (decide (P x)) as [HP|HP].
  - by rewrite decide_True by (by apply Hext; [left|]).
  - rewrite decide_False; [done|]. intros HQ. apply HP, Hext; [by left|done].
Qed.

Lemma filter_sublist_impl {A : Type} (P Q : A → Prop)
    `{∀ x, Decision (P x)} `{∀ x, Decision (Q x)} (l : list A) :
  (∀ x, x ∈ l → P x → Q x) → filter P l `sublist_of` filter Q l.
Proof.
  induction l as [|x l IH]; intros Himp; [done|].
  assert (filter P l `sublist_of` filter Q l) as Hsub.
  { apply IH. intros y Hy. apply Himp. by right. }
  rewrite !filter_cons. destruct (decide (P x)) as [HP|HP].
  - rewrite decide_True by (apply Himp; [by left|done]).
    by apply sublist_skip.
  - destruct (decide (Q x)); [by apply sublist_cons|done].
Qed.

Lemma filter_filter_impl {A : Type} (P Q : A → Prop)
    `{∀ x, Decision (P x)} `{∀ x, Decision (Q x)} (l : list A) :
  (∀ x, Q x → P x) → filter P (filter Q l) = filter Q l.
Proof.
  intros Himp. induction l as [|x l IH]; [done|].
  rewrite (filter_cons Q). destruct (decide (Q x)); [|done].
  rewrite filter_cons, decide_True by auto. by rewrite IH.
Qed.

Lemma existsb_elem_of {A : Type} (f : A → bool) l :
  existsb f l = true ↔ ∃ x, x ∈ l ∧ f x = true.
Proof.
  rewrite existsb_exists. split; intros (x & Hx & ?); exists x;
    (split; [|done]); by apply list_elem_of_In.
Qed.

Lemma forallb_elem_of {A : Type} (f : A → bool) l :
  forallb f l = true ↔ ∀ x, x ∈ l → f x = true.
Proof.
  rewrite forallb_forall. split; intros H x Hx; apply H;
    by apply list_elem_of_In.
Qed.

Lemma existsb_negb_forallb (flags : list bool) :
  existsb id (negb <$> flags) = negb (forallb id flags).
Proof.
  induction flags as [|b flags IH]; [done|]. cbn. rewrite IH.
  by destruct b.
Qed.

Lemma existsb_all_false {A : Type} (l : list A) :
  existsb id ((λ _, false) <$> l) = false.
Proof. by induction l. Qed.

Lemma NoDup_fmap_elem {A B : Type} (f : A → B) (l : list A) x y :
  NoDup (f <$> l) → x ∈ l → y ∈ l → f x = f y → x = y.
Proof.
  intros Hnd [i Hi]%list_elem_of_lookup [j Hj]%list_elem_of_lookup Hf.
  assert (i = j) as ->; [|congruence].
  eapply NoDup_lookup; [exact Hnd|..]; rewrite list_lookup_fmap.
  - by rewrite Hi.
  - by rewrite Hj, Hf.
Qed.

Lemma Qlt_bool_iff a b : Qlt_bool a b = true ↔ (a < b)%Q.
Proof.
  unfold Qlt_bool. rewrite negb_true_iff. split.
  - intros H. apply Qnot_le_lt. intros Hle%Qle_bool_iff. congruence.
  - intros H. destruct (Qle_bool b a) eqn:Hle; [|done].
    apply Qle_bool_iff in Hle. by apply Qlt_not_le in H.
Qed.

(** ** The other transformations of [assemble_corpus] *)

(** *** Evidence sources *)

Lemma filter_evidence_source_one stmts_in source_apis :
  filter_evidence_source stmts_in source_apis "one"
  = filter (λ st, evidence_sources st ∩ list_to_set source_apis
                  ≠@{gset string} ∅) stmts_in.
Proof.
  unfold filter_evidence_source.
  by rewrite (foldl_append_filter
    (λ st, evidence_sources st ∩ list_to_set source_apis ≠@{gset string} ∅)).
Qed.

Lemma filter_evidence_source_all stmts_in source_apis :
  filter_evidence_source stmts_in source_apis "all"
  = filter (λ st, evidence_sources st ∩ list_to_set source_apis
                  =@{gset string} list_to_set source_apis) stmts_in.
Proof.
  unfold filter_evidence_source.
  by rewrite (foldl_append_filter
    (λ st, evidence_sources st ∩ list_to_set source_apis
           =@{gset string} list_to_set source_apis)).
Qed.

Lemma filter_evidence_source_none stmts_in source_apis :
  filter_evidence_source stmts_in source_apis "none"
  = filter (λ st, evidence_sources st ∩ list_to_set source_apis
                  =@{gset string} ∅) stmts_in.
Proof.
  unfold filter_evidence_source.
  by rewrite (foldl_append_filter
    (λ st, evidence_sources st ∩ list_to_set source_apis =@{gset string} ∅)).
Qed.

Lemma elem_of_evidence_sources st x :
  x ∈ evidence_sources st ↔ ∃ ev, ev ∈ evidence st ∧ source_api ev = x.
Proof.
  unfold evidence_sources. rewrite elem_of_list_to_set, list_elem_of_fmap.
  split; intros (ev & ? & ?); by exists ev.
Qed.

(** X1.  [filter_evidence_source] does not validate its policy: with any
    policy other than ['one'], ['all'] and ['none'] it returns the empty
    list, whatever the statements and the sources. *)
Theorem filter_evidence_source_unknown_policy (stmts_in : list Statement)
    (source_apis : list string) (policy : string) :
  policy ∉ ["one"; "all"; "none"] →
  filter_evidence_source stmts_in source_apis policy = [].
Proof.
  intros Hpol. unfold filter_evidence_source.
  assert (∀ acc st, evidence_source_step source_apis policy acc st = acc)
    as Hstep.
  { intros acc st. unfold evidence_source_step.
    rewrite !decide_False; [done|..]; intros ->; apply Hpol;
      repeat constructor. }
  enough (∀ acc, foldl (evidence_source_step source_apis policy) acc stmts_in
               = acc) as H by apply H.
  induction stmts_in as [|st l IH]; intros acc; simpl; [done|].
  by rewrite Hstep.
Qed.

Lemma filter_evidence_source_unknown_policy_witness :
  filter_evidence_source [Examples.no_evidence] ["reach"] "any" = [].
Proof.
  apply filter_evidence_source_unknown_policy.
  by intros [?|[?|[?|[]%elem_of_nil]%elem_of_cons]%elem_of_cons]%elem_of_cons.
Defined.

(** X2.  The policies ['one'] and ['none'] of [filter_evidence_source]
    split the input: every statement goes to exactly one of the two
    results. *)
Theorem evidence_source_one_none_partition (stmts_in : list Statement)
    (source_apis : list string) :
  filter_evidence_source stmts_in source_apis "one"
    ++ filter_evidence_source stmts_in source_apis "none" ≡ₚ stmts_in ∧
  ∀ st, st ∈ filter_evidence_source stmts_in source_apis "one" →
        st ∉ filter_evidence_source stmts_in source_apis "none".
Proof.
  rewrite filter_evidence_source_one, filter_evidence_source_none. split.
  - induction stmts_in as [|st l IH]; [done|].
    rewrite !filter_cons. case_decide as H1; case_decide as H2; try done.
    + simpl. by rewrite IH.
    + by rewrite <- Permutation_middle, IH.
  - intros st [H1 _]%list_elem_of_filter [H2 _]%list_elem_of_filter. done.
Qed.

(** X3.  With the policy ['all'], [filter_evidence_source] keeps a
    statement exactly when every requested source is the source of some
    piece of its evidence; so an empty list of sources keeps every
    statement under ['all'] and none under ['one']. *)
Theorem evidence_source_all (stmts_in : list Statement)
    (source_apis : list string) :
  (∀ st, st ∈ filter_evidence_source stmts_in source_apis "all" ↔
         st ∈ stmts_in ∧
         ∀ x, x ∈ source_apis → ∃ ev, ev ∈ evidence st ∧ source_api ev = x) ∧
  filter_evidence_source stmts_in [] "all" = stmts_in ∧
  filter_evidence_source stmts_in [] "one" = [].
Proof.
  split; [|split].
  - intros st. rewrite filter_evidence_source_all, list_elem_of_filter.
    split.
    + intros [H ?]. split; [done|].
      intros x Hx. apply elem_of_evidence_sources.
      assert (x ∈@{gset string} list_to_set source_apis) as Hin
        by by apply elem_of_list_to_set.
      rewrite <- H in Hin. by apply elem_of_intersection in Hin as [? _].
    + intros [? H]. split; [|done].
      apply set_eq. intros x. rewrite elem_of_intersection.
      rewrite elem_of_evidence_sources, elem_of_list_to_set.
      split; [by intros [_ ?]|]. intros Hx. split; [by apply H|done].
  - rewrite filter_evidence_source_all.
    induction stmts_in as [|st l IH]; [done|].
    rewrite filter_cons, decide_True; [by rewrite IH|].
    apply set_eq. intros x. rewrite elem_of_intersection. cbn.
    split; [by intros [_ ?]|]. by intros ?%elem_of_empty.
  - rewrite filter_evidence_source_one.
    induction stmts_in as [|st l IH]; [done|].
    rewrite filter_cons, decide_False; [done|].
    intros H. apply H. apply set_eq. intros x.
    rewrite elem_of_intersection. cbn.
    split; [by intros [_ ?]|]. by intros ?%elem_of_empty.
Qed.

(** *** Direct evidence *)

Lemma get_is_direct_from_spec any_indirect evs :
  get_is_direct_from any_indirect evs = true ↔
  (∃ ev, ev ∈ evs ∧ epistemics ev !! "direct" = Some true) ∨
  (any_indirect = false ∧
   ∀ ev, ev ∈ evs → epistemics ev !! "direct" ≠ Some false).
Proof.
  revert any_indirect. induction evs as [|e evs IH]; intros ai; simpl.
  - destruct ai; split; try done.
    + intros [(ev & []%elem_of_nil & _)|[? _]]; done.
    + intros _. right. split; [done|]. by intros ev ?%elem_of_nil.
  - destruct (epistemics e !! "direct") as [[]|] eqn:He.
    + split; [|done]. intros _. left. exists e. split; [by left|done].
    + rewrite IH. split.
      * intros [(ev & Hev & Ht)|[? _]]; [|done].
        left. exists ev. split; [by right|done].
      * intros [(ev & [->|Hev]%elem_of_cons & Ht)|[_ Hall]].
        -- congruence.
        -- left. by exists ev.
        -- exfalso. apply (Hall e); [by left|done].
    + rewrite IH. split.
      * intros [(ev & Hev & Ht)|[-> Hall]].
        -- left. exists ev. split; [by right|done].
        -- right. split; [done|].
           intros ev [->|Hev]%elem_of_cons; [congruence|by apply Hall].
      * intros [(ev & [->|Hev]%elem_of_cons & Ht)|[-> Hall]].
        -- congruence.
        -- left. by exists ev.
        -- right. split; [done|]. intros ev Hev. apply Hall. by right.
Qed.

(** X4.  [filter_direct] keeps a statement exactly when some piece of
    its evidence is marked direct, or none is marked indirect; the order of
    the evidence plays no part, and a statement without evidence is kept. *)
Theorem filter_direct_spec (stmts_in : list Statement) (st : Statement) :
  st ∈ filter_direct stmts_in ↔
  st ∈ stmts_in ∧
  ((∃ ev, ev ∈ evidence st ∧ epistemics ev !! "direct" = Some true) ∨
   (∀ ev, ev ∈ evidence st → epistemics ev !! "direct" ≠ Some false)).
Proof.
  unfold filter_direct. rewrite list_elem_of_filter.
  unfold get_is_direct. rewrite Is_true_true, get_is_direct_from_spec.
  split.
  - intros [[?|[_ ?]] ?]; (split; [done|]); [by left|by right].
  - intros [? [?|?]]; (split; [|done]); [by left|by right].
Qed.

(** *** Hypotheses and negations *)

Lemma scan_evidence_spec flag evs ev0 :
  (scan_evidence flag evs ev0).1 = true ↔
  ∀ ev, ev ∈ evs → epistemic ev flag = true.
Proof.
  revert ev0. induction evs as [|e evs IH]; intros ev0; cbn [scan_evidence].
  - split; [|done]. by intros _ ev ?%elem_of_nil.
  - destruct (epistemic e flag) eqn:He; cbn [negb].
    + rewrite IH. split.
      * intros H ev [->|?]%elem_of_cons; [done|by apply H].
      * intros H ev Hev. apply H. by right.
    + cbn. split; [done|]. intros H. rewrite H in He; [done|by left].
Qed.

Lemma scan_evidence_last flag evs ev0 :
  (scan_evidence flag evs ev0).2 = None ↔ evs = [] ∧ ev0 = None.
Proof.
  revert ev0. induction evs as [|e evs IH]; intros ev0; cbn [scan_evidence].
  - cbn. split; [done|by intros [_ ?]].
  - destruct (negb (epistemic e flag)); cbn.
    + split; [done|by intros [? _]].
    + rewrite IH. split; by intros [? ?].
Qed.

Lemma all_flagged_spec flag st :
  all_flagged flag st = true ↔
  evidence st ≠ [] ∧ ∀ ev, ev ∈ evidence st → epistemic ev flag = true.
Proof.
  unfold all_flagged.
  pose proof (scan_evidence_spec flag (evidence st) None) as Hall.
  pose proof (scan_evidence_last flag (evidence st) None) as Hlast.
  destruct (scan_evidence flag (evidence st) None) as [all [ev|]];
    cbn [fst snd] in *.
  - rewrite Hall. split; [|by intros [_ ?]]. intros H. split; [|done].
    intros Hnil. discriminate (proj2 Hlast (conj Hnil eq_refl)).
  - split; [done|]. intros [Hne _]. by destruct (proj1 Hlast eq_refl).
Qed.

(** X5.  [filter_no_hypothesis] drops a statement exactly when it has
    evidence and every piece of it is marked as a hypothesis, and
    [filter_no_negated] likewise for negations: a single piece of evidence
    without the mark, in any position, keeps the statement. *)
Theorem filter_no_hypothesis_spec (stmts_in : list Statement)
    (st : Statement) :
  (st ∈ filter_no_hypothesis stmts_in ↔
   st ∈ stmts_in ∧
   (evidence st = [] ∨
    ∃ ev, ev ∈ evidence st ∧ epistemic ev "hypothesis" = false)) ∧
  (st ∈ filter_no_negated stmts_in ↔
   st ∈ stmts_in ∧
   (evidence st = [] ∨
    ∃ ev, ev ∈ evidence st ∧ epistemic ev "negated" = false)).
Proof.
  assert (∀ flag,
    negb (all_flagged flag st) ↔
    evidence st = [] ∨ ∃ ev, ev ∈ evidence st ∧ epistemic ev flag = false)
    as Hflag.
  { intros flag. rewrite Is_true_true, negb_true_iff.
    destruct (all_flagged flag st) eqn:E.
    - apply all_flagged_spec in E as [Hne Hall]. split; [done|].
      intros [?|(ev & Hev & Hf)]; [done|]. rewrite Hall in Hf; done.
    - split; [|done]. intros _.
      destruct (evidence st) as [|e evs] eqn:Hev; [by left|]. right.
      destruct (decide (Forall (λ ev, epistemic ev flag = true) (e :: evs)))
        as [Hall|Hex].
      + exfalso. assert (all_flagged flag st = true); [|congruence].
        apply all_flagged_spec. rewrite Hev. split; [done|].
        by apply Forall_forall.
      + apply not_Forall_Exists in Hex; [|apply _].
        apply Exists_exists in Hex as (ev & Hin & Hf).
        exists ev. split; [done|]. cbn in Hf.
        by destruct (epistemic ev flag). }
  unfold filter_no_hypothesis, filter_no_negated.
  rewrite !list_elem_of_filter, !Hflag. split; split; intros [? ?]; done.
Qed.

(** *** Renaming a namespace *)

Lemma set_db_refs_id a : set_db_refs a (a_db_refs a) = a.
Proof. by destruct a. Qed.

Lemma rename_agent_renamed ns_from ns_to ag :
  renamed ns_from ns_to (rename_agent ns_from ns_to ag) ag.
Proof.
  destruct ag as [a|]; [|done]. cbn.
  destruct (a_db_refs a !! ns_from) as [v|] eqn:Hfrom; cbn.
  - split; [done|]. intros k.
    destruct (decide (k = ns_to)) as [->|Hto].
    + by rewrite lookup_insert_eq, Hfrom.
    + rewrite lookup_insert_ne by done.
      destruct (decide (k = ns_from)) as [->|Hk].
      * by rewrite lookup_delete_eq.
      * by rewrite lookup_delete_ne.
  - split; [done|]. intros k.
    destruct (decide (k = ns_to)) as [->|Hto]; [by rewrite Hfrom|].
    destruct (decide (k = ns_from)) as [->|Hk]; done.
Qed.

(** X6.  [rename_db_ref] returns, position by position, statements of
    the same class, evidence and links whose role fillers differ from the
    given ones only in [db_refs]: the entry of [ns_from] is gone (when the
    two namespaces differ) and is now the entry of [ns_to], whose own
    previous entry is overwritten; the bound partners keep their entries. *)
Theorem rename_db_ref_spec (stmts_in : list Statement)
    (ns_from ns_to : string) :
  Forall2 (λ st' st,
             set_agent_list st' (agent_list st) = st ∧
             Forall2 (renamed ns_from ns_to) (agent_list st') (agent_list st))
          (rename_db_ref stmts_in ns_from ns_to) stmts_in.
Proof.
  unfold rename_db_ref. apply Forall2_fmap_l, Forall_Forall2_diag.
  apply Forall_forall. intros st _. split.
  - rewrite set_agent_list_twice by (by rewrite length_fmap).
    apply set_agent_list_id.
  - rewrite agent_list_set_agent_list by (by rewrite length_fmap).
    apply Forall2_fmap_l, Forall_Forall2_diag, Forall_forall.
    intros ag _. apply rename_agent_renamed.
Qed.

Lemma rename_agent_back ns_from ns_to ag :
  (∀ a, ag = Some a → a_db_refs a !! ns_to = None) →
  rename_agent ns_to ns_from (rename_agent ns_from ns_to ag) = ag.
Proof.
  destruct ag as [a|]; [|done]. intros Hto. specialize (Hto a eq_refl).
  cbn. destruct (a_db_refs a !! ns_from) as [v|] eqn:Hfrom; cbn.
  - rewrite lookup_insert_eq. cbn. f_equal.
    rewrite <- (set_db_refs_id a) at 2. unfold set_db_refs. cbn. f_equal.
    rewrite delete_insert_eq.
    rewrite (delete_id (delete _ _)) by (by rewrite lookup_delete_ne
      by (intros ->; congruence)).
    rewrite insert_delete_id by done. by destruct a.
  - by rewrite Hto.
Qed.

(** X7.  Renaming [ns_from] to [ns_to] and back gives the statements
    that were given, provided no role filler held an entry for [ns_to]. *)
Theorem rename_db_ref_round_trip (stmts_in : list Statement)
    (ns_from ns_to : string) :
  (∀ st a, st ∈ stmts_in → Some a ∈ agent_list st →
           a_db_refs a !! ns_to = None) →
  rename_db_ref (rename_db_ref stmts_in ns_from ns_to) ns_to ns_from
  = stmts_in.
Proof.
  intros Hto. unfold rename_db_ref. rewrite <- list_fmap_compose.
  rewrite <- (list_fmap_id stmts_in) at 2. apply list_fmap_ext.
  intros i st Hst. cbn.
  rewrite agent_list_set_agent_list by (by rewrite length_fmap).
  rewrite set_agent_list_twice by (by rewrite length_fmap).
  rewrite <- (set_agent_list_id st) at 3. f_equal.
  rewrite <- list_fmap_compose. rewrite <- (list_fmap_id (agent_list st)) at 2.
  apply list_fmap_ext. intros j ag Hag. cbn.
  apply rename_agent_back. intros a ->.
  eapply Hto; [by eapply list_elem_of_lookup_2|by eapply list_elem_of_lookup_2].
Qed.

Lemma rename_db_ref_round_trip_witness :
  rename_db_ref
    (rename_db_ref [Examples.no_evidence] "HGNC" "FPLX") "FPLX" "HGNC"
  = [Examples.no_evidence].
Proof.
  apply rename_db_ref_round_trip.
  intros st a [->|[]%elem_of_nil]%elem_of_cons
    [[= ->]|[[= ->]|[]%elem_of_nil]%elem_of_cons]%elem_of_cons;
    reflexivity.
Defined.

(** *** Alignment *)

Section align_facts.
Context {K : Type} `{EqDecision K} (keyfun : Statement → K).

Lemma list_index_fmap (stmts : list Statement) key :
  list_index (keyfun <$> stmts) key
  = fst <$> list_find (λ s, keyfun s = key) stmts.
Proof.
  unfold list_index. rewrite list_find_fmap.
  by destruct (list_find _ stmts) as [[??]|].
Qed.

Lemma list_index_None (stmts : list Statement) key :
  list_index (keyfun <$> stmts) key = None ↔ key ∉ keyfun <$> stmts.
Proof.
  rewrite list_index_fmap, fmap_None, list_find_None, Forall_forall.
  rewrite list_elem_of_fmap. split.
  - intros H (s & -> & Hs). by apply (H s).
  - intros H s Hs Hk. apply H. by exists s.
Qed.

Lemma match_first_Ok stmts2 a :
  match_first stmts2 (keyfun <$> stmts2) (a, keyfun a)
  = Ok (Some a, first_match keyfun stmts2 a).
Proof.
  unfold match_first, first_match. cbn. rewrite list_index_fmap.
  destruct (list_find _ stmts2) as [[i s]|] eqn:Hfind; [|done]. cbn.
  apply list_find_Some in Hfind as (Hi & _ & _).
  unfold list_getitem. by rewrite Hi.
Qed.

Lemma forM_match_first stmts1 stmts2 :
  forM (match_first stmts2 (keyfun <$> stmts2))
       (zip stmts1 (keyfun <$> stmts1))
  = Ok ((λ a, (Some a, first_match keyfun stmts2 a)) <$> stmts1).
Proof.
  induction stmts1 as [|a l IH]; [done|].
  cbn [fmap list_fmap zip zip_with forM].
  rewrite match_first_Ok. cbn. rewrite IH. done.
Qed.

Lemma omap_match_second stmts1 stmts2 :
  omap (match_second (keyfun <$> stmts1)) (zip stmts2 (keyfun <$> stmts2))
  = (λ b, (None, Some b))
      <$> filter (λ b, keyfun b ∉ keyfun <$> stmts1) stmts2.
Proof.
  induction stmts2 as [|b l IH]; [done|].
  cbn [fmap list_fmap zip zip_with omap list_omap].
  rewrite filter_cons. unfold match_second at 1. cbn [snd fst].
  destruct (list_index (keyfun <$> stmts1) (keyfun b)) as [i|] eqn:Hi.
  - rewrite decide_False; [done|]. intros Hnot%list_index_None. congruence.
  - rewrite decide_True by (by apply list_index_None).
    rewrite fmap_cons. by f_equal.
Qed.

Lemma align_statements_eq stmts1 stmts2 :
  align_statements keyfun stmts1 stmts2
  = Ok (((λ a, (Some a, first_match keyfun stmts2 a)) <$> stmts1)
        ++ ((λ b, (None, Some b))
              <$> filter (λ b, keyfun b ∉ keyfun <$> stmts1) stmts2)).
Proof.
  unfold align_statements. rewrite forM_match_first. cbn.
  by rewrite omap_match_second.
Qed.

(** X8.  [align_statements] never fails, whatever the key function:
    the result holds every statement of the first list exactly once as a
    first component, in the order given, followed by the pairs without a
    first component, one for each statement of the second list whose key
    is the key of no statement of the first. *)
Theorem align_statements_first (stmts1 stmts2 : list Statement) :
  ∃ matches,
    align_statements keyfun stmts1 stmts2 = Ok matches ∧
    omap fst matches = stmts1 ∧
    length matches
    = (length stmts1
       + length (filter (λ b, keyfun b ∉ keyfun <$> stmts1) stmts2))%nat.
Proof.
  eexists. split; [apply align_statements_eq|]. split.
  - rewrite omap_app.
    assert (∀ l : list Statement,
      omap fst ((λ b, (None, Some b)) <$> l) = @nil Statement) as ->.
    { induction l as [|x l IH]; [done|]. by rewrite fmap_cons. }
    rewrite app_nil_r. induction stmts1 as [|a l IH]; [done|].
    rewrite fmap_cons. cbn. by rewrite IH.
  - by rewrite length_app, !length_fmap.
Qed.

(** X9.  The pairs of [align_statements]: a statement of the first list
    is paired with the first statement of the second list that has its key,
    or with nothing; a statement of the second list stands alone exactly
    when no statement of the first list has its key.  So a statement of the
    second list that follows another one with the same key is in no pair
    once that key occurs in the first list. *)
Theorem align_statements_pairs (stmts1 stmts2 : list Statement) :
  ∃ matches,
    align_statements keyfun stmts1 stmts2 = Ok matches ∧
    ∀ x y : option Statement,
      (x, y) ∈ matches ↔
      (∃ a, a ∈ stmts1 ∧ x = Some a ∧
            y = snd <$> list_find (λ s, keyfun s = keyfun a) stmts2) ∨
      (∃ b, b ∈ stmts2 ∧ x = None ∧ y = Some b ∧
            keyfun b ∉ keyfun <$> stmts1).
Proof.
  eexists. split; [apply align_statements_eq|]. intros x y.
  rewrite elem_of_app, !list_elem_of_fmap. split.
  - intros [(a & [= -> ->] & Ha)|(b & [= -> ->] & Hb)].
    + left. by exists a.
    + right. apply list_elem_of_filter in Hb as [? ?]. by exists b.
  - intros [(a & Ha & -> & ->)|(b & Hb & -> & -> & Hk)].
    + left. by exists a.
    + right. exists b. split; [done|]. by apply list_elem_of_filter.
Qed.
End align_facts.

(** *** Filters that test the agents, without [remove_bound] *)

(** A loop over the addresses that stores back what it read. *)
Lemma foldM_store_unchanged
    (step : Store * list nat → nat → result (Store * list nat))
    (σ0 : Store) (keep : nat → bool) :
  (∀ (σ : Store) out st acc',
     (∀ i, σ i = σ0 i) → step (σ, out) st = Ok acc' →
     acc'.2 = (if keep st then out ++ [st] else out) ∧
     ∀ i, acc'.1 i = σ0 i) →
  ∀ l (σ : Store) out acc',
    (∀ i, σ i = σ0 i) → foldM step (σ, out) l = Ok acc' →
    acc'.2 = out ++ filter (λ st, keep st) l ∧ ∀ i, acc'.1 i = σ0 i.
Proof.
  intros Hstep. induction l as [|st l IH]; intros σ out acc' Hσ H;
    simpl in H.
  - injection H as <-. by rewrite app_nil_r.
  - inv_bind H as acc1 Hacc1. destruct acc1 as [σ1 out1].
    destruct (Hstep _ _ _ _ Hσ Hacc1) as [Hout1 Hσ1]. cbn [fst snd] in *.
    destruct (IH _ _ _ Hσ1 H) as [Hout' Hσ']. split; [|done].
    rewrite Hout', Hout1, filter_cons. destruct (keep st); cbn.
    + by rewrite <- app_assoc.
    + done.
Qed.

Lemma some_partner_fails (criterion : Agent → bool) bcs :
  existsb (λ b, negb (criterion b)) (bc_agent <$> bcs)
  = negb (forallb (λ bc, criterion (bc_agent bc)) bcs).
Proof.
  induction bcs as [|bc bcs IH]; [done|].
  cbn. rewrite IH. by destruct (criterion (bc_agent bc)).
Qed.

Section grounded_pure.
Context (score_threshold : option Q).

Abbreviation criterion := (λ x, _agent_is_grounded x score_threshold).

Lemma grounded_agents_keep ags :
  grounded_agents criterion false ags
  = Ok (forallb (role_grounded criterion) ags, ags).
Proof.
  induction ags as [|[a|] ags IH]; [done|..].
  - cbn [grounded_agents forallb role_grounded].
    destruct (criterion a) eqn:Hc; cbn [negb andb]; [|done].
    destruct (is_Agent a) eqn:Ha; cbn [negb orb].
    + unfold _any_bound_condition_fails_criterion, get_bound_conditions.
      rewrite Ha. cbn.
      rewrite some_partner_fails.
      destruct (forallb _ (a_bound_conditions a)); cbn; [|done].
      by rewrite IH.
    + by rewrite IH.
  - cbn [grounded_agents forallb role_grounded andb]. by rewrite IH.
Qed.

Lemma grounded_step_keep (σ0 σ : Store) out st :
  (∀ i, σ i = σ0 i) →
  ∃ σ' : Store,
    grounded_step score_threshold false (σ, out) st
    = Ok (σ', if forallb (role_grounded criterion) (agent_list (σ0 st))
              then out ++ [st] else out) ∧
    ∀ i, σ' i = σ0 i.
Proof.
  intros Hσ. unfold grounded_step. cbn [fst snd].
  rewrite grounded_agents_keep. cbn. rewrite set_agent_list_id, Hσ.
  eexists. split; [done|]. intros i.
  destruct (decide (st = i)) as [->|Hne].
  - by rewrite fn_lookup_insert.
  - by rewrite fn_lookup_insert_ne.
Qed.

Lemma filter_grounded_only_keep (σ0 σ : Store) l out :
  (∀ i, σ i = σ0 i) →
  ∃ σ' : Store,
    foldM (grounded_step score_threshold false) (σ, out) l
    = Ok (σ', out ++ filter (λ st, forallb (role_grounded criterion)
                                     (agent_list (σ0 st))) l) ∧
    ∀ i, σ' i = σ0 i.
Proof.
  revert σ out. induction l as [|st l IH]; intros σ out Hσ.
  - exists σ. cbn. by rewrite app_nil_r.
  - destruct (grounded_step_keep σ0 σ out st Hσ) as (σ1 & Hstep & Hσ1).
    cbn [foldM]. rewrite Hstep, bind_Ok_l.
    destruct (IH σ1 (if forallb (role_grounded criterion)
                          (agent_list (σ0 st))
                     then out ++ [st] else out) Hσ1) as (σ' & -> & Hσ').
    exists σ'. split; [|done]. rewrite filter_cons.
    destruct (forallb _ (agent_list (σ0 st))); cbn.
    + by rewrite <- app_assoc.
    + done.
Qed.

(** X10.  Without [remove_bound], [filter_grounded_only] never fails and
    leaves every statement as it was; it returns, in the order given,
    the statements in which each present role filler is grounded and, when
    it is an [Agent], each of its bound partners is grounded too. *)
Theorem filter_grounded_only_without_remove_bound (σ : Store)
    (stmts_in : list nat) :
  ∃ σ' : Store,
    filter_grounded_only σ stmts_in score_threshold false
    = Ok (σ', filter (λ st, forallb (role_grounded criterion)
                               (agent_list (σ st))) stmts_in) ∧
    ∀ i, σ' i = σ i.
Proof.
  destruct (filter_grounded_only_keep σ σ stmts_in []) as (σ' & H & Hσ');
    [done|].
  by exists σ'.
Qed.
End grounded_pure.

(** **** The score threshold *)

Lemma foldl_max_spec t m (rest : list (string * Q)) :
  Qlt_bool t (foldl (λ m x, if Qlt_bool m x.2 then x.2 else m) m rest) = true
  ↔ (t < m)%Q ∨ ∃ x : string * Q, x ∈ rest ∧ (t < x.2)%Q.
Proof.
  revert m. induction rest as [|y rest IH]; intros m; cbn [foldl].
  - rewrite Qlt_bool_iff. split; [by left|].
    by intros [?|(x & ?%elem_of_nil & _)].
  - rewrite IH. destruct (Qlt_bool m y.2) eqn:Hm.
    + apply Qlt_bool_iff in Hm. split.
      * intros [?|(x & ? & ?)]; right; [exists y|exists x];
          (split; [|done]); [by left|by right].
      * intros [?|(x & [->|?]%elem_of_cons & ?)];
          [left; by eapply Qlt_trans|by left|right; by exists x].
    + assert (y.2 <= m)%Q as Hle.
      { apply Qnot_lt_le. intros ?%Qlt_bool_iff. congruence. }
      split.
      * intros [?|(x & ? & ?)]; [by left|].
        right. exists x. split; [by right|done].
      * intros [?|(x & [->|?]%elem_of_cons & ?)];
          [by left|left; by eapply Qlt_le_trans|right; by exists x].
Qed.

Lemma high_score_spec t first rest :
  Qlt_bool t (high_score first rest) = true ↔
  ∃ x, x ∈ first :: rest ∧ (t < x.2)%Q.
Proof.
  unfold high_score. rewrite foldl_max_spec. split.
  - intros [?|(x & ? & ?)]; [exists first|exists x];
      (split; [|done]); [by left|by right].
  - intros (x & [->|?]%elem_of_cons & ?); [by left|right; by exists x].
Qed.

Lemma elem_of_db_vals (a : Agent) v :
  v ∈ (map_to_list (delete "TEXT" (a_db_refs a))).*2 ↔
  ∃ ns, ns ≠ "TEXT" ∧ a_db_refs a !! ns = Some v.
Proof.
  rewrite list_elem_of_fmap. split.
  - intros ([ns v'] & -> & Hin). apply elem_of_map_to_list in Hin.
    apply lookup_delete_Some in Hin as [? ?]. by exists ns.
  - intros (ns & Hns & Hv). exists (ns, v). split; [done|].
    apply elem_of_map_to_list. by apply lookup_delete_Some.
Qed.

(** What [_agent_is_grounded] tests. *)
Lemma agent_is_grounded_spec a score_threshold :
  _agent_is_grounded a score_threshold = true ↔
  (∃ ns v, ns ≠ "TEXT" ∧ a_db_refs a !! ns = Some v ∧ db_truthy v = true) ∧
  match threshold_set score_threshold with
  | Some t =>
      ∃ ns l x, ns ≠ "TEXT" ∧ a_db_refs a !! ns = Some (DbList l) ∧
                x ∈ l ∧ (t < x.2)%Q
  | None => True
  end.
Proof.
  unfold _agent_is_grounded.
  set (vals := (map_to_list (delete "TEXT" (a_db_refs a))).*2).
  assert (existsb db_truthy vals = true ↔
          ∃ ns v, ns ≠ "TEXT" ∧ a_db_refs a !! ns = Some v ∧
                  db_truthy v = true) as Htruthy.
  { rewrite existsb_elem_of. split.
    - intros (v & (ns & ? & ?)%elem_of_db_vals & ?). by exists ns, v.
    - intros (ns & v & ? & ? & ?). exists v. split; [|done].
      apply elem_of_db_vals. by exists ns. }
  assert ((if negb (existsb db_truthy vals) then false
           else if bool_decide
                     ((map_to_list (delete "TEXT" (a_db_refs a))).*1 = [])
                then false else true) = existsb db_truthy vals) as Hg.
  { destruct (existsb db_truthy vals) eqn:He; [|done]. cbn.
    rewrite bool_decide_false; [done|]. intros Hnil.
    apply fmap_nil_inv in Hnil. subst vals. by rewrite Hnil in He. }
  rewrite Hg.
  destruct (threshold_set score_threshold) as [t|].
  - set (passes := λ val, match val with
                          | DbList (first :: rest) =>
                              Qlt_bool t (high_score first rest)
                          | _ => false
                          end).
    assert (existsb passes vals = true ↔
            ∃ ns l x, ns ≠ "TEXT" ∧ a_db_refs a !! ns = Some (DbList l) ∧
                      x ∈ l ∧ (t < x.2)%Q) as Hpass.
    { rewrite existsb_elem_of. split.
      - intros (v & (ns & ? & ?)%elem_of_db_vals & Hv).
        destruct v as [| |[|first rest]]; try done.
        apply high_score_spec in Hv as (x & ? & ?).
        by exists ns, (first :: rest), x.
      - intros (ns & l & x & ? & ? & Hx & ?). exists (DbList l). split.
        + apply elem_of_db_vals. by exists ns.
        + destruct l as [|first rest]; [by apply elem_of_nil in Hx|].
          apply high_score_spec. by exists x. }
    fold passes. rewrite <- Hpass, <- Htruthy.
    destruct (existsb passes vals), (existsb db_truthy vals); cbn;
      split; try done; by intros [? ?].
  - rewrite Htruthy. split; [done|by intros [? _]].
Qed.

(** X11.  With a score threshold (other than 0, which counts as none),
    [_agent_is_grounded] holds exactly when some namespace other than
    [TEXT] holds a list of candidates one of which scores strictly above
    the threshold: an identifier that is a plain string never passes a
    threshold. *)
Theorem agent_is_grounded_threshold (a : Agent) (t : Q) :
  ¬ (t == 0)%Q →
  _agent_is_grounded a (Some t) = true ↔
  ∃ ns l x, ns ≠ "TEXT" ∧ a_db_refs a !! ns = Some (DbList l) ∧
            x ∈ l ∧ (t < x.2)%Q.
Proof.
  intros Ht. rewrite agent_is_grounded_spec. cbn.
  destruct (Qeq_bool t 0) eqn:Heq; [by apply Qeq_bool_iff in Heq|].
  split; [by intros [_ ?]|]. intros (ns & l & x & ? & ? & Hx & ?).
  split; [|by exists ns, l, x]. exists ns, (DbList l). split_and!; [done..|].
  destruct l; [by apply elem_of_nil in Hx|done].
Qed.

(** A candidate that scores 0.7 passes the threshold 0.5. *)
Lemma agent_is_grounded_threshold_witness :
  _agent_is_grounded MoreExamples.scored (Some (1 # 2)) = true.
Proof.
  apply agent_is_grounded_threshold; [by intros ?|].
  exists "WM", [("wm/concept/food", 7 # 10)], ("wm/concept/food", 7 # 10).
  split_and!; [done|reflexivity|apply list_elem_of_here|reflexivity].
Defined.

Lemma agent_is_grounded_weaken a score_threshold :
  _agent_is_grounded a score_threshold = true →
  _agent_is_grounded a None = true.
Proof. rewrite !agent_is_grounded_spec. by intros [? _]. Qed.

(** X12.  A score threshold only removes statements: without
    [remove_bound], what [filter_grounded_only] returns under a threshold
    is, in the same order, part of what it returns without one. *)
Theorem grounded_threshold_sublist (σ : Store) (stmts_in : list nat)
    (score_threshold : option Q) :
  ∃ (σ1 σ2 : Store) stmts_out1 stmts_out2,
    filter_grounded_only σ stmts_in score_threshold false
    = Ok (σ1, stmts_out1) ∧
    filter_grounded_only σ stmts_in None false = Ok (σ2, stmts_out2) ∧
    stmts_out1 `sublist_of` stmts_out2.
Proof.
  destruct (filter_grounded_only_keep score_threshold σ σ stmts_in [])
    as (σ1 & H1 & _); [done|].
  destruct (filter_grounded_only_keep None σ σ stmts_in [])
    as (σ2 & H2 & _); [done|].
  exists σ1, σ2. eexists _, _. split; [exact H1|]. split; [exact H2|].
  cbn [app]. apply filter_sublist_impl. intros st _.
  rewrite !Is_true_true, !forallb_elem_of. intros H ag Hag.
  specialize (H ag Hag). destruct ag as [a|]; [|done]. cbn in *.
  apply andb_true_iff in H as [Hc Hb]. apply andb_true_iff. split.
  - by eapply agent_is_grounded_weaken.
  - destruct (is_Agent a); [|done]. cbn in *.
    apply forallb_elem_of. intros bc Hbc.
    eapply agent_is_grounded_weaken.
    by eapply (proj1 (forallb_elem_of _ _) Hb).
Qed.

(** **** Genes *)

Lemma criterion_agents_keep criterion ags passes ags' :
  criterion_agents criterion false ags = Ok (passes, ags') →
  ags' = ags ∧ passes = forallb (role_passes criterion) ags.
Proof.
  revert passes ags'. induction ags as [|[a|] ags IH]; intros passes ags' H.
  - by injection H as <- <-.
  - cbn [criterion_agents forallb role_passes] in *.
    destruct (criterion a) eqn:Hc; cbn [negb andb] in *;
      [|by injection H as <- <-].
    inv_bind H as fails Hfails.
    unfold _any_bound_condition_fails_criterion in Hfails.
    inv_bind Hfails as bcs Hbcs. injection Hfails as <-.
    unfold get_bound_conditions in Hbcs.
    destruct (is_Agent a); [|done]. injection Hbcs as <-.
    rewrite some_partner_fails in H.
    destruct (forallb _ (a_bound_conditions a)); cbn in *;
      [|by injection H as <- <-].
    inv_bind H as pr Hpr. destruct pr as [p rest].
    injection H as <- <-. by destruct (IH _ _ Hpr) as [-> ->].
  - cbn [criterion_agents forallb role_passes andb] in *.
    inv_bind H as pr Hpr. destruct pr as [p rest].
    injection H as <- <-. by destruct (IH _ _ Hpr) as [-> ->].
Qed.

Lemma criterion_fold_keep criterion (σ0 σ : Store) l out acc' :
  (∀ i, σ i = σ0 i) →
  foldM (criterion_step criterion false) (σ, out) l = Ok acc' →
  acc'.2 = out ++ filter (λ st, forallb (role_passes criterion)
                                  (agent_list (σ0 st))) l ∧
  ∀ i, acc'.1 i = σ0 i.
Proof.
  apply (foldM_store_unchanged _ σ0
    (λ st, forallb (role_passes criterion) (agent_list (σ0 st)))).
  clear. intros σ out st acc' Hσ H. unfold criterion_step in H.
  cbn [fst snd] in H. inv_bind H as pr Hpr. destruct pr as [p ags].
  apply criterion_agents_keep in Hpr as [-> ->]. injection H as <-.
  cbn [fst snd]. rewrite set_agent_list_id, Hσ. split; [done|].
  intros i. destruct (decide (st = i)) as [->|Hne].
  - by rewrite fn_lookup_insert.
  - by rewrite fn_lookup_insert_ne.
Qed.

(** X13.  Without [remove_bound], a call of [filter_genes_only] or of
    [filter_human_only] that returns has changed no statement, and returns
    in the order given the statements in which every present role filler
    and every one of its bound partners meets the criterion. *)
Theorem criterion_filters_without_remove_bound (σ σ' : Store)
    (stmts_in stmts_out : list nat) :
  (∀ specific_only,
     filter_genes_only σ stmts_in specific_only false
     = Ok (σ', stmts_out) →
     stmts_out
     = filter (λ st, forallb (role_passes
                                (λ a, _agent_is_gene a specific_only))
                       (agent_list (σ st))) stmts_in ∧
     ∀ i, σ' i = σ i) ∧
  (∀ is_human,
     filter_human_only is_human σ stmts_in false = Ok (σ', stmts_out) →
     stmts_out
     = filter (λ st, forallb (role_passes (human_criterion is_human))
                       (agent_list (σ st))) stmts_in ∧
     ∀ i, σ' i = σ i).
Proof.
  split.
  - intros specific_only H.
    by apply (criterion_fold_keep _ σ) in H.
  - intros is_human H.
    by apply (criterion_fold_keep _ σ) in H.
Qed.

Lemma agent_is_gene_grounded a specific_only :
  _agent_is_gene a specific_only = true → _agent_is_grounded a None = true.
Proof.
  intros H. apply agent_is_grounded_spec. split; [|done].
  assert (∀ ns, ns ≠ "TEXT" → db_get a ns = true →
                ∃ ns v, ns ≠ "TEXT" ∧ a_db_refs a !! ns = Some v ∧
                        db_truthy v = true) as Hget.
  { intros ns Hns Hg. unfold db_get in Hg.
    destruct (a_db_refs a !! ns) as [v|] eqn:Hv; [|done]. by exists ns, v. }
  unfold _agent_is_gene in H.
  destruct (db_get a "HGNC") eqn:H1; [by apply (Hget "HGNC")|].
  destruct (db_get a "UP") eqn:H2; [by apply (Hget "UP")|].
  destruct specific_only; [done|].
  destruct (db_get a "FPLX") eqn:H3; [by apply (Hget "FPLX")|done].
Qed.

Lemma role_passes_grounded a specific_only :
  role_passes (λ a, _agent_is_gene a specific_only) a = true →
  role_grounded (λ a, _agent_is_grounded a None) a = true.
Proof.
  destruct a as [a|]; [|done]. cbn.
  intros [Hc Hb]%andb_true_iff. apply andb_true_iff. split.
  - by eapply agent_is_gene_grounded.
  - apply orb_true_iff. right. apply forallb_elem_of. intros bc Hbc.
    eapply agent_is_gene_grounded.
    by eapply (proj1 (forallb_elem_of _ _) Hb).
Qed.

(** X14.  Whatever [filter_genes_only] returns (without [remove_bound])
    passes [filter_grounded_only] whole: applied to that result, without
    threshold and without [remove_bound], it returns the same list and
    changes no statement. *)
Theorem genes_only_then_grounded_only (σ σ1 : Store)
    (stmts_in stmts_out : list nat) (specific_only : bool) :
  filter_genes_only σ stmts_in specific_only false = Ok (σ1, stmts_out) →
  ∃ σ2 : Store,
    filter_grounded_only σ1 stmts_out None false = Ok (σ2, stmts_out) ∧
    ∀ i, σ2 i = σ i.
Proof.
  intros H. apply (criterion_fold_keep _ σ) in H as [Hout Hσ1]; [|done].
  cbn [fst snd app] in *.
  destruct (filter_grounded_only_keep None σ σ1 stmts_out [] Hσ1)
    as (σ2 & H2 & Hσ2).
  exists σ2. split; [|done]. unfold filter_grounded_only. rewrite H2.
  cbn [app]. do 2 f_equal. rewrite Hout. apply filter_filter_impl.
  intros st. rewrite !Is_true_true, !forallb_elem_of. intros Hall ag Hag.
  eapply role_passes_grounded, Hall, Hag.
Qed.

(** X15.  [specific_only] only removes statements: when both calls of
    [filter_genes_only] return (without [remove_bound]), the result with
    [specific_only] is, in the same order, part of the result without. *)
Theorem genes_only_specific_sublist (σ σ1 σ2 : Store)
    (stmts_in stmts_out1 stmts_out2 : list nat) :
  filter_genes_only σ stmts_in true false = Ok (σ1, stmts_out1) →
  filter_genes_only σ stmts_in false false = Ok (σ2, stmts_out2) →
  stmts_out1 `sublist_of` stmts_out2.
Proof.
  intros [H1 _]%(criterion_fold_keep _ σ) [H2 _]%(criterion_fold_keep _ σ);
    [|done..].
  cbn [fst snd app] in *. subst stmts_out1 stmts_out2.
  apply filter_sublist_impl. intros st _.
  rewrite !Is_true_true, !forallb_elem_of. intros Hall ag Hag.
  specialize (Hall ag Hag). destruct ag as [a|]; [|done]. cbn in *.
  assert (∀ a, _agent_is_gene a true = true → _agent_is_gene a false = true)
    as Himp.
  { intros b. unfold _agent_is_gene. cbn.
    by destruct (db_get b "HGNC"), (db_get b "UP"). }
  apply andb_true_iff in Hall as [Hc Hb]. apply andb_true_iff. split.
  - by apply Himp.
  - apply forallb_elem_of. intros bc Hbc. apply Himp.
    by eapply (proj1 (forallb_elem_of _ _) Hb).
Qed.

Lemma criterion_filters_without_remove_bound_witness :
  ∃ (σ' : Store) stmts_out,
    filter_genes_only MoreExamples.genes [0; 1]%nat true false
    = Ok (σ', stmts_out) ∧
    stmts_out = [0; 1]%nat ∧ σ' 0%nat = MoreExamples.genes 0%nat.
Proof.
  destruct (filter_genes_only MoreExamples.genes [0; 1]%nat true false)
    as [[σ' out]|e] eqn:E; [|by vm_compute in E].
  exists σ', out. split; [done|].
  destruct (criterion_filters_without_remove_bound MoreExamples.genes σ'
              [0; 1]%nat out) as [Hgenes _].
  apply Hgenes in E as [-> Hσ']. split; [reflexivity|apply Hσ'].
Defined.

Lemma genes_only_then_grounded_only_witness :
  ∃ (σ1 σ2 : Store) stmts_out,
    filter_genes_only MoreExamples.genes [0; 1]%nat false false
    = Ok (σ1, stmts_out) ∧
    filter_grounded_only σ1 stmts_out None false = Ok (σ2, stmts_out).
Proof.
  destruct (filter_genes_only MoreExamples.genes [0; 1]%nat false false)
    as [[σ1 out]|e] eqn:E; [|by vm_compute in E].
  destruct (genes_only_then_grounded_only _ _ _ _ _ E) as (σ2 & H & _).
  by exists σ1, σ2, out.
Defined.

Lemma genes_only_specific_sublist_witness :
  ∃ (σ1 σ2 : Store) stmts_out1 stmts_out2,
    filter_genes_only MoreExamples.genes [0; 1]%nat true false
    = Ok (σ1, stmts_out1) ∧
    filter_genes_only MoreExamples.genes [0; 1]%nat false false
    = Ok (σ2, stmts_out2) ∧
    stmts_out1 `sublist_of` stmts_out2.
Proof.
  destruct (filter_genes_only MoreExamples.genes [0; 1]%nat true false)
    as [[σ1 out1]|e] eqn:E1; [|by vm_compute in E1].
  destruct (filter_genes_only MoreExamples.genes [0; 1]%nat false false)
    as [[σ2 out2]|e] eqn:E2; [|by vm_compute in E2].
  exists σ1, σ2, out1, out2. split; [done|]. split; [done|].
  exact (genes_only_specific_sublist _ _ _ _ _ _ E1 E2).
Defined.

(** *** Absent roles *)

Lemma prune_bound_raise k s e :
  prune_bound k s = Raise e → e = AttributeError.
Proof.
  unfold prune_bound. destruct (forM _ (agent_list s)) as [ags|e'] eqn:H;
    [done|].
  cbn. intros [= ->]. apply forM_raise in H as ([a|] & _ & H); cbn in H.
  - unfold _remove_bound_conditions, get_bound_conditions in H.
    destruct (is_Agent a); cbn in H; congruence.
  - congruence.
Qed.

Lemma prune_bound_present k s s' :
  prune_bound k s = Ok s' → None ∉ agent_list s.
Proof.
  unfold prune_bound. intros H. inv_bind H as ags Hags.
  apply forM_Ok_Forall2 in Hags. intros Hnone.
  apply list_elem_of_lookup in Hnone as [i Hi].
  by destruct (Forall2_lookup_l _ _ _ _ _ Hags Hi) as (y & _ & ?).
Qed.

Lemma prune_all_absent k l : ∀ (σ : Store) st,
  st ∈ l → None ∈ agent_list (σ st) →
  prune_all k σ l = Raise AttributeError.
Proof.
  unfold prune_all. induction l as [|x l IH]; intros σ st Hst Hnone.
  - by apply elem_of_nil in Hst.
  - cbn [foldM]. destruct (prune_bound k (σ x)) as [s'|e] eqn:Hx; cbn.
    + apply prune_bound_present in Hx.
      apply elem_of_cons in Hst as [->|Hst]; [done|].
      apply (IH _ st Hst). rewrite fn_lookup_insert_ne; [done|].
      by intros ->.
    + by apply prune_bound_raise in Hx as ->.
Qed.

(** X16.  With [remove_bound], [filter_gene_list] fails with an
    [AttributeError] as soon as one of the statements has an absent role,
    whatever the policy and the gene list. *)
Theorem filter_gene_list_absent_role (family_ids : string → list string)
    (σ : Store) (stmts_in : list nat) (gene_list : list string)
    (policy : string) (allow_families invert : bool) (st : nat) :
  st ∈ stmts_in → None ∈ agent_list (σ st) →
  (filter_gene_list family_ids σ stmts_in gene_list policy allow_families
     true invert).2 = Raise AttributeError.
Proof.
  intros Hst Hnone. unfold filter_gene_list. cbn [snd].
  by rewrite (prune_all_absent _ _ _ _ Hst Hnone).
Qed.

Lemma filter_gene_list_absent_role_witness :
  (filter_gene_list (λ _, []) MoreExamples.no_enzyme [0%nat] ["B"] "one"
     false true false).2 = Raise AttributeError.
Proof.
  apply (filter_gene_list_absent_role _ _ _ _ _ _ _ 0%nat).
  - apply list_elem_of_here.
  - apply list_elem_of_here.
Defined.

Section mutation_status_facts.
Context (agent_mutations : Agent → list Mutation).
Context (mutations : gmap string (list Mutation)) (deletions : list string).

(** A role filler that no test of [filter_mutation_status] holds
    against: an [Agent] that is not deleted, without mutations and without
    bound partners. *)
Lemma mutation_agents_absent remove_bound ags :
  None ∈ ags →
  (∀ a, Some a ∈ ags →
        is_Agent a = true ∧ (a_name a ∉ deletions) ∧
        agent_mutations a = [] ∧ a_bound_conditions a = []) →
  mutation_agents agent_mutations mutations deletions remove_bound ags
  = Raise AttributeError.
Proof.
  induction ags as [|[a|] ags IH]; intros Hnone Hplain.
  - by apply elem_of_nil in Hnone.
  - destruct (Hplain a) as (Ha & Hdel & Hmut & Hbc); [by left|].
    apply elem_of_cons in Hnone as [?|Hnone]; [done|].
    cbn [mutation_agents mutation_criterion].
    rewrite bool_decide_false, Ha, Hmut by done. cbn.
    rewrite IH; [|done|intros b Hb; apply Hplain; by right].
    destruct remove_bound; cbn.
    + unfold get_bound_conditions. rewrite Ha, Hbc. done.
    + unfold get_bound_conditions. rewrite Ha, Hbc. done.
  - cbn. by destruct remove_bound.
Qed.

(** X17.  [filter_mutation_status] cannot pass over an absent role:
    once the statements before it are dealt with, a statement with an
    absent role whose present role fillers are plain (agents that are not
    deleted, without mutations and without bound partners) makes the call
    fail with an [AttributeError], with and without [remove_bound]. *)
Theorem filter_mutation_status_absent_role (σ σ1 : Store)
    (before after stmts_out : list nat) (stmt : nat) (remove_bound : bool) :
  filter_mutation_status agent_mutations mutations deletions σ before
    remove_bound = Ok (σ1, stmts_out) →
  None ∈ agent_list (σ1 stmt) →
  (∀ a, Some a ∈ agent_list (σ1 stmt) →
        is_Agent a = true ∧ (a_name a ∉ deletions) ∧
        agent_mutations a = [] ∧ a_bound_conditions a = []) →
  filter_mutation_status agent_mutations mutations deletions σ
    (before ++ stmt :: after) remove_bound = Raise AttributeError.
Proof.
  unfold filter_mutation_status. intros Hbefore Hnone Hplain.
  rewrite foldM_app, Hbefore, bind_Ok_l. cbn [foldM].
  unfold mutation_step at 2. cbn [fst snd].
  by rewrite mutation_agents_absent.
Qed.
End mutation_status_facts.

Lemma filter_mutation_status_absent_role_witness :
  filter_mutation_status (λ _, []) ∅ [] MoreExamples.no_enzyme
    ([] ++ [0%nat]) false = Raise AttributeError.
Proof.
  apply (filter_mutation_status_absent_role _ _ _ _ MoreExamples.no_enzyme
           [] [] [] 0%nat false).
  - reflexivity.
  - apply list_elem_of_here.
  - intros a [[=]|[[= ->]|[]%elem_of_nil]%elem_of_cons]%elem_of_cons.
    split_and!; [done| |done..]. apply not_elem_of_nil.
Defined.

(** *** Filters by name and by [db_refs] *)

Lemma keep_if_invert found : keep_if found true = negb (keep_if found false).
Proof. by destruct found. Qed.

(** X18.  With a policy it knows, [filter_concept_names] with [invert]
    returns the complement of what it returns without: the two results
    split the input, and no statement is in both. *)
Theorem filter_concept_names_invert (stmts_in : list Statement)
    (name_list : list string) (policy : string) :
  policy ∈ ["one"; "all"] →
  (filter_concept_names stmts_in name_list policy false).2
    ++ (filter_concept_names stmts_in name_list policy true).2 ≡ₚ stmts_in ∧
  ∀ st, st ∈ (filter_concept_names stmts_in name_list policy false).2 →
        st ∉ (filter_concept_names stmts_in name_list policy true).2.
Proof.
  intros Hpol. unfold filter_concept_names. cbn [snd].
  assert (∀ test : list (option Agent) → bool,
    filter (λ st, keep_if (test (agent_list st)) false) stmts_in
      ++ filter (λ st, keep_if (test (agent_list st)) true) stmts_in
      ≡ₚ stmts_in ∧
    ∀ st, st ∈ filter (λ st, keep_if (test (agent_list st)) false) stmts_in →
          st ∉ filter (λ st, keep_if (test (agent_list st)) true) stmts_in)
    as Htest.
  { intros test. split.
    - rewrite (filter_ext_elem
        (λ st, keep_if (test (agent_list st)) true)
        (λ st, ¬ keep_if (test (agent_list st)) false)).
      + apply filter_partition.
      + intros st _. rewrite keep_if_invert.
        destruct (keep_if _ false); cbn; split; auto.
    - intros st [H1 _]%list_elem_of_filter [H2 _]%list_elem_of_filter.
      rewrite keep_if_invert in H2. by destruct (keep_if _ false). }
  apply elem_of_cons in Hpol as [->|Hpol].
  - rewrite !decide_True by done. apply Htest.
  - apply list_elem_of_singleton in Hpol as ->.
    rewrite !(decide_False (P := "all" = "one")) by done.
    rewrite !decide_True by done. apply Htest.
Qed.

Lemma filter_concept_names_invert_witness :
  (filter_concept_names [Examples.no_evidence] ["A"] "one" false).2
    ++ (filter_concept_names [Examples.no_evidence] ["A"] "one" true).2
  ≡ₚ [Examples.no_evidence].
Proof.
  apply filter_concept_names_invert. apply list_elem_of_here.
Defined.

Section db_refs_facts.
Context (namespace : string) (values : list string) (match_suffix : bool).

Lemma meets_criterion_raises invert a :
  (∃ e, meets_criterion namespace values invert match_suffix a = Raise e) ↔
  bad_entry namespace values match_suffix a.
Proof.
  unfold meets_criterion, bad_entry.
  destruct (a_db_refs a !! namespace) as [[|s|[|first rest]]|];
    destruct match_suffix; destruct values; cbn;
    (split;
     [intros [e He]; try discriminate; try (by left); try (by right)
     |intros [H|(Hm & Hv & H)]; try discriminate; try done;
      try (by eexists)]).
Qed.
End db_refs_facts.

(** X19.  With a policy it knows, [filter_by_db_refs] fails exactly
    when some present role filler of some statement holds, for the
    namespace, an empty list of candidates, or [None] while suffixes are to
    be matched against at least one value: one such agent anywhere makes
    the whole call fail. *)
Theorem filter_by_db_refs_fails (stmts_in : list Statement)
    (namespace : string) (values : list string) (policy : string)
    (invert match_suffix : bool) :
  policy ∈ ["one"; "all"] →
  (∃ e, (filter_by_db_refs stmts_in namespace values policy invert
           match_suffix).2 = Raise e) ↔
  ∃ s a, s ∈ stmts_in ∧ Some a ∈ agent_list s ∧
         bad_entry namespace values match_suffix a.
Proof.
  intros Hpol. unfold filter_by_db_refs.
  rewrite bool_decide_false by (by intros H).
  set (keep := λ s : Statement, _ ≫= _).
  split.
  - intros [e He]. destruct (filterM keep stmts_in) as [out|e'] eqn:Hf;
      [done|].
    apply filterM_raise in Hf as (s & Hs & Hk). unfold keep in Hk.
    destruct (forM _ (omap id (agent_list s))) as [flags|e''] eqn:Hflags;
      [done|].
    apply forM_raise in Hflags as (a & Ha & Hm).
    exists s, a. split; [done|]. split.
    + apply list_elem_of_omap in Ha as (x & Hx & Hid). cbn in Hid.
      by subst x.
    + eapply meets_criterion_raises. by eexists.
  - intros (s & a & Hs & Ha & Hbad).
    apply (meets_criterion_raises _ _ _ invert) in Hbad as [e He].
    destruct (forM_raises (meets_criterion namespace values invert
                             match_suffix)
                (omap id (agent_list s)) a e) as [e' He']; [|done|].
    { apply list_elem_of_omap. by exists (Some a). }
    destruct (filterM_raises keep stmts_in s e') as [e'' He'']; [done|..].
    { unfold keep. by rewrite He'. }
    rewrite He''. by eexists.
Qed.

Lemma filter_by_db_refs_fails_witness :
  (∃ e, (filter_by_db_refs [Examples.no_evidence] "HGNC" ["1"] "one" false
           false).2 = Raise e) ↔
  ∃ s a, s ∈ [Examples.no_evidence] ∧ Some a ∈ agent_list s ∧
         bad_entry "HGNC" ["1"] false a.
Proof. apply filter_by_db_refs_fails. apply list_elem_of_here. Defined.

Lemma meets_criterion_invert namespace values match_suffix a :
  is_Some (a_db_refs a !! namespace) →
  meets_criterion namespace values true match_suffix a
  = fmap (M:=result) negb
      (meets_criterion namespace values false match_suffix a).
Proof.
  unfold meets_criterion. intros [entry ->].
  destruct entry as [|s|[|first rest]]; cbn;
    try done; destruct match_suffix; cbn; try done.
  by destruct values.
Qed.

Lemma forM_no_entry namespace values invert match_suffix (l : list Agent) :
  (∀ a, a ∈ l → a_db_refs a !! namespace = None) →
  forM (meets_criterion namespace values invert match_suffix) l
  = Ok ((λ _, false) <$> l).
Proof.
  induction l as [|a l IH]; intros Hall; [done|].
  assert (meets_criterion namespace values invert match_suffix a = Ok false)
    as Ha by (unfold meets_criterion; by rewrite Hall by (by left)).
  cbn [forM]. rewrite Ha, bind_Ok_l.
  rewrite IH by (intros b Hb; apply Hall; by right). done.
Qed.

(** X20.  In [filter_by_db_refs] an agent without an entry for the
    namespace fails the test with and without [invert]: a statement none of
    whose present role fillers holds the namespace is never returned under
    the policy ['one'], whatever [invert] is. *)
Theorem filter_by_db_refs_no_entry (stmts_in : list Statement)
    (namespace : string) (values : list string)
    (invert match_suffix : bool) log stmts_out (s : Statement) :
  filter_by_db_refs stmts_in namespace values "one" invert match_suffix
  = (log, Ok (Some stmts_out)) →
  (∀ a, Some a ∈ agent_list s → a_db_refs a !! namespace = None) →
  s ∉ stmts_out.
Proof.
  unfold filter_by_db_refs.
  rewrite bool_decide_false by (intros H; apply H; by repeat constructor).
  rewrite (decide_False (P := "one" = "all")) by done.
  set (keep := λ s : Statement, _ ≫= _).
  destruct (filterM keep stmts_in) as [out|e] eqn:Hf; [|done].
  intros [= <- <-] Hnone [_ Hk]%(filterM_elem _ _ _ _ Hf).
  unfold keep in Hk.
  rewrite forM_no_entry in Hk.
  - cbn in Hk. by rewrite existsb_all_false in Hk.
  - intros a (x & Hx & Hid)%list_elem_of_omap. cbn in Hid. subst x.
    by apply Hnone.
Qed.

Lemma filter_by_db_refs_no_entry_witness :
  (Examples.no_evidence ∉ []) ∧
  filter_by_db_refs [Examples.no_evidence] "UP" ["1"] "one" true false
  = ([INFO; INFO], Ok (Some [])).
Proof.
  split; [|reflexivity].
  apply (filter_by_db_refs_no_entry [Examples.no_evidence] "UP" ["1"] true
           false [INFO; INFO] [] Examples.no_evidence); [reflexivity|].
  intros a [[= ->]|[[= ->]|[]%elem_of_nil]%elem_of_cons]%elem_of_cons;
    reflexivity.
Defined.

(** X21.  When every present role filler holds an entry for the
    namespace, [invert] in [filter_by_db_refs] negates the test of each
    agent: the statements kept under ['one'] with [invert] are then the
    ones dropped under ['all'] without it.  If the first call returns, so
    does the second, and the two results split the input. *)
Theorem filter_by_db_refs_invert (stmts_in : list Statement)
    (namespace : string) (values : list string) (match_suffix : bool)
    log1 stmts_out1 :
  (∀ s a, s ∈ stmts_in → Some a ∈ agent_list s →
          is_Some (a_db_refs a !! namespace)) →
  filter_by_db_refs stmts_in namespace values "one" true match_suffix
  = (log1, Ok (Some stmts_out1)) →
  ∃ log2 stmts_out2,
    filter_by_db_refs stmts_in namespace values "all" false match_suffix
    = (log2, Ok (Some stmts_out2)) ∧
    stmts_out1 ++ stmts_out2 ≡ₚ stmts_in ∧
    ∀ s, s ∈ stmts_out1 → s ∉ stmts_out2.
Proof.
  intros Hentry. unfold filter_by_db_refs.
  rewrite !bool_decide_false
    by (intros H; apply H; by repeat constructor).
  rewrite (decide_False (P := "one" = "all")) by done.
  rewrite (decide_True (P := "all" = "all")) by done.
  set (keep1 := λ s : Statement, _ ≫= _).
  set (keep2 := λ s : Statement, _ ≫= _).
  destruct (filterM keep1 stmts_in) as [out1|e] eqn:H1; [|done].
  intros [= <- <-].
  set (f := λ s, match keep1 s with Ok b => b | Raise _ => false end).
  assert (∀ s, s ∈ stmts_in → keep1 s = Ok (f s)) as Hk1.
  { intros s Hs. destruct (filterM_Ok_all _ _ _ _ H1 Hs) as [b Hb].
    unfold f. by rewrite Hb. }
  assert (∀ s, s ∈ stmts_in → keep2 s = Ok (negb (f s))) as Hk2.
  { intros s Hs. specialize (Hk1 s Hs). unfold f. unfold keep1, keep2 in *.
    rewrite (forM_ext (meets_criterion namespace values true match_suffix)
               (λ a, fmap (M:=result) negb
                       (meets_criterion namespace values false
                          match_suffix a))) in *.
    2,3: apply Forall_forall; intros a (x & Hx & Hid)%list_elem_of_omap;
      cbn in Hid; subst x; apply meets_criterion_invert;
      by eapply Hentry.
    rewrite forM_fmap in *.
    destruct (forM _ (omap id (agent_list s))) as [flags|e]; [|done].
    cbn in *. by rewrite existsb_negb_forallb, negb_involutive. }
  rewrite (filterM_Ok_filter keep1 f) in H1 by done.
  injection H1 as <-.
  rewrite (filterM_Ok_filter keep2 (λ s, negb (f s))) by done.
  eexists _, _. split; [done|]. split.
  - rewrite (filter_ext_elem (λ s, negb (f s)) (λ s, ¬ f s)).
    + apply filter_partition.
    + intros s _. destruct (f s); cbn; split; auto.
  - intros s [Hs _]%list_elem_of_filter [Hs' _]%list_elem_of_filter.
    by destruct (f s).
Qed.

Lemma filter_by_db_refs_invert_witness :
  ∃ log2 stmts_out2,
    filter_by_db_refs [Examples.no_evidence] "HGNC" ["2"] "all" false false
    = (log2, Ok (Some stmts_out2)) ∧
    [Examples.no_evidence] ++ stmts_out2 ≡ₚ [Examples.no_evidence].
Proof.
  destruct (filter_by_db_refs_invert [Examples.no_evidence] "HGNC" ["2"]
              false [INFO; INFO] [Examples.no_evidence])
    as (log2 & out2 & H & Hperm & _); [|reflexivity|].
  - intros s a [->|[]%elem_of_nil]%elem_of_cons
      [[= ->]|[[= ->]|[]%elem_of_nil]%elem_of_cons]%elem_of_cons;
      by eexists.
  - by exists log2, out2.
Defined.

(** *** Modifications that are produced, and that are carried *)

Lemma listed_append_at {V : Type} (d : gmap string (list V)) k x n m :
  listed (append_at d k x) n m ↔ listed d n m ∨ (n = k ∧ m = x).
Proof.
  unfold listed, append_at. destruct (d !! k) as [l|] eqn:Hk.
  - destruct (decide (n = k)) as [->|Hne].
    + rewrite lookup_insert_eq, Hk. cbn. rewrite elem_of_app.
      rewrite list_elem_of_singleton. split.
      * intros [?|?]; [by left|by right].
      * intros [?|[_ ?]]; [by left|by right].
    + rewrite lookup_insert_ne by done. split; [by left|].
      by intros [?|[? _]].
  - destruct (decide (n = k)) as [->|Hne].
    + rewrite lookup_insert_eq, Hk. cbn. rewrite list_elem_of_singleton.
      split; [by right|]. by intros [?%elem_of_nil|[_ ?]].
    + rewrite lookup_insert_ne by done. split; [by left|].
      by intros [?|[? _]].
Qed.

Lemma held_add_at d k x n m :
  held (add_at d k x) n m ↔ held d n m ∨ (n = k ∧ m = x).
Proof.
  unfold held, add_at. destruct (d !! k) as [s|] eqn:Hk.
  - destruct (decide (n = k)) as [->|Hne].
    + rewrite lookup_insert_eq, Hk. cbn. rewrite elem_of_union.
      rewrite elem_of_singleton. split.
      * intros [?|?]; [by left|by right].
      * intros [?|[_ ?]]; [by left|by right].
    + rewrite lookup_insert_ne by done. split; [by left|].
      by intros [?|[? _]].
  - destruct (decide (n = k)) as [->|Hne].
    + rewrite lookup_insert_eq, Hk. cbn. rewrite elem_of_singleton.
      split; [by right|]. by intros [?%elem_of_empty|[_ ?]].
    + rewrite lookup_insert_ne by done. split; [by left|].
      by intros [?|[? _]].
Qed.

Lemma listed_remove_dups {V : Type} `{EqDecision V}
    (d : gmap string (list V)) n m :
  listed (remove_dups <$> d) n m ↔ listed d n m.
Proof.
  unfold listed. rewrite lookup_fmap. destruct (d !! n) as [l|]; [|done].
  cbn. apply elem_of_remove_dups.
Qed.

Lemma add_mods_listed su ag su' :
  add_mods su ag = Ok su' →
  ∀ n m, listed su' n m ↔
         listed su n m ∨
         ∃ a mc, ag = Some a ∧ a_name a = n ∧ mc ∈ a_mods a ∧
                 m = mod_of_condition mc.
Proof.
  intros H n m. destruct ag as [a|]; cbn in H.
  - inv_bind H as mods Hmods. unfold get_mods in Hmods.
    destruct (is_Agent a); [|done]. injection Hmods as <-.
    injection H as <-.
    rewrite (foldl_grows listed _
      (λ mc n m, n = a_name a ∧ m = mod_of_condition mc)
      (λ s x n m, listed_append_at s (a_name a) _ n m)).
    split.
    + intros [?|(mc & ? & -> & ->)]; [by left|]. right. by exists a, mc.
    + intros [?|(a' & mc & [= <-] & <- & ? & ->)]; [by left|].
      right. by exists mc.
  - injection H as <-. split; [by left|].
    by intros [?|(a & mc & ? & _)].
Qed.

Lemma add_mods_stmt_listed su (st : Statement) su' :
  foldM add_mods su (agent_list st) = Ok su' →
  ∀ n m, listed su' n m ↔
         listed su n m ∨
         ∃ a mc, Some a ∈ agent_list st ∧ a_name a = n ∧ mc ∈ a_mods a ∧
                 m = mod_of_condition mc.
Proof.
  intros H n m.
  rewrite (foldM_grows listed _ _ add_mods_listed _ _ _ H). split.
  - intros [?|(ag & ? & a & mc & -> & ?)]; [by left|].
    right. by exists a, mc.
  - intros [?|(a & mc & ? & ?)]; [by left|].
    right. exists (Some a). split; [done|]. by exists a, mc.
Qed.

Lemma mods_used_listed whitelist stmts_in su :
  mods_used whitelist stmts_in = Ok su →
  ∀ n m, listed su n m ↔ listed whitelist n m ∨ carried stmts_in n m.
Proof.
  unfold mods_used. intros H n m. inv_bind H as su0 Hsu0.
  injection H as <-. rewrite listed_remove_dups.
  rewrite (foldM_grows listed _ _ add_mods_stmt_listed _ _ _ Hsu0).
  unfold carried. split.
  - intros [?|(st & ? & a & mc & ?)]; [by left|].
    right. by exists st, a, mc.
  - intros [?|(st & a & mc & ? & ?)]; [by left|].
    right. exists st. split; [done|]. by exists a, mc.
Qed.

Section mods_facts.
Context (isinstance_Modification : string → bool).
Context (isinstance_RemoveModification : string → bool).
Context (modclass_to_modtype : gmap string string).
Context (modtype_to_inverse : gmap string string).

Abbreviation modification_of :=
  (modification_of isinstance_RemoveModification modclass_to_modtype
     modtype_to_inverse).
Abbreviation produced :=
  (produced isinstance_Modification isinstance_RemoveModification
     modclass_to_modtype modtype_to_inverse).

Lemma mod_is_used_true su st :
  mod_is_used isinstance_Modification isinstance_RemoveModification
    modclass_to_modtype modtype_to_inverse su st = Ok true ↔
  isinstance_Modification (class_name st) = false ∨
  ∃ m sub, modification_of st = Ok m ∧ get_sub st = Ok (Some sub) ∧
           listed su (a_name sub) m.
Proof.
  unfold mod_is_used, AssembleCorpusMore.modification_of, listed.
  destruct (isinstance_Modification (class_name st)); [|by split; [left|]].
  destruct (getitem modclass_to_modtype (class_name st)) as [mt|e]; cbn.
  2: { split; [done|]. by intros [?|(m & sub & ? & _)]. }
  destruct (if isinstance_RemoveModification (class_name st)
            then getitem modtype_to_inverse mt else Ok mt) as [mt'|e]; cbn.
  2: { split; [done|]. by intros [?|(m & sub & ? & _)]. }
  destruct (get_sub st) as [[sub|]|e]; cbn.
  - split.
    + intros [= H%bool_decide_eq_true]. right. by eexists _, sub.
    + intros [?|(m & sub' & [= <-] & [= <-] & ?)]; [done|].
      f_equal. by apply bool_decide_eq_true.
  - split; [done|]. by intros [?|(m & sub & _ & ? & _)].
  - split; [done|]. by intros [?|(m & sub & _ & ? & _)].
Qed.

(** X22.  What [filter_inconsequential_mods] keeps.  The index it
    returns holds, for a name, the whitelisted modifications and the ones
    that some agent of that name carries as a condition in the input.  A
    statement that is not a Modification is kept; a Modification is kept
    exactly when the modification it makes on its substrate is whitelisted
    or carried by some agent called like the substrate. *)
Theorem inconsequential_mods_kept (stmts_in : list Statement)
    (whitelist : option (gmap string (list Mod))) stmts_out states_used :
  filter_inconsequential_mods isinstance_Modification
    isinstance_RemoveModification modclass_to_modtype modtype_to_inverse
    stmts_in whitelist = Ok (stmts_out, states_used) →
  (∀ n m, listed states_used n m ↔
          listed (default ∅ whitelist) n m ∨ carried stmts_in n m) ∧
  ∀ st, st ∈ stmts_out ↔
        st ∈ stmts_in ∧
        (isinstance_Modification (class_name st) = false ∨
         ∃ m sub, modification_of st = Ok m ∧ get_sub st = Ok (Some sub) ∧
                  (listed (default ∅ whitelist) (a_name sub) m ∨
                   carried stmts_in (a_name sub) m)).
Proof.
  unfold filter_inconsequential_mods. intros H.
  inv_bind H as su Hsu. inv_bind H as out Hout. injection H as <- <-.
  pose proof (mods_used_listed _ _ _ Hsu) as Hlisted.
  split; [done|]. intros st.
  rewrite (filterM_elem _ _ _ _ Hout), mod_is_used_true.
  split; intros [Hst [?|(m & sub & ? & ? & Hm)]]; (split; [done|]);
    [by left| |by left|]; right; exists m, sub; (split_and!; [done..|]);
    by apply Hlisted.
Qed.

Lemma held_empty n m : ¬ held ∅ n m.
Proof. unfold held. rewrite lookup_empty. cbn. apply not_elem_of_empty. Qed.

Lemma mods_set_step_held ms st ms' :
  mods_set_step isinstance_Modification isinstance_RemoveModification
    modclass_to_modtype modtype_to_inverse ms st = Ok ms' →
  ∀ n m, held ms' n m ↔
         held ms n m ∨
         (isinstance_Modification (class_name st) = true ∧
          ∃ sub, modification_of st = Ok m ∧ get_sub st = Ok (Some sub) ∧
                 a_name sub = n).
Proof.
  unfold mods_set_step. intros H n m.
  destruct (isinstance_Modification (class_name st)).
  - inv_bind H as m' Hm'. inv_bind H as sub Hsub.
    inv_bind H as sub_name Hname. injection H as <-.
    destruct sub as [sub|]; [|done]. injection Hname as <-.
    rewrite held_add_at. split.
    + intros [?|[-> ->]]; [by left|]. right. split; [done|]. by exists sub.
    + intros [?|[_ (sub' & Hm & Hs & <-)]]; [by left|]. right.
      rewrite Hm' in Hm. rewrite Hsub in Hs. by simplify_eq.
  - injection H as <-. split; [by left|]. by intros [?|[? _]].
Qed.

Lemma unreachable_agent_held ms um ag um' :
  unreachable_agent ms um ag = Ok um' →
  ∀ n m, held um' n m ↔
         held um n m ∨
         ∃ a mc, ag = Some a ∧ a_name a = n ∧ mc ∈ a_mods a ∧
                 m = mod_of_condition mc ∧ ¬ held ms n m.
Proof.
  intros H n m. destruct ag as [a|]; cbn in H.
  - inv_bind H as mods Hmods. unfold get_mods in Hmods.
    destruct (is_Agent a); [|done]. injection Hmods as <-.
    injection H as <-.
    rewrite (foldl_grows held _
      (λ mc n m, n = a_name a ∧ m = mod_of_condition mc ∧ ¬ held ms n m)).
    + split.
      * intros [?|(mc & ? & -> & -> & ?)]; [by left|].
        right. by exists a, mc.
      * intros [?|(a' & mc & [= <-] & <- & ? & -> & ?)]; [by left|].
        right. by exists mc.
    + clear. intros um mc n m. cbn. case_bool_decide as Hin.
      * split; [by left|]. intros [?|(-> & -> & Hnot)]; [done|].
        by destruct Hnot.
      * rewrite held_add_at. split.
        -- intros [?|[-> ->]]; [by left|by right].
        -- intros [?|(-> & -> & _)]; [by left|by right].
  - injection H as <-. split; [by left|].
    by intros [?|(a & mc & ? & _)].
Qed.

Lemma unreachable_stmt_held ms um (st : Statement) um' :
  foldM (unreachable_agent ms) um (agent_list st) = Ok um' →
  ∀ n m, held um' n m ↔
         held um n m ∨
         ∃ a mc, Some a ∈ agent_list st ∧ a_name a = n ∧ mc ∈ a_mods a ∧
                 m = mod_of_condition mc ∧ ¬ held ms n m.
Proof.
  intros H n m.
  rewrite (foldM_grows held _ _ (unreachable_agent_held ms) _ _ _ H). split.
  - intros [?|(ag & ? & a & mc & -> & ?)]; [by left|].
    right. by exists a, mc.
  - intros [?|(a & mc & ? & ?)]; [by left|].
    right. exists (Some a). split; [done|]. by exists a, mc.
Qed.

(** X23.  What [get_unreachable_mods] reports: for a name, exactly the
    modifications that some agent of that name carries as a condition in
    the input and that no Modification statement of the input makes on a
    substrate of that name. *)
Theorem get_unreachable_mods_spec (stmts_in : list Statement)
    unreachable_mods :
  get_unreachable_mods isinstance_Modification isinstance_RemoveModification
    modclass_to_modtype modtype_to_inverse stmts_in = Ok unreachable_mods →
  ∀ n m, held unreachable_mods n m ↔
         carried stmts_in n m ∧ ¬ produced stmts_in n m.
Proof.
  unfold get_unreachable_mods. intros H n m. inv_bind H as ms Hms.
  pose proof (foldM_grows held _ _ mods_set_step_held _ _ _ Hms) as Hset.
  assert (∀ n m, held ms n m ↔ produced stmts_in n m) as Hprod.
  { intros n' m'. rewrite Hset. unfold AssembleCorpusMore.produced. split.
    - intros [[]%held_empty|(st & ? & ? & sub & ? & ? & ?)].
      by exists st, sub.
    - intros (st & sub & ? & ? & ? & ? & ?). right. exists st.
      split; [done|]. split; [done|]. by exists sub. }
  rewrite (foldM_grows held _ _ (unreachable_stmt_held ms) _ _ _ H).
  unfold carried. split.
  - intros [[]%held_empty|(st & ? & a & mc & ? & ? & ? & ? & Hnot)].
    split; [by exists st, a, mc|]. by rewrite <- Hprod.
  - intros [(st & a & mc & ? & ? & ? & ? & ?) Hnot]. right.
    exists st. split; [done|]. exists a, mc. split_and!; [done..|].
    by rewrite Hprod.
Qed.
End mods_facts.

(** In the chain, [A] phosphorylates [B] on S100 and phosphorylated [B]
    phosphorylates [C] on T5: the first statement is kept, since [B]
    carries S100 in the second. *)
Lemma inconsequential_mods_kept_witness :
  ∃ stmts_out states_used,
    Examples.inconsequential_mods Examples.mods_chain None
    = Ok (stmts_out, states_used) ∧
    ∀ n m, listed states_used n m ↔
           listed ∅ n m ∨ carried Examples.mods_chain n m.
Proof.
  destruct (Examples.inconsequential_mods Examples.mods_chain None)
    as [[out su]|e] eqn:E; [|by vm_compute in E].
  exists out, su. split; [done|].
  exact (proj1 (inconsequential_mods_kept _ _ _ _ _ _ _ _ E)).
Defined.

(** In the chain, S100 on [B] is made by the first statement; nothing
    is unreachable. *)
Lemma get_unreachable_mods_spec_witness :
  ∃ unreachable_mods,
    get_unreachable_mods Examples.is_Modification
      Examples.is_RemoveModification Examples.modtypes Examples.inverses
      Examples.mods_chain = Ok unreachable_mods ∧
    ∀ n m, held unreachable_mods n m ↔
           carried Examples.mods_chain n m ∧
           ¬ produced Examples.is_Modification
               Examples.is_RemoveModification Examples.modtypes
               Examples.inverses Examples.mods_chain n m.
Proof.
  destruct (get_unreachable_mods Examples.is_Modification
              Examples.is_RemoveModification Examples.modtypes
              Examples.inverses Examples.mods_chain)
    as [um|e] eqn:E; [|by vm_compute in E].
  exists um. split; [done|].
  exact (get_unreachable_mods_spec _ _ _ _ _ _ E).
Defined.

(** ** More on grouping *)

Lemma keys_of_stmt_self set_iter s ks key s' :
  keys_of_stmt set_iter s = Ok ks → (key, s') ∈ ks →
  s' = s ∧ key.1 = class_name s.
Proof.
  unfold keys_of_stmt. intros H Hin. repeat case_decide.
  - injection H as <-. unfold complex_keys in Hin.
    assert ((key, s') ∈ (if bool_decide
                              (1 < length (set_iter (name <$> agent_list s))
                               < 6)%nat
                         then (λ pair, ((class_name s,
                                         [VStr pair.1; VStr pair.2]), s))
                                <$> permutations2
                                      (set_iter (name <$> agent_list s))
                         else []) →
            s' = s ∧ key.1 = class_name s) as Hpairs.
    { case_bool_decide; [|by intros ?%elem_of_nil].
      by intros (pair & [= -> ->] & _)%list_elem_of_fmap. }
    case_decide; [by apply Hpairs|].
    apply elem_of_app in Hin as [Hin|Hin]; [by apply Hpairs|].
    by apply list_elem_of_singleton in Hin as [= -> ->].
  - inv_bind H as subj Hsubj. inv_bind H as f Hf. inv_bind H as t Ht.
    injection H as <-. by apply list_elem_of_singleton in Hin as [= -> ->].
  - destruct (agent_list s) as [|ag0 ?]; [done|].
    inv_bind H as act Hact. inv_bind H as flag Hflag. injection H as <-.
    by apply list_elem_of_singleton in Hin as [= -> ->].
  - destruct (agent_list s) as [|ag0 ?]; [done|].
    inv_bind H as act Hact. inv_bind H as flag Hflag. injection H as <-.
    by apply list_elem_of_singleton in Hin as [= -> ->].
  - injection H as <-. by apply list_elem_of_singleton in Hin as [= -> ->].
Qed.

Lemma get_keyed_stmts_elem set_iter stmts keyed key s :
  _get_keyed_stmts set_iter stmts = Ok keyed →
  (key, s) ∈ keyed ↔
  s ∈ stmts ∧ ∃ ks, keys_of_stmt set_iter s = Ok ks ∧ (key, s) ∈ ks.
Proof.
  unfold _get_keyed_stmts. intros H. inv_bind H as kss Hkss.
  injection H as <-. apply forM_Ok_Forall2 in Hkss.
  rewrite list_elem_of_In, in_concat. split.
  - intros (ks & [i Hi]%list_elem_of_In%list_elem_of_lookup
              & Hin%list_elem_of_In).
    destruct (Forall2_lookup_r _ _ _ _ _ Hkss Hi) as (s0 & Hs0 & Hk).
    destruct (keys_of_stmt_self _ _ _ _ _ Hk Hin) as [-> _].
    split; [by eapply list_elem_of_lookup_2|]. by exists ks.
  - intros ([i Hi]%list_elem_of_lookup & ks & Hk & Hin).
    destruct (Forall2_lookup_l _ _ _ _ _ Hkss Hi) as (ks' & Hks' & Hk').
    exists ks. rewrite Hk in Hk'. injection Hk' as <-.
    split; apply list_elem_of_In; [|done].
    by eapply list_elem_of_lookup_2.
Qed.

Lemma rows_append_nonempty k s rows :
  Forall (λ row, row.2 ≠ []) rows →
  Forall (λ row, row.2 ≠ []) (rows_append k s rows).
Proof.
  induction 1 as [|[k' ss] rows Hss Hrows IH]; cbn [rows_append].
  - by repeat constructor.
  - destruct (decide (k' = k)); constructor; try done.
    cbn. by destruct ss.
Qed.

Section group_facts.
Context (set_iter : list string → list string).
Context (get_hash : Statement → Z).
Context (ev_totals : option (gmap Z Z)).

Abbreviation _count := (_count get_hash ev_totals).
Abbreviation sum_counts := (sum_counts get_hash ev_totals).
Abbreviation accumulate := (accumulate get_hash ev_totals).
Abbreviation accumulate_all := (accumulate_all set_iter get_hash ev_totals).
Abbreviation process_row := (process_row get_hash ev_totals).
Abbreviation process_rows := (process_rows get_hash ev_totals).
Abbreviation member_key := (member_key get_hash ev_totals).
Abbreviation member_lt := (member_lt get_hash ev_totals).
Abbreviation group_and_sort_statements :=
  (group_and_sort_statements set_iter get_hash ev_totals).

Lemma sum_counts_perm ss ss' : ss ≡ₚ ss' → sum_counts ss = sum_counts ss'.
Proof.
  unfold Presentation.sum_counts.
  induction 1 as [|s ss ss' _ IH|s s' ss|ss1 ss2 ss3 _ IH1 _ IH2];
    cbn [foldr]; [done|by rewrite IH|lia|congruence].
Qed.

Lemma accumulate_rows_get keyed acc0 acc :
  foldM accumulate acc0 keyed = Ok acc →
  ∀ key s, s ∈ rows_get (stmt_rows acc) key ↔
           s ∈ rows_get (stmt_rows acc0) key ∨ (key, s) ∈ keyed.
Proof.
  intros H key s.
  assert (∀ a ks a', accumulate a ks = Ok a' →
            ∀ key s, s ∈ rows_get (stmt_rows a') key ↔
                     s ∈ rows_get (stmt_rows a) key ∨ ks = (key, s))
    as Hstep.
  { clear. intros a [k s0] a' [Hr _]%accumulate_rows_counts key s.
    rewrite Hr, rows_get_append.
    destruct (decide (k = key)) as [->|Hne].
    - rewrite elem_of_app, list_elem_of_singleton. split.
      + intros [?| ->]; [by left|by right].
      + intros [?|[= ->]]; [by left|by right].
    - split; [by left|]. intros [?|[= -> _]]; done. }
  rewrite (foldM_grows (λ acc key s, s ∈ rows_get (stmt_rows acc) key)
             accumulate (λ ks key s, ks = (key, s)) Hstep _ _ _ H).
  split.
  - intros [?|(ks & ? & ->)]; [by left|by right].
  - intros [?|?]; [by left|]. right. by eexists.
Qed.

Lemma accumulate_rows_nonempty keyed acc0 acc :
  foldM accumulate acc0 keyed = Ok acc →
  Forall (λ row, row.2 ≠ []) (stmt_rows acc0) →
  Forall (λ row, row.2 ≠ []) (stmt_rows acc).
Proof.
  intros H H0.
  eapply (foldM_invariant (λ acc, Forall (λ row, row.2 ≠ [])
                                    (stmt_rows acc))); [|exact H0|exact H].
  intros a [k s] a' Ha [Hr _]%accumulate_rows_counts. rewrite Hr.
  by apply rows_append_nonempty.
Qed.

(** The rows after the accumulation: no row is empty, and a row holds
    the statements that yield its key. *)
Lemma accumulate_all_rows stmts acc key ss :
  accumulate_all stmts = Ok acc → (key, ss) ∈ stmt_rows acc →
  ss ≠ [] ∧
  ∀ s, s ∈ ss ↔
       s ∈ stmts ∧ ∃ ks, keys_of_stmt set_iter s = Ok ks ∧ (key, s) ∈ ks.
Proof.
  intros Hacc Hin.
  pose proof (accumulate_all_inv _ _ _ _ _ Hacc) as [Hnd _].
  unfold Presentation.accumulate_all in Hacc. inv_bind Hacc as keyed Hkeyed.
  split.
  - apply accumulate_rows_nonempty in Hacc; [|constructor].
    rewrite Forall_forall in Hacc. exact (Hacc _ Hin).
  - intros s. rewrite <- (get_keyed_stmts_elem _ _ _ _ _ Hkeyed).
    rewrite <- (rows_get_elem _ _ _ Hnd Hin).
    rewrite (accumulate_rows_get _ _ _ Hacc). cbn. split.
    + by intros [?%elem_of_nil|?].
    + by right.
Qed.

(** The members of a group of the result. *)
Lemma group_stmts_elem stmts out g :
  group_and_sort_statements stmts = Ok out → g ∈ out →
  group_stmts g ≠ [] ∧
  ∀ s, s ∈ group_stmts g ↔
       s ∈ stmts ∧
       ∃ ks, keys_of_stmt set_iter s = Ok ks ∧ (group_id g, s) ∈ ks.
Proof.
  intros Hout Hg.
  pose proof Hout as (acc & groups & Hacc & _)%group_and_sort_inv.
  destruct (group_row _ _ _ _ _ _ _ Hacc Hout Hg) as (ss & Hin & Hp).
  destruct (accumulate_all_rows _ _ _ _ Hacc Hin) as [Hne Hss].
  apply process_row_Some in Hp as (Hk & Hv & Hperm). split.
  - intros Hnil. rewrite Hnil in Hperm.
    by apply Permutation_nil_l in Hperm.
  - intros s. by rewrite Hperm, Hss.
Qed.

(** X24.  Every group that [group_and_sort_statements] returns holds at
    least one statement; its statements are statements of the input, of
    the class that the group is labelled with, that yield the key of the
    group; and the group weight in its sort key is the sum of their
    counts. *)
Theorem group_members (stmts : list Statement) (out : list Group)
    (g : Group) :
  group_and_sort_statements stmts = Ok out → g ∈ out →
  group_stmts g ≠ [] ∧
  sk_verb (group_key g) = group_verb g ∧
  sk_sub_count (group_key g) = sum_counts (group_stmts g) ∧
  ∀ s, s ∈ group_stmts g ↔
       s ∈ stmts ∧
       ∃ ks, keys_of_stmt set_iter s = Ok ks ∧ (group_id g, s) ∈ ks.
Proof.
  intros Hout Hg.
  destruct (group_stmts_elem _ _ _ Hout Hg) as [Hne Hmem].
  pose proof Hout as (acc & groups & Hacc & _)%group_and_sort_inv.
  destruct (group_row _ _ _ _ _ _ _ Hacc Hout Hg) as (ss & Hin & Hp).
  pose proof (accumulate_all_inv _ _ _ _ _ Hacc) as [Hnd Hc].
  apply process_row_Some in Hp as (Hk & Hv & Hperm).
  split_and!; [done| | |done].
  - by rewrite Hk.
  - rewrite Hk. unfold sk_sub_count. cbn [fst snd].
    by rewrite Hc, (rows_get_elem _ _ _ Hnd Hin), (sum_counts_perm _ _ Hperm).
Qed.

Lemma member_lt_order : weak_order member_lt.
Proof.
  split; unfold Presentation.member_lt.
  - intros x y [= H%Qlt_bool_iff]. f_equal.
    destruct (Qlt_bool (member_key y) (member_key x)) eqn:E; [|done].
    apply Qlt_bool_iff in E. exfalso. eapply Qlt_irrefl, Qlt_trans; eauto.
  - intros x y z [= Hxy] [= Hyz]. f_equal.
    destruct (Qlt_bool (member_key x) (member_key z)) eqn:E; [|done].
    apply Qlt_bool_iff in E. exfalso.
    assert (member_key y <= member_key x)%Q as H1.
    { apply Qnot_lt_le. intros ?%Qlt_bool_iff. congruence. }
    assert (member_key z <= member_key y)%Q as H2.
    { apply Qnot_lt_le. intros ?%Qlt_bool_iff. congruence. }
    eapply Qlt_irrefl, Qlt_le_trans; [exact E|]. by eapply Qle_trans.
Qed.

Lemma process_row_sorted acc row g :
  process_row acc row = Ok (Some g) →
  sorted_desc member_lt row.2 = Ok (group_stmts g).
Proof.
  destruct row as [[verb inps] ss]. unfold Presentation.process_row.
  intros H. inv_bind H as skip Hskip. destruct skip; [done|].
  inv_bind H as ss' Hss'. by injection H as <-.
Qed.

End group_facts.

(** A Complex and an Activation over [A] and [B]. *)
Lemma group_members_witness :
  ∃ out,
    Examples.run [Examples.complex_AB_2; Examples.activation_AB_1] = Ok out ∧
    Forall (λ g, group_stmts g ≠ []) out.
Proof.
  destruct (Examples.run [Examples.complex_AB_2; Examples.activation_AB_1])
    as [out|e] eqn:E; [|by vm_compute in E].
  exists out. split; [done|]. apply Forall_forall. intros g Hg.
  exact (proj1 (group_members _ _ _ _ _ _ E Hg)).
Defined.


(** ** The keys of a Complex *)

Lemma elem_of_permutations2 {A : Type} (l : list A) x y :
  (x, y) ∈ permutations2 l → x ∈ l ∧ y ∈ l.
Proof.
  unfold permutations2.
  intros ([i x'] & Hin & Hx)%list_elem_of_bind.
  apply list_elem_of_bind in Hin as ([j y'] & Hin & Hy).
  cbn in Hin. case_decide; [by apply elem_of_nil in Hin|].
  apply list_elem_of_singleton in Hin as [= -> ->].
  apply elem_of_lookup_imap in Hx as (? & ? & [= <- <-] & ?).
  apply elem_of_lookup_imap in Hy as (? & ? & [= <- <-] & ?).
  split; by eapply list_elem_of_lookup_2.
Qed.

Lemma length_permutations2 {A : Type} (l : list A) :
  (1 < length l < 6)%nat →
  length (permutations2 l) = (length l * (length l - 1))%nat.
Proof.
  intros Hlen.
  destruct l as [|x1 [|x2 [|x3 [|x4 [|x5 [|x6 l]]]]]]; cbn in Hlen;
    try lia; reflexivity.
Qed.

Lemma forM_make_agent_spell n :
  forM make_agent (VStr <$> chars n) = Ok (spell n).
Proof.
  unfold spell. induction n as [|c n IH]; [done|].
  cbn [chars fmap list_fmap forM]. rewrite IH.
  unfold make_agent at 1. by rewrite decide_False by (by destruct n).
Qed.

Section complex_keys_facts.
Context (set_iter : list string → list string).
Hypothesis set_iter_perm : ∀ l, set_iter l ≡ₚ remove_dups l.

Lemma length_set_iter s :
  length (set_iter (name <$> agent_list s)) = name_set_size s.
Proof. unfold name_set_size. by rewrite set_iter_perm. Qed.

(** X26.  The number of keys that [_get_keyed_stmts] yields for a
    Complex with [n] distinct participant names (an absent participant
    counting as the name ['None']): the two ordered pairs when [n] is 2; the
    [n(n-1)] ordered pairs and the key of all names when [n] is 3, 4 or 5;
    the key of all names alone otherwise. *)
Theorem complex_key_count (s : Statement) :
  class_name s = "Complex" →
  ∃ ks,
    keys_of_stmt set_iter s = Ok ks ∧
    length ks
    = (let n := name_set_size s in
       if decide (n = 2) then 2
       else if decide (2 < n < 6) then n * (n - 1) + 1
       else 1)%nat.
Proof.
  intros Hc. unfold keys_of_stmt. rewrite decide_True by done.
  eexists. split; [done|]. unfold complex_keys.
  rewrite length_set_iter. cbn zeta. generalize (length_set_iter s).
  generalize (set_iter (name <$> agent_list s)) (name_set_size s).
  intros l n Hn. destruct (decide (n = 2)) as [->|Hne].
  - rewrite bool_decide_true by lia.
    rewrite length_fmap, length_permutations2 by lia. by rewrite Hn.
  - rewrite length_app. cbn [length].
    destruct (decide (2 < n < 6)%nat).
    + rewrite bool_decide_true by lia.
      rewrite length_fmap, length_permutations2 by lia. by rewrite Hn.
    + by rewrite bool_decide_false by lia.
Qed.

Lemma simplified_complex (s : Statement) key :
  class_name s = "Complex" →
  (key, s) ∈ complex_keys (set_iter (name <$> agent_list s)) "Complex" s →
  agent_list s ≠ [] →
  ∃ n, n ∈ name <$> agent_list s ∧
       simplified (key, s) = Ok (new_stmt (Complex (spell n))).
Proof.
  intros Hc Hin Hne.
  assert (∀ n, n ∈ set_iter (name <$> agent_list s) →
               n ∈ name <$> agent_list s) as Hnames.
  { intros n. rewrite set_iter_perm. apply elem_of_remove_dups. }
  assert (∀ n rest, key.2 = VStr n :: rest →
            simplified (key, s) = Ok (new_stmt (Complex (spell n))))
    as Hsimp.
  { intros n rest Hk. unfold simplified. cbn [fst snd].
    unfold index. rewrite Hk. cbn [lookup list_lookup]. rewrite bind_Ok_l.
    cbn [iter_val]. rewrite bind_Ok_l.
    unfold make_stmt_from_sort_key, sk_inps. cbn [fst snd].
    rewrite decide_True by done. by rewrite forM_make_agent_spell. }
  unfold complex_keys in Hin.
  assert ((key, s) ∈ (if bool_decide
                           (1 < length (set_iter (name <$> agent_list s))
                            < 6)%nat
                      then (λ pair, (("Complex",
                                      [VStr pair.1; VStr pair.2]), s))
                             <$> permutations2
                                   (set_iter (name <$> agent_list s))
                      else []) →
          ∃ n, n ∈ name <$> agent_list s ∧
               simplified (key, s) = Ok (new_stmt (Complex (spell n))))
    as Hpairs.
  { case_bool_decide; [|by intros ?%elem_of_nil].
    intros ([x y] & [= ->] & [Hx _]%elem_of_permutations2)%list_elem_of_fmap.
    exists x. split; [by apply Hnames|]. by eapply Hsimp. }
  case_decide; [by apply Hpairs|].
  apply elem_of_app in Hin as [Hin|Hin]; [by apply Hpairs|].
  apply list_elem_of_singleton in Hin as [= ->].
  destruct (sorted_strs (set_iter (name <$> agent_list s)))
    as [|n rest] eqn:Hsorted.
  - exfalso. pose proof (sorted_strs_perm
      (set_iter (name <$> agent_list s))) as Hperm.
    rewrite Hsorted, set_iter_perm in Hperm.
    apply Permutation_nil_l in Hperm.
    destruct (agent_list s) as [|ag ags]; [done|].
    assert (name ag ∈ remove_dups (name <$> ag :: ags)) as Hag
      by (apply elem_of_remove_dups; rewrite fmap_cons; by left).
    rewrite <- Hperm in Hag. by apply elem_of_nil in Hag.
  - exists n. split; [|by eapply Hsimp].
    apply Hnames. rewrite <- (sorted_strs_perm _), Hsorted. by left.
Qed.

End complex_keys_facts.

Lemma complex_key_count_witness :
  ∃ ks,
    keys_of_stmt remove_dups Examples.complex_ABC_5 = Ok ks ∧
    length ks = 7%nat.
Proof.
  destruct (complex_key_count remove_dups (λ l, reflexivity _)
              Examples.complex_ABC_5) as (ks & Hks & Hlen); [reflexivity|].
  exists ks. split; [done|]. rewrite Hlen. reflexivity.
Defined.


(** ** Where every statement goes, and when the grouping returns *)

Lemma keys_of_stmt_single set_iter s ks :
  class_name s ≠ "Complex" → keys_of_stmt set_iter s = Ok ks →
  ∃ key, ks = [(key, s)].
Proof.
  unfold keys_of_stmt. intros Hc H. rewrite decide_False in H by done.
  repeat case_decide.
  - inv_bind H as subj Hsubj. inv_bind H as f Hf. inv_bind H as t Ht.
    injection H as <-. by eexists.
  - destruct (agent_list s) as [|ag0 ?]; [done|].
    inv_bind H as act Hact. inv_bind H as flag Hflag. injection H as <-.
    by eexists.
  - destruct (agent_list s) as [|ag0 ?]; [done|].
    inv_bind H as act Hact. inv_bind H as flag Hflag. injection H as <-.
    by eexists.
  - injection H as <-. by eexists.
Qed.

Lemma rows_get_in rows k s :
  s ∈ rows_get rows k → (k, rows_get rows k) ∈ rows.
Proof.
  induction rows as [|[k' ss] rows IH]; cbn [rows_get].
  - by intros ?%elem_of_nil.
  - destruct (decide (k' = k)) as [->|Hne]; intros Hs.
    + by left.
    + right. by apply IH.
Qed.

Section returns.
Context (set_iter : list string → list string).
Context (get_hash : Statement → Z).
Context (ev_totals : option (gmap Z Z)).

Abbreviation accumulate := (accumulate get_hash ev_totals).
Abbreviation accumulate_all := (accumulate_all set_iter get_hash ev_totals).
Abbreviation process_row := (process_row get_hash ev_totals).
Abbreviation process_rows := (process_rows get_hash ev_totals).
Abbreviation member_lt := (member_lt get_hash ev_totals).
Abbreviation group_and_sort_statements :=
  (group_and_sort_statements set_iter get_hash ev_totals).

Lemma process_row_not_complex acc key ss :
  key.1 ≠ "Complex" → ∃ g, process_row acc (key, ss) = Ok (Some g).
Proof.
  destruct key as [verb inps]. cbn [fst]. intros Hv.
  unfold Presentation.process_row.
  rewrite bool_decide_false by done. cbn [andb]. rewrite bind_Ok_l.
  destruct (sorted_members_total get_hash ev_totals ss) as [ss' ->].
  by eexists.
Qed.

(** X28.  When [group_and_sort_statements] returns, every statement of
    the input that is not a Complex is a member of exactly one group of the
    result. *)
Theorem statement_in_one_group (stmts : list Statement) (out : list Group)
    (s : Statement) :
  group_and_sort_statements stmts = Ok out →
  s ∈ stmts → class_name s ≠ "Complex" →
  ∃ g, g ∈ out ∧ s ∈ group_stmts g ∧
       ∀ g', g' ∈ out → s ∈ group_stmts g' → g' = g.
Proof.
  intros Hout Hs Hc.
  pose proof Hout as (acc & groups & Hacc & Hrows & Hsort)%group_and_sort_inv.
  pose proof (accumulate_all_inv _ _ _ _ _ Hacc) as [Hnd _].
  pose proof Hacc as Hacc'. unfold Presentation.accumulate_all in Hacc'.
  inv_bind Hacc' as keyed Hkeyed.
  assert (∃ key, keys_of_stmt set_iter s = Ok [(key, s)]) as [key Hkey].
  { pose proof Hkeyed as Hk. unfold _get_keyed_stmts in Hk.
    inv_bind Hk as kss Hkss. apply forM_Ok_Forall2 in Hkss.
    apply list_elem_of_lookup in Hs as [i Hi].
    destruct (Forall2_lookup_l _ _ _ _ _ Hkss Hi) as (ks & _ & Hks).
    destruct (keys_of_stmt_single _ _ _ Hc Hks) as [key ->]. by exists key. }
  assert ((key, s) ∈ keyed) as Hin.
  { apply (get_keyed_stmts_elem _ _ _ _ _ Hkeyed). split; [done|].
    eexists. split; [done|]. by left. }
  assert (s ∈ rows_get (stmt_rows acc) key) as Hget.
  { apply (accumulate_rows_get _ _ _ _ _ Hacc'). by right. }
  apply rows_get_in in Hget as Hrow.
  destruct (process_row_not_complex acc key (rows_get (stmt_rows acc) key))
    as [g Hg].
  { destruct (keys_of_stmt_self _ _ _ _ _ Hkey (list_elem_of_here _ _))
      as [_ ->]. done. }
  assert (g ∈ out) as Hgout.
  { rewrite (sorted_desc_perm _ _ _ Hsort).
    apply (process_rows_elem _ _ _ _ _ Hrows). by eexists. }
  exists g. split; [done|].
  destruct key as [verb inps].
  pose proof (process_row_Some _ _ _ _ _ _ _ Hg) as (Hk & Hv & Hperm).
  split; [by rewrite Hperm|].
  intros g' Hg' Hs'.
  apply (NoDup_fmap_elem group_id out); [by eapply groups_NoDup|done..|].
  destruct (group_stmts_elem _ _ _ _ _ _ Hout Hg') as (_ & Hmem).
  apply Hmem in Hs' as (_ & ks & Hks & Hid).
  rewrite Hkey in Hks. injection Hks as <-.
  apply list_elem_of_singleton in Hid. injection Hid as Hid1 Hid2.
  unfold group_id. by rewrite Hid1, Hid2, Hv, Hk.
Qed.

Lemma keys_of_stmt_names s :
  class_name s ∉ ["Conversion"; "ActiveForm"; "HasActivity"] →
  ∃ ks, keys_of_stmt set_iter s = Ok ks ∧
        ∀ key s', (key, s') ∈ ks → Forall (λ v, ∃ n, v = VStr n) key.2.
Proof.
  intros Hc. unfold keys_of_stmt.
  assert (∀ names : list string,
            Forall (λ v, ∃ n, v = VStr n) (VStr <$> names)) as Hstr.
  { intros names. apply Forall_fmap, Forall_forall. intros n _. by exists n. }
  destruct (decide (class_name s = "Complex")).
  - eexists. split; [done|]. intros key s' Hin. unfold complex_keys in Hin.
    assert ((key, s') ∈ (if bool_decide
                              (1 < length (set_iter (name <$> agent_list s))
                               < 6)%nat
                         then (λ pair, ((class_name s,
                                         [VStr pair.1; VStr pair.2]), s))
                                <$> permutations2
                                      (set_iter (name <$> agent_list s))
                         else []) →
            Forall (λ v, ∃ n, v = VStr n) key.2) as Hpairs.
    { case_bool_decide; [|by intros ?%elem_of_nil].
      intros (pair & [= -> ->] & _)%list_elem_of_fmap. cbn.
      repeat constructor; by eexists. }
    case_decide; [by apply Hpairs|].
    apply elem_of_app in Hin as [Hin|Hin]; [by apply Hpairs|].
    apply list_elem_of_singleton in Hin as [= -> ->]. apply Hstr.
  - rewrite !decide_False
      by (intros Heq; apply Hc; rewrite Heq; by repeat constructor).
    eexists. split; [done|]. intros key s' Hin.
    apply list_elem_of_singleton in Hin as [= -> ->]. cbn.
    apply Forall_fmap, Forall_forall. intros ag _. by eexists.
Qed.

Lemma tuple_lt_names a b :
  Forall (λ v, ∃ n, v = VStr n) a → Forall (λ v, ∃ n, v = VStr n) b →
  ∃ r, tuple_lt a b = Ok r.
Proof.
  unfold tuple_lt. intros Ha. revert b.
  induction Ha as [|x a [n ->] _ IH]; intros b Hb.
  - destruct b; by eexists.
  - destruct Hb as [|y b [m ->] Hb]; [by eexists|]. cbn [lex_lt].
    case_decide; [by apply IH|]. by eexists.
Qed.

Lemma sortkey_lt_names k1 k2 :
  Forall (λ v, ∃ n, v = VStr n) (sk_inps k1) →
  Forall (λ v, ∃ n, v = VStr n) (sk_inps k2) →
  ∃ r, sortkey_lt k1 k2 = Ok r.
Proof.
  intros H1 H2. unfold sortkey_lt.
  repeat case_decide; try by eexists. by apply tuple_lt_names.
Qed.

Lemma accumulate_total acc key s :
  key.1 ≠ "Conversion" → ∃ acc', accumulate acc (key, s) = Ok acc'.
Proof.
  intros Hk. unfold Presentation.accumulate.
  rewrite decide_False by done. by eexists.
Qed.

Lemma process_row_total acc key ss :
  (∀ s, s ∈ ss → None ∉ agent_list s) →
  ∃ og, process_row acc (key, ss) = Ok og.
Proof.
  destruct key as [verb inps]. intros Hpresent.
  unfold Presentation.process_row.
  destruct (forM_total distinct_names ss) as [sizes Hsizes].
  { apply Forall_forall. intros s Hs. unfold distinct_names.
    destruct (forM_total agent_name (agent_list s)) as [names ->].
    - apply Forall_forall. intros [a|] Ha; [by eexists|].
      by destruct (Hpresent s Hs).
    - by eexists. }
  rewrite Hsizes.
  destruct (sorted_members_total get_hash ev_totals ss) as [ss' Hss'].
  destruct (_ && _ && _); cbn.
  - destruct (forallb _ sizes); [by eexists|]. rewrite Hss'. by eexists.
  - rewrite Hss'. by eexists.
Qed.

(** X29.  [group_and_sort_statements] returns a result on every list in
    which no statement is a Conversion, an ActiveForm or a HasActivity, and
    in which every Complex has all its members present: no comparison of
    the sort then meets values of two types, and no absent member is asked
    for its name. *)
Theorem group_and_sort_returns (stmts : list Statement) :
  (∀ s, s ∈ stmts →
        class_name s ∉ ["Conversion"; "ActiveForm"; "HasActivity"]) →
  (∀ s, s ∈ stmts → class_name s = "Complex" → None ∉ agent_list s) →
  ∃ out, group_and_sort_statements stmts = Ok out.
Proof.
  intros Hclass Hpresent. unfold Presentation.group_and_sort_statements.
  (* the keys *)
  destruct (forM_total (keys_of_stmt set_iter) stmts) as [kss Hkss].
  { apply Forall_forall. intros s Hs.
    destruct (keys_of_stmt_names s (Hclass s Hs)) as (ks & -> & _).
    by eexists. }
  assert (_get_keyed_stmts set_iter stmts = Ok (concat kss)) as Hkeyed
    by (unfold _get_keyed_stmts; by rewrite Hkss).
  assert (∀ key s, (key, s) ∈ concat kss →
            s ∈ stmts ∧ key.1 = class_name s ∧
            Forall (λ v, ∃ n, v = VStr n) key.2) as Hkeys.
  { intros key s (Hs & ks & Hks & Hin)%(get_keyed_stmts_elem _ _ _ _ _ Hkeyed).
    destruct (keys_of_stmt_self _ _ _ _ _ Hks Hin) as [_ Hv].
    destruct (keys_of_stmt_names s (Hclass s Hs)) as (ks' & Hks' & Hnames).
    rewrite Hks in Hks'. injection Hks' as <-.
    split_and!; [done..|]. by eapply Hnames. }
  (* the accumulation *)
  destruct (foldM_total accumulate (concat kss) (MkAcc [] ∅ ∅))
    as [acc Hfold].
  { intros a [key s] (Hs & Hv & _)%Hkeys. apply accumulate_total.
    rewrite Hv. intros Heq. apply (Hclass s Hs). rewrite Heq. by left. }
  assert (accumulate_all stmts = Ok acc) as Hacc.
  { unfold Presentation.accumulate_all. by rewrite Hkeyed. }
  rewrite Hacc, bind_Ok_l.
  assert (∀ key ss, (key, ss) ∈ stmt_rows acc →
            (∀ s, s ∈ ss → (key, s) ∈ concat kss) ∧ ss ≠ []) as Hrow.
  { intros key ss Hin.
    destruct (accumulate_all_rows _ _ _ _ _ _ _ Hacc Hin) as [Hne Hss].
    split; [|done]. intros s Hs.
    apply (get_keyed_stmts_elem _ _ _ _ _ Hkeyed). by apply Hss. }
  (* the rows *)
  destruct (forM_total (process_row acc) (stmt_rows acc)) as [ogs Hogs].
  { apply Forall_forall. intros [key ss] Hin.
    destruct (Hrow key ss Hin) as [Hss _].
    destruct (decide (key.1 = "Complex")) as [Hv|Hv].
    - apply process_row_total. intros s Hs.
      destruct (Hkeys key s (Hss s Hs)) as (Hs' & Hc & _).
      apply Hpresent; [done|congruence].
    - destruct (process_row_not_complex acc key ss Hv) as [g Hg].
      by exists (Some g). }
  assert (process_rows acc = Ok (omap id ogs)) as Hrows
    by (unfold Presentation.process_rows; by rewrite Hogs).
  rewrite Hrows, bind_Ok_l.
  (* the sort *)
  apply sorted_desc_total.
  assert (∀ g, g ∈ omap id ogs →
            Forall (λ v, ∃ n, v = VStr n) (sk_inps (group_key g))) as Hg.
  { intros g ([[verb inps] ss] & Hin & Hp)%(process_rows_elem _ _ _ _ _ Hrows).
    apply process_row_Some in Hp as (-> & _ & _).
    destruct (Hrow _ _ Hin) as [Hss Hne].
    destruct ss as [|s ss]; [done|].
    by destruct (Hkeys (verb, inps) s (Hss s (list_elem_of_here _ _)))
      as (_ & _ & ?). }
  intros x y Hx Hy. unfold group_lt. apply sortkey_lt_names; by apply Hg.
Qed.

Lemma accumulate_complex acc inps s :
  accumulate acc (("Complex", inps), s)
  = Ok (MkAcc (rows_append ("Complex", inps) s (stmt_rows acc))
          (counts_add ("Complex", inps) (_count get_hash ev_totals s)
             (stmt_counts acc))
          (counts_add inps (_count get_hash ev_totals s) (arg_counts acc))).
Proof.
  unfold Presentation.accumulate. cbn [fst snd]. by rewrite decide_False.
Qed.

Lemma process_row_raise acc row e :
  process_row acc row = Raise e → e = AttributeError.
Proof.
  destruct row as [[verb inps] ss]. unfold Presentation.process_row.
  destruct (sorted_members_total get_hash ev_totals ss) as [ss' Hss'].
  intros H. destruct (_ && _ && _); cbn in H.
  - destruct (forM distinct_names ss) as [sizes|e'] eqn:Hsizes; cbn in H.
    + destruct (forallb _ sizes); [done|]. by rewrite Hss' in H.
    + injection H as <-.
      apply forM_raise in Hsizes as (s & _ & Hs). unfold distinct_names in Hs.
      destruct (forM agent_name (agent_list s)) as [names|e''] eqn:Hn;
        [done|].
      injection Hs as <-. apply forM_raise in Hn as ([a|] & _ & Ha); [done|].
      by injection Ha as <-.
  - by rewrite Hss' in H.
Qed.

Lemma complex_pair_key s :
  class_name s = "Complex" → (name_set_size s < 6)%nat →
  (∀ l, set_iter l ≡ₚ remove_dups l) →
  agent_list s ≠ [] →
  ∃ inps, (("Complex", inps), s) ∈ complex_keys
                                   (set_iter (name <$> agent_list s))
                                   "Complex" s ∧
          (length inps ≤ 2)%nat.
Proof.
  intros Hc Hsize Hperm Hne. unfold complex_keys.
  assert (length (set_iter (name <$> agent_list s)) = name_set_size s)
    as Hlen by (unfold name_set_size; by rewrite Hperm).
  destruct (set_iter (name <$> agent_list s)) as [|x [|y l]] eqn:Hl.
  - exfalso. destruct (agent_list s) as [|ag ags]; [done|].
    assert (name ag ∈ remove_dups (name <$> ag :: ags)) as Hag
      by (apply elem_of_remove_dups; rewrite fmap_cons; by left).
    rewrite <- (Hperm _), Hl in Hag.
    by apply elem_of_nil in Hag.
  - exists [VStr x]. split; [|cbn; lia]. cbn. by left.
  - exists [VStr x; VStr y]. split; [|cbn; lia].
    rewrite bool_decide_true by (cbn in *; lia).
    assert (((x, y) : string * string) ∈ permutations2 (x :: y :: l))
      as Hxy.
    { unfold permutations2. apply list_elem_of_bind. exists (0%nat, x).
      split; [|apply (elem_of_lookup_imap_2 _ _ x 0%nat); done].
      apply list_elem_of_bind. exists (1%nat, y).
      split; [by left|].
      by apply (elem_of_lookup_imap_2 _ _ y 1%nat). }
    assert (((("Complex", [VStr x; VStr y]), s) : Key * Statement)
            ∈ (λ pair : string * string,
                 (("Complex", [VStr pair.1; VStr pair.2]), s))
                <$> permutations2 (x :: y :: l)) as Hin.
    { apply list_elem_of_fmap. by exists (x, y). }
    case_decide; [done|]. apply elem_of_app. by left.
Qed.

(** X30.  [_get_keyed_stmts] gives an absent participant the name
    ['None'], but the suppression test reads the name of every participant
    itself.  So on a list of Complexes [group_and_sort_statements] fails
    with an [AttributeError] as soon as one of them has an absent member
    and fewer than 6 distinct participant names. *)
Theorem complex_absent_member_raises (stmts : list Statement)
    (s : Statement) :
  (∀ l, set_iter l ≡ₚ remove_dups l) →
  (∀ s', s' ∈ stmts → class_name s' = "Complex") →
  s ∈ stmts → None ∈ agent_list s → (name_set_size s < 6)%nat →
  group_and_sort_statements stmts = Raise AttributeError.
Proof.
  intros Hperm Hclass Hs Hnone Hsize.
  unfold Presentation.group_and_sort_statements.
  (* the keys *)
  destruct (forM_total (keys_of_stmt set_iter) stmts) as [kss Hkss].
  { apply Forall_forall. intros s' Hs'. unfold keys_of_stmt.
    rewrite decide_True by (by apply Hclass). by eexists. }
  assert (_get_keyed_stmts set_iter stmts = Ok (concat kss)) as Hkeyed
    by (unfold _get_keyed_stmts; by rewrite Hkss).
  assert (∀ key s', (key, s') ∈ concat kss → key.1 = "Complex") as Hkeys.
  { intros key s' (Hs' & ks & Hks & Hin)%(get_keyed_stmts_elem _ _ _ _ _
                                             Hkeyed).
    destruct (keys_of_stmt_self _ _ _ _ _ Hks Hin) as [_ ->].
    by apply Hclass. }
  (* the accumulation: the two weights of a key agree *)
  assert (∀ l acc0,
            (∀ key s', (key, s') ∈ l → key.1 = "Complex") →
            (∀ inps, counts_get (arg_counts acc0) inps
                     = counts_get (stmt_counts acc0) ("Complex", inps)) →
            ∃ acc, foldM accumulate acc0 l = Ok acc ∧
                   ∀ inps, counts_get (arg_counts acc) inps
                           = counts_get (stmt_counts acc) ("Complex", inps))
    as Hfold.
  { clear. induction l as [|[[verb inps0] s'] l IH]; intros acc0 Hl H0.
    - by exists acc0.
    - assert (verb = "Complex") as ->
        by (apply (Hl (verb, inps0) s'); by left).
      cbn [foldM]. rewrite accumulate_complex, bind_Ok_l. apply IH.
      + intros key s'' Hin. apply (Hl key s''). by right.
      + intros inps. cbn [arg_counts stmt_counts].
        rewrite !counts_get_add, H0.
        destruct (decide (inps0 = inps)) as [->|Hne].
        * by rewrite decide_True.
        * rewrite decide_False; [done|]. by intros [= ?]. }
  destruct (Hfold (concat kss) (MkAcc [] ∅ ∅) Hkeys) as (acc & Hacc' & Heq);
    [done|].
  assert (accumulate_all stmts = Ok acc) as Hacc.
  { unfold Presentation.accumulate_all. by rewrite Hkeyed. }
  rewrite Hacc, bind_Ok_l.
  (* the row of [s] *)
  pose proof (accumulate_all_inv _ _ _ _ _ Hacc) as [Hnd Hc].
  destruct (complex_pair_key s) as (inps & Hin & Hlen);
    [by apply Hclass|done|done|by intros Hnil; rewrite Hnil in Hnone;
     apply elem_of_nil in Hnone|].
  assert ((("Complex", inps), s) ∈ concat kss) as Hkeyed_s.
  { apply (get_keyed_stmts_elem _ _ _ _ _ Hkeyed). split; [done|].
    eexists. split; [|exact Hin]. unfold keys_of_stmt.
    by rewrite decide_True, (Hclass s Hs) by (by apply Hclass). }
  assert (s ∈ rows_get (stmt_rows acc) ("Complex", inps)) as Hget.
  { apply (accumulate_rows_get _ _ _ _ _ Hacc'). by right. }
  apply rows_get_in in Hget as Hrow.
  (* its suppression test fails *)
  assert (∃ e, process_row acc
                 (("Complex", inps), rows_get (stmt_rows acc)
                                       ("Complex", inps)) = Raise e)
    as [e He].
  { unfold Presentation.process_row.
    rewrite bool_decide_true, Heq, Z.eqb_refl, bool_decide_true by done.
    cbn [andb].
    destruct (forM_raises distinct_names
                (rows_get (stmt_rows acc) ("Complex", inps)) s AttributeError
                Hget) as [e' ->]; [|by eexists].
    unfold distinct_names.
    destruct (forM_raises agent_name (agent_list s) None AttributeError
                Hnone eq_refl) as [e'' He''].
    rewrite He''. cbn. f_equal.
    apply forM_raise in He'' as ([a|] & _ & Ha); [done|].
    by injection Ha as <-. }
  unfold Presentation.process_rows.
  destruct (forM_raises (process_row acc) (stmt_rows acc) _ e Hrow He)
    as [e' He'].
  rewrite He'. cbn. f_equal.
  apply forM_raise in He' as (row & _ & Hraise).
  by apply process_row_raise in Hraise.
Qed.
End returns.

(** A list without the three classes, with every member present. *)
Lemma group_and_sort_returns_witness :
  ∃ out,
    Examples.run [Examples.complex_AB_2; Examples.activation_AB_1;
                  Examples.phosphorylation_AB_1] = Ok out.
Proof.
  apply group_and_sort_returns.
  - intros s [->|[->|[->|[]%elem_of_nil]%elem_of_cons]%elem_of_cons]
      %elem_of_cons; vm_compute;
      by intros [?|[?|[?|[]%elem_of_nil]%elem_of_cons]%elem_of_cons]
        %elem_of_cons.
  - intros s [->|[->|[->|[]%elem_of_nil]%elem_of_cons]%elem_of_cons]
      %elem_of_cons; try done. intros _.
    by intros [?|[?|[]%elem_of_nil]%elem_of_cons]%elem_of_cons.
Defined.

(** The Activation is in one group, beside the group of the Complex. *)
Lemma statement_in_one_group_witness :
  ∃ out g,
    Examples.run [Examples.complex_AB_2; Examples.activation_AB_1] = Ok out ∧
    g ∈ out ∧ Examples.activation_AB_1 ∈ group_stmts g.
Proof.
  destruct (Examples.run [Examples.complex_AB_2; Examples.activation_AB_1])
    as [out|e] eqn:E; [|by vm_compute in E].
  destruct (statement_in_one_group _ _ _ _ _ Examples.activation_AB_1 E)
    as (g & Hg & Hs & _); [by right; left|done|].
  by exists out, g.
Defined.

(** A Complex of [A] and an absent member. *)
Lemma complex_absent_member_raises_witness :
  Examples.run [new_stmt (Complex [Examples.agA; None])]
  = Raise AttributeError.
Proof.
  apply (complex_absent_member_raises remove_dups (λ _, 0%Z) None _
           (new_stmt (Complex [Examples.agA; None]))).
  - done.
  - by intros s' [->|[]%elem_of_nil]%elem_of_cons.
  - by left.
  - by right; left.
  - vm_compute. lia.
Defined.
